(** * Geometric substrate of the graph weather model

    A shallow embedding of [ppsci/data/dataset/atmospheric_utils.py]:
    the icosahedral mesh hierarchy, mesh merging and edge extraction, the
    two spatial queries, the local-coordinate rotation engine, the edge
    feature encoders and the constructor of [GraphGridMesh].

    Conventions.
    - Python exceptions are the constructors of [exn]; a fallible
      computation returns a [result].
    - Floating point numbers are kept behind the interface [FloatOps].
      The combinatorial statements hold for every implementation of that
      interface; the analytic ones are proved for the instance over the
      real numbers, that is in exact arithmetic.
    - Integer index arrays are lists of [Z]; the [int32] storage of face
      arrays is written out as [to_int32].
    - Library routines of numpy and scipy are transcribed from their
      documented behaviour next to the function that calls them. *)

From Stdlib Require Import ZArith List Sorted Reals Lra Lia.
From stdpp Require Import base option list gmap strings.

Open Scope Z_scope.
Set Warnings "-clear-no-such-hyp".

(** ** Exceptions *)

Inductive exn :=
  | AssertionError
  | AttributeError
  | IndexError
  | KeyError
  | TypeError
  | ValueError.

Inductive result (A : Type) :=
  | Ok (a : A)
  | Raise (e : exn).
Arguments Ok {A} a.
Arguments Raise {A} e.

#[global] Instance result_ret : MRet result := λ A a, Ok a.
#[global] Instance result_bind : MBind result := λ A B f m,
  match m with
  | Ok a => f a
  | Raise e => Raise e
  end.

Definition is_Ok {A} (r : result A) : Prop := ∃ a, r = Ok a.
Definition raises {A} (r : result A) : Prop := ∃ e, r = Raise e.

(** ** Floating point interface *)

Class FloatOps (F : Type) := {
  f_of_Z : Z → F;
  fadd : F → F → F;
  fsub : F → F → F;
  fmul : F → F → F;
  fdiv : F → F → F;
  fneg : F → F;
  fabs : F → F;
  fsqrt : F → F;
  fsin : F → F;
  fcos : F → F;
  farcsin : F → F;
  farccos : F → F;
  farctan2 : F → F → F;
  fmod : F → F → F;
  fpi : F;
  fleb : F → F → bool;
  fceil : F → Z;
}.

Declare Scope fl_scope.
Delimit Scope fl_scope with fl.
Infix "+" := fadd : fl_scope.
Infix "-" := fsub : fl_scope.
Infix "*" := fmul : fl_scope.
Infix "/" := fdiv : fl_scope.
Notation "- x" := (fneg x) : fl_scope.
Notation "x <=? y" := (fleb x y) : fl_scope.

(** ** numpy indexing and int32 storage *)

(** [a[i]] on the first axis: negative indices count from the end. *)
Definition np_norm_index (n : nat) (i : Z) : option nat :=
  if bool_decide (0 ≤ i < Z.of_nat n) then Some (Z.to_nat i)
  else if bool_decide (- Z.of_nat n ≤ i < 0) then Some (Z.to_nat (Z.of_nat n + i))
  else None.

Definition np_getitem {A} (a : list A) (i : Z) : result A :=
  match np_norm_index (length a) i ≫= (a !!.) with
  | Some x => Ok x
  | None => Raise IndexError
  end.

(** [a[idx]] for an integer index array [idx]. *)
Fixpoint np_take {A} (a : list A) (idx : list Z) : result (list A) :=
  match idx with
  | [] => Ok []
  | i :: idx' =>
      x ← np_getitem a i;
      xs ← np_take a idx';
      mret (x :: xs)
  end.

(** Conversion of a Python integer to [int32] storage (two's complement). *)
Definition to_int32 (z : Z) : Z := (z + 2 ^ 31) mod 2 ^ 32 - 2 ^ 31.

Definition face : Type := Z * Z * Z.

Definition np_int32_faces (fs : list face) : list face :=
  map (λ '(a, b, c), (to_int32 a, to_int32 b, to_int32 c)) fs.

Section Geometry.
Context {F : Type} `{FloatOps F}.

Definition vec3 : Type := F * F * F.
Definition mat3 : Type := vec3 * vec3 * vec3.

Definition vadd (u v : vec3) : vec3 :=
  let '(ux, uy, uz) := u in let '(vx, vy, vz) := v in
  (ux + vx, uy + vy, uz + vz)%fl.

Definition vsub (u v : vec3) : vec3 :=
  let '(ux, uy, uz) := u in let '(vx, vy, vz) := v in
  (ux - vx, uy - vy, uz - vz)%fl.

Definition vscale_div (u : vec3) (d : F) : vec3 :=
  let '(ux, uy, uz) := u in (ux / d, uy / d, uz / d)%fl.

(** [np.linalg.norm] of a 3-vector. *)
Definition vnorm (u : vec3) : F :=
  let '(ux, uy, uz) := u in fsqrt (ux * ux + uy * uy + uz * uz)%fl.

Definition vdot (u v : vec3) : F :=
  let '(ux, uy, uz) := u in let '(vx, vy, vz) := v in
  (ux * vx + uy * vy + uz * vz)%fl.

(** Matrix times column vector, [einsum("ji,i->j")]. *)
Definition mat_vec (m : mat3) (v : vec3) : vec3 :=
  let '(r0, r1, r2) := m in (vdot r0 v, vdot r1 v, vdot r2 v).

Definition mat_col (m : mat3) (j : nat) : vec3 :=
  let '((a00, a01, a02), (a10, a11, a12), (a20, a21, a22)) := m in
  match j with
  | 0%nat => (a00, a10, a20)
  | 1%nat => (a01, a11, a21)
  | _ => (a02, a12, a22)
  end.

(** Row vector times matrix, one row of [np.dot(vertices, m)]. *)
Definition vec_mat (v : vec3) (m : mat3) : vec3 :=
  (vdot v (mat_col m 0), vdot v (mat_col m 1), vdot v (mat_col m 2)).

Definition mat_mul (a b : mat3) : mat3 :=
  let '(r0, r1, r2) := a in (vec_mat r0 b, vec_mat r1 b, vec_mat r2 b).

(** *** scipy.spatial.transform.Rotation.from_euler

    Lower-case axis letters denote extrinsic rotations: the elementary
    rotations are applied one after the other about the fixed axes, so the
    matrix of the sequence is the product of the elementary matrices with
    the first rotation rightmost. *)

Inductive axis := ax_x | ax_y | ax_z.

Definition elementary_rotation (ax : axis) (a : F) : mat3 :=
  let c := fcos a in
  let s := fsin a in
  let o := f_of_Z 0 in
  let i := f_of_Z 1 in
  match ax with
  | ax_x => ((i, o, o), (o, c, (- s)%fl), (o, s, c))
  | ax_y => ((c, o, s), (o, i, o), ((- s)%fl, o, c))
  | ax_z => ((c, (- s)%fl, o), (s, c, o), (o, o, i))
  end.

Fixpoint from_euler (seq : list axis) (angles : list F) : mat3 :=
  match seq, angles with
  | [ax], a :: _ => elementary_rotation ax a
  | ax :: seq', a :: angles' =>
      mat_mul (from_euler seq' angles') (elementary_rotation ax a)
  | _, _ => elementary_rotation ax_z (f_of_Z 0)
  end.

(** ** Triangular meshes *)

Record TriangularMesh := {
  vertices : list vec3;
  faces : list face;
}.

(** *** get_icosahedron *)

Definition phi : F := ((f_of_Z 1 + fsqrt (f_of_Z 5)) / f_of_Z 2)%fl.

Definition icosahedron_faces : list face :=
  [ (0, 1, 2); (0, 6, 1); (8, 0, 2); (8, 4, 0); (3, 8, 2);
    (3, 2, 7); (7, 2, 1); (0, 4, 6); (4, 11, 6); (6, 11, 5);
    (1, 5, 7); (4, 10, 11); (4, 8, 10); (10, 8, 3); (10, 3, 9);
    (11, 10, 9); (11, 9, 5); (5, 9, 7); (9, 3, 7); (1, 6, 5) ].

Definition get_icosahedron : TriangularMesh :=
  let o := f_of_Z 0 in
  let raw :=
    flat_map (λ '(c1, c2), [(c1, c2, o); (o, c1, c2); (c2, o, c1)])
             (list_prod [f_of_Z 1; f_of_Z (-1)] [phi; (- phi)%fl]) in
  let nrm := fsqrt (f_of_Z 1 * f_of_Z 1 + phi * phi)%fl in
  let scaled := map (λ v, vscale_div v nrm) raw in
  let angle_between_faces :=
    (f_of_Z 2 * farcsin (phi / fsqrt (f_of_Z 3)))%fl in
  let rotation_angle := ((fpi - angle_between_faces) / f_of_Z 2)%fl in
  let rotation_matrix := from_euler [ax_y] [rotation_angle] in
  {| vertices := map (λ v, vec_mat v rotation_matrix) scaled;
     faces := np_int32_faces icosahedron_faces |}.

(** *** _ChildVerticesBuilder *)

Record _ChildVerticesBuilder := {
  _child_vertices_index_mapping : gmap (Z * Z) Z;
  _parent_vertices : list vec3;
  _all_vertices_list : list vec3;
}.

Definition new_builder (parent : list vec3) : _ChildVerticesBuilder :=
  {| _child_vertices_index_mapping := ∅;
     _parent_vertices := parent;
     _all_vertices_list := parent |}.

(** [tuple(sorted(parent_vertex_indices))] *)
Definition _get_child_vertex_key (p : Z * Z) : Z * Z :=
  let '(i, j) := p in if j <? i then (j, i) else (i, j).

(** Mean of the two parent rows, projected to the unit sphere. *)
Definition child_vertex_position (a b : vec3) : vec3 :=
  let m := vscale_div (vadd a b) (f_of_Z 2) in
  vscale_div m (vnorm m).

Definition _create_child_vertex (b : _ChildVerticesBuilder) (p : Z * Z)
  : result _ChildVerticesBuilder :=
  rows ← np_take (_parent_vertices b) [p.1; p.2];
  match rows with
  | [r1; r2] =>
      let child_vertex_position := child_vertex_position r1 r2 in
      let child_vertex_key := _get_child_vertex_key p in
      mret {| _child_vertices_index_mapping :=
                <[child_vertex_key := Z.of_nat (length (_all_vertices_list b))]>
                  (_child_vertices_index_mapping b);
              _parent_vertices := _parent_vertices b;
              _all_vertices_list :=
                _all_vertices_list b ++ [child_vertex_position] |}
  | _ => Raise IndexError
  end.

Definition get_new_child_vertex_index (b : _ChildVerticesBuilder) (p : Z * Z)
  : result (Z * _ChildVerticesBuilder) :=
  let child_vertex_key := _get_child_vertex_key p in
  b' ← (if bool_decide (child_vertex_key ∈ dom (_child_vertices_index_mapping b))
        then Ok b else _create_child_vertex b p);
  match _child_vertices_index_mapping b' !! child_vertex_key with
  | Some i => Ok (i, b')
  | None => Raise KeyError
  end.

Definition get_all_vertices (b : _ChildVerticesBuilder) : list vec3 :=
  _all_vertices_list b.

(** *** _two_split_unit_sphere_triangle_faces *)

Fixpoint split_faces (b : _ChildVerticesBuilder) (fs : list face)
  : result (_ChildVerticesBuilder * list face) :=
  match fs with
  | [] => Ok (b, [])
  | (ind1, ind2, ind3) :: rest =>
      '(ind12, b1) ← get_new_child_vertex_index b (ind1, ind2);
      '(ind23, b2) ← get_new_child_vertex_index b1 (ind2, ind3);
      '(ind31, b3) ← get_new_child_vertex_index b2 (ind3, ind1);
      '(b', new_faces) ← split_faces b3 rest;
      mret (b', [ (ind1, ind12, ind31);
                  (ind12, ind2, ind23);
                  (ind31, ind23, ind3);
                  (ind12, ind23, ind31) ] ++ new_faces)
  end.

Definition _two_split_unit_sphere_triangle_faces (m : TriangularMesh)
  : result TriangularMesh :=
  '(b, new_faces) ← split_faces (new_builder (vertices m)) (faces m);
  mret {| vertices := get_all_vertices b;
          faces := np_int32_faces new_faces |}.

(** *** get_hierarchy_of_triangular_meshes_for_sphere *)

Fixpoint hierarchy_loop (n : nat) (current_mesh : TriangularMesh)
  : result (list TriangularMesh) :=
  match n with
  | O => Ok []
  | S n' =>
      next ← _two_split_unit_sphere_triangle_faces current_mesh;
      rest ← hierarchy_loop n' next;
      mret (next :: rest)
  end.

Definition get_hierarchy_of_triangular_meshes_for_sphere (splits : Z)
  : result (list TriangularMesh) :=
  let current_mesh := get_icosahedron in
  rest ← hierarchy_loop (Z.to_nat splits) current_mesh;
  mret (current_mesh :: rest).

End Geometry.

Arguments vec3 : clear implicits.
Arguments mat3 : clear implicits.
Arguments TriangularMesh : clear implicits.
Arguments _ChildVerticesBuilder : clear implicits.
Arguments _get_child_vertex_key : simpl never.


(** ** Mesh merge and edge extraction *)

Section MeshMerge.
Context {F : Type} `{FloatOps F}.

(** *** numpy.allclose

    [isclose(a, b)] is [|a - b| <= atol + rtol * |b|] with the default
    tolerances [rtol = 1e-05] and [atol = 1e-08]. [allclose] broadcasts its
    two arguments against each other first: along the row axis the lengths
    must agree unless one of them is 1, otherwise a [ValueError] is raised;
    the result over an empty array is [True]. *)

Definition rtol : F := (f_of_Z 1 / f_of_Z 100000)%fl.
Definition atol : F := (f_of_Z 1 / f_of_Z 100000000)%fl.

Definition np_isclose (a b : F) : bool :=
  (fabs (a - b) <=? atol + rtol * fabs b)%fl.

Definition np_isclose_row (u v : vec3 F) : bool :=
  let '(ux, uy, uz) := u in let '(vx, vy, vz) := v in
  np_isclose ux vx && np_isclose uy vy && np_isclose uz vz.

Fixpoint all_isclose_rows (a b : list (vec3 F)) : bool :=
  match a, b with
  | u :: a', v :: b' => np_isclose_row u v && all_isclose_rows a' b'
  | _, _ => true
  end.

Definition np_allclose (a b : list (vec3 F)) : result bool :=
  if bool_decide (length a = length b) then Ok (all_isclose_rows a b)
  else match a, b with
       | _, [v] => Ok (forallb (λ u, np_isclose_row u v) a)
       | [u], _ => Ok (forallb (λ v, np_isclose_row u v) b)
       | _, _ => Raise ValueError
       end.

(** [assert cond] *)
Definition py_assert (cond : bool) : result unit :=
  if cond then Ok tt else Raise AssertionError.

(** *** merge_meshes *)

(** The loop over [itertools.pairwise(mesh_list)]. *)
Fixpoint check_pairwise (mesh_list : list (TriangularMesh F)) : result unit :=
  match mesh_list with
  | mesh_i :: ((mesh_ip1 :: _) as rest) =>
      let num_nodes_mesh_i := length (vertices mesh_i) in
      close ← np_allclose (vertices mesh_i)
                 (take num_nodes_mesh_i (vertices mesh_ip1));
      _ ← py_assert close;
      check_pairwise rest
  | _ => Ok tt
  end.

Definition merge_meshes (mesh_list : list (TriangularMesh F))
  : result (TriangularMesh F) :=
  _ ← check_pairwise mesh_list;
  finest ← np_getitem mesh_list (-1);
  mret {| vertices := vertices finest;
          faces := concat (map faces mesh_list) |}.

(** *** faces_to_edges *)

Definition faces_to_edges (fs : list face) : list Z * list Z :=
  let col0 := map (λ f : face, f.1.1) fs in
  let col1 := map (λ f : face, f.1.2) fs in
  let col2 := map (λ f : face, f.2) fs in
  (col0 ++ col1 ++ col2, col1 ++ col2 ++ col0).

End MeshMerge.

(** ** Spatial index *)

(** [np.concatenate] of a Python list of one-dimensional arrays; an empty
    list is rejected. *)
Definition np_concatenate {A} (arrays : list (list A)) : result (list A) :=
  match arrays with
  | [] => Raise ValueError
  | _ => Ok (concat arrays)
  end.

(** [np.arange(n)] *)
Definition np_arange (n : nat) : list Z := map Z.of_nat (seq 0 n).

(** [enumerate(l)] *)
Fixpoint enumerate_from {A} (start : Z) (l : list A) : list (Z * A) :=
  match l with
  | [] => []
  | x :: l' => (start, x) :: enumerate_from (start + 1) l'
  end.

Definition py_enumerate {A} (l : list A) : list (Z * A) := enumerate_from 0 l.

(** Indices, in increasing order from [start], of the elements that
    satisfy [p]. *)
Fixpoint find_indices {A} (p : A → bool) (l : list A) (start : Z) : list Z :=
  match l with
  | [] => []
  | x :: l' =>
      if p x then start :: find_indices p l' (start + 1)
      else find_indices p l' (start + 1)
  end.

Section SpatialIndex.
Context {F : Type} `{FloatOps F}.

(** [np.deg2rad] *)
Definition np_deg2rad (x : F) : F := (x * (fpi / f_of_Z 180))%fl.

(** [np.rad2deg] *)
Definition np_rad2deg (x : F) : F := (x * (f_of_Z 180 / fpi))%fl.

(** *** _grid_lat_lon_to_coordinates

    [np.meshgrid(x, y)] yields arrays of shape [len(y), len(x)] with
    [phi_grid[i, j] = x[j]] and [theta_grid[i, j] = y[i]]. The result is the
    array of shape [num_lat, num_lon, 3], as a list of rows. *)
Definition _grid_lat_lon_to_coordinates (grid_latitude grid_longitude : list F)
  : list (list (vec3 F)) :=
  let phis := map np_deg2rad grid_longitude in
  let thetas := map (λ lat, np_deg2rad (f_of_Z 90 - lat)%fl) grid_latitude in
  map (λ theta,
         map (λ phi, (fcos phi * fsin theta,
                      fsin phi * fsin theta,
                      fcos theta)%fl) phis)
      thetas.

(** [.reshape([-1, 3])] of the coordinate array. *)
Definition grid_positions_of (grid_latitude grid_longitude : list F)
  : list (vec3 F) :=
  concat (_grid_lat_lon_to_coordinates grid_latitude grid_longitude).

(** *** scipy.spatial.cKDTree.query_ball_point

    For every query point the indices of the data points within distance
    [r] of it. For the Euclidean metric the tree compares squared
    distances with the square of [r], so a negative radius selects the
    points that its absolute value selects; the index lists of a
    multi-point query are sorted. *)
Definition squared_distance (p v : vec3 F) : F :=
  vdot (vsub p v) (vsub p v).

Definition within_radius (r : F) (p v : vec3 F) : bool :=
  (squared_distance p v <=? r * r)%fl.

Definition query_ball_point (data x : list (vec3 F)) (r : F) : list (list Z) :=
  map (λ p, find_indices (within_radius r p) data 0) x.

(** *** radius_query_indices *)
Definition radius_query_indices
    (grid_latitude grid_longitude : list F) (mesh : TriangularMesh F)
    (radius : F) : result (list Z * list Z) :=
  let grid_positions := grid_positions_of grid_latitude grid_longitude in
  let mesh_positions := vertices mesh in
  let query_indices := query_ball_point mesh_positions grid_positions radius in
  let grid_edge_indices :=
    map (λ '(grid_index, mesh_neighbors),
           repeat grid_index (length mesh_neighbors))
        (py_enumerate query_indices) in
  let mesh_edge_indices :=
    map (λ '(grid_index, mesh_neighbors), mesh_neighbors)
        (py_enumerate query_indices) in
  grid_edge_indices ← np_concatenate grid_edge_indices;
  mesh_edge_indices ← np_concatenate mesh_edge_indices;
  mret (grid_edge_indices, mesh_edge_indices).

(** *** in_mesh_triangle_indices

    The point-location routine of trimesh is a parameter: given the mesh
    and a non-empty array of query points it returns, per point, the index
    of the closest triangle, or it raises. [trimesh.proximity.closest_point]
    itself rejects an empty array of query points with a [ValueError]. *)
Section PointLocation.
Variable closest_point_triangle_id :
  TriangularMesh F → list (vec3 F) → result (list Z).

Definition trimesh_closest_point
    (mesh : TriangularMesh F) (points : list (vec3 F)) : result (list Z) :=
  match points with
  | [] => Raise ValueError
  | _ => closest_point_triangle_id mesh points
  end.

Definition in_mesh_triangle_indices
    (grid_latitude grid_longitude : list F) (mesh : TriangularMesh F)
  : result (list Z * list Z) :=
  let grid_positions := grid_positions_of grid_latitude grid_longitude in
  query_face_indices ← trimesh_closest_point mesh grid_positions;
  mesh_edge_indices ← np_take (faces mesh) query_face_indices;
  let grid_indices := np_arange (length grid_positions) in
  let grid_edge_indices := map (λ i, [i; i; i]) grid_indices in
  let mesh_edge_indices :=
    concat (map (λ '(a, b, c), [a; b; c]) mesh_edge_indices) in
  let grid_edge_indices := concat grid_edge_indices in
  mret (grid_edge_indices, mesh_edge_indices).

End PointLocation.

End SpatialIndex.

(** ** Traced computations

    The functions that call into the rotation engine, and the constructor
    of [GraphGridMesh], record which routines they invoke. A traced
    computation returns the list of invocations next to its result; an
    exception stops it and keeps the invocations made so far. *)

Inductive event :=
  | call_get_hierarchy
  | call_get_rotation_matrices (rotate_latitude rotate_longitude : bool)
  | call_radius_query_indices
  | call_in_mesh_triangle_indices
  | call_merge_meshes
  | call_faces_to_edges
  | call_get_graph_spatial_features
  | call_get_bipartite_graph_spatial_features.

Definition traced (A : Type) : Type := list event * result A.

#[global] Instance traced_ret : MRet traced := λ A a, ([], Ok a).
#[global] Instance traced_bind : MBind traced := λ A B f m,
  match m with
  | (t, Ok a) => let '(t', r) := f a in (t ++ t', r)
  | (t, Raise e) => (t, Raise e)
  end.

(** A computation that invokes nothing. *)
Definition pure_step {A} (r : result A) : traced A := ([], r).

(** The invocation [ev] of a routine with outcome [r]. *)
Definition invoke {A} (ev : event) (r : result A) : traced A := ([ev], r).

(** ** Element-wise array operations *)

(** A binary operation on two arrays broadcast along their first axis. *)
Definition np_map2 {A B C} (f : A → B → C) (a : list A) (b : list B)
  : result (list C) :=
  if bool_decide (length a = length b) then Ok (zip_with f a b)
  else match a, b with
       | [x], _ => Ok (map (f x) b)
       | _, [y] => Ok (map (λ x, f x y) a)
       | _, _ => Raise ValueError
       end.

(** [np.stack(columns, axis=-1)]: all columns must have the same length;
    an empty list of columns is rejected. *)
Fixpoint np_stack_last {A} (columns : list (list A)) : result (list (list A)) :=
  match columns with
  | [] => Raise ValueError
  | [c] => Ok (map (λ x, [x]) c)
  | c :: columns' =>
      rest ← np_stack_last columns';
      if bool_decide (length c = length rest) then Ok (zip_with cons c rest)
      else Raise ValueError
  end.

(** The reduction [a.max()]; an empty array is rejected. *)
Definition np_max {F : Type} `{FloatOps F} (a : list F) : result F :=
  match a with
  | [] => Raise ValueError
  | x :: a' => Ok (fold_left (λ m y, if (m <=? y)%fl then y else m) a' x)
  end.

Section Rotation.
Context {F : Type} `{FloatOps F}.

(** *** Coordinate conversions *)

Definition lat_lon_deg_to_spherical (node_lat node_lon : list F)
  : list F * list F :=
  let phi := map np_deg2rad node_lon in
  let theta := map (λ lat, np_deg2rad (f_of_Z 90 - lat)%fl) node_lat in
  (phi, theta).

Definition spherical_to_lat_lon (phi theta : list F) : list F * list F :=
  let lon := map (λ p, fmod (np_rad2deg p) (f_of_Z 360)) phi in
  let lat := map (λ t, (f_of_Z 90 - np_rad2deg t)%fl) theta in
  (lat, lon).

Definition cartesian_to_spherical (x y z : list F)
  : result (list F * list F) :=
  phi ← np_map2 farctan2 y x;
  let theta := map farccos z in
  mret (phi, theta).

Definition spherical_to_cartesian (phi theta : list F)
  : result (list F * list F * list F) :=
  x ← np_map2 (λ p t, (fcos p * fsin t)%fl) phi theta;
  y ← np_map2 (λ p t, (fsin p * fsin t)%fl) phi theta;
  mret (x, y, map fcos theta).

(** [np.stack((x, y, z), axis=-1)] as a list of rows. *)
Definition np_stack_xyz (c : list F * list F * list F)
  : result (list (vec3 F)) :=
  let '(x, y, z) := c in
  if bool_decide (length x = length y ∧ length y = length z)
  then Ok (zip_with (λ xy z, (xy.1, xy.2, z)) (zip x y) z)
  else Raise ValueError.

(** *** get_rotation_matrices_to_local_coordinates *)

(** [np.stack(angle_arrays, axis=1)]: one row of angles per reference. *)
Definition np_stack_angles (angle_arrays : list (list F))
  : result (list (list F)) := np_stack_last angle_arrays.

Definition get_rotation_matrices_to_local_coordinates
    (reference_phi reference_theta : list F)
    (rotate_latitude rotate_longitude : bool) : result (list (mat3 F)) :=
  if rotate_longitude && rotate_latitude then
    let azimuthal_rotation := map fneg reference_phi in
    let polar_rotation :=
      map (λ t, (- t + fpi / f_of_Z 2)%fl) reference_theta in
    angles ← np_stack_angles [azimuthal_rotation; polar_rotation];
    mret (map (from_euler [ax_z; ax_y]) angles)
  else if rotate_longitude then
    mret (map (λ a, from_euler [ax_z] [a]) (map fneg reference_phi))
  else if rotate_latitude then
    let azimuthal_rotation := map fneg reference_phi in
    let polar_rotation :=
      map (λ t, (- t + fpi / f_of_Z 2)%fl) reference_theta in
    angles ← np_stack_angles
                [azimuthal_rotation; polar_rotation;
                 map fneg azimuthal_rotation];
    mret (map (from_euler [ax_z; ax_y; ax_z]) angles)
  else Raise ValueError.

(** [np.einsum("bji,bi->bj", rotation_matrices, positions)] *)
Definition rotate_with_matrices
    (rotation_matrices : list (mat3 F)) (positions : list (vec3 F))
  : result (list (vec3 F)) :=
  np_map2 mat_vec rotation_matrices positions.

(** *** Relative positions in the receiver's local coordinates *)

Definition get_relative_position_in_receiver_local_coordinates
    (node_phi node_theta : list F) (senders receivers : list Z)
    (latitude_local_coordinates longitude_local_coordinates : bool)
  : traced (list (vec3 F)) :=
  node_pos ← pure_step (spherical_to_cartesian node_phi node_theta
                        ≫= np_stack_xyz);
  if negb (latitude_local_coordinates || longitude_local_coordinates) then
    pure_step (s ← np_take node_pos senders;
               r ← np_take node_pos receivers;
               np_map2 vsub s r)
  else
    rotation_matrices ←
      invoke (call_get_rotation_matrices latitude_local_coordinates
                longitude_local_coordinates)
        (get_rotation_matrices_to_local_coordinates node_phi node_theta
           latitude_local_coordinates longitude_local_coordinates);
    pure_step (
      edge_rotation_matrices ← np_take rotation_matrices receivers;
      receiver_pos ← np_take node_pos receivers;
      receiver_pos_in_rotated_space ←
        rotate_with_matrices edge_rotation_matrices receiver_pos;
      sender_pos ← np_take node_pos senders;
      sender_pos_in_in_rotated_space ←
        rotate_with_matrices edge_rotation_matrices sender_pos;
      np_map2 vsub sender_pos_in_in_rotated_space
        receiver_pos_in_rotated_space).

Definition get_bipartite_relative_position_in_receiver_local_coordinates
    (senders_node_phi senders_node_theta : list F) (senders : list Z)
    (receivers_node_phi receivers_node_theta : list F) (receivers : list Z)
    (latitude_local_coordinates longitude_local_coordinates : bool)
  : traced (list (vec3 F)) :=
  senders_node_pos ←
    pure_step (spherical_to_cartesian senders_node_phi senders_node_theta
               ≫= np_stack_xyz);
  receivers_node_pos ←
    pure_step (spherical_to_cartesian receivers_node_phi receivers_node_theta
               ≫= np_stack_xyz);
  if negb (latitude_local_coordinates || longitude_local_coordinates) then
    pure_step (s ← np_take senders_node_pos senders;
               r ← np_take receivers_node_pos receivers;
               np_map2 vsub s r)
  else
    receiver_rotation_matrices ←
      invoke (call_get_rotation_matrices latitude_local_coordinates
                longitude_local_coordinates)
        (get_rotation_matrices_to_local_coordinates
           receivers_node_phi receivers_node_theta
           latitude_local_coordinates longitude_local_coordinates);
    pure_step (
      edge_rotation_matrices ← np_take receiver_rotation_matrices receivers;
      receiver_pos ← np_take receivers_node_pos receivers;
      receiver_pos_in_rotated_space ←
        rotate_with_matrices edge_rotation_matrices receiver_pos;
      sender_pos ← np_take senders_node_pos senders;
      sender_pos_in_in_rotated_space ←
        rotate_with_matrices edge_rotation_matrices sender_pos;
      np_map2 vsub sender_pos_in_in_rotated_space
        receiver_pos_in_rotated_space).

End Rotation.

(** ** Spatial feature encoders *)

Section Features.
Context {F : Type} `{FloatOps F}.

(** The node feature columns selected by the three toggles. *)
Definition node_feature_columns
    (add_node_positions add_node_latitude add_node_longitude : bool)
    (node_phi node_theta : list F) : result (list (list F)) :=
  positions ←
    (if add_node_positions then
       '(x, y, z) ← spherical_to_cartesian node_phi node_theta;
       mret [x; y; z]
     else mret []);
  let latitude :=
    if add_node_latitude then [map fcos node_theta] else [] in
  let longitude :=
    if add_node_longitude then [map fcos node_phi; map fsin node_phi]
    else [] in
  mret (positions ++ latitude ++ longitude).

(** [np.zeros([n, 0])] *)
Definition np_zeros_width0 (n : nat) : list (list F) := repeat [] n.

(** One row of edge features: the relative distance, then the relative
    position, both divided by the normalization factor. *)
Definition normalized_edge_row (factor : F) (relative_position : vec3 F)
  : list F :=
  let '(x, y, z) := relative_position in
  [ (vnorm relative_position / factor)%fl;
    (x / factor)%fl; (y / factor)%fl; (z / factor)%fl ].

(** *** get_bipartite_graph_spatial_features

    Both node arrays share the one float type [F], so the assertion that
    the receivers have the senders' [dtype] holds by typing and leaves no
    trace in the embedding. *)
Definition get_bipartite_graph_spatial_features
    (senders_node_lat senders_node_lon : list F) (senders : list Z)
    (receivers_node_lat receivers_node_lon : list F) (receivers : list Z)
    (add_node_positions add_node_latitude add_node_longitude : bool)
    (add_relative_positions : bool)
    (edge_normalization_factor : option F)
    (relative_longitude_local_coordinates : bool)
    (relative_latitude_local_coordinates : bool)
  : traced (list (list F) * list (list F) * list (list F)) :=
  let num_senders := length senders_node_lat in
  let num_receivers := length receivers_node_lat in
  let num_edges := length senders in
  let '(senders_node_phi, senders_node_theta) :=
    lat_lon_deg_to_spherical senders_node_lat senders_node_lon in
  let '(receivers_node_phi, receivers_node_theta) :=
    lat_lon_deg_to_spherical receivers_node_lat receivers_node_lon in
  senders_columns ←
    pure_step (node_feature_columns add_node_positions add_node_latitude
                 add_node_longitude senders_node_phi senders_node_theta);
  receivers_columns ←
    pure_step (node_feature_columns add_node_positions add_node_latitude
                 add_node_longitude receivers_node_phi receivers_node_theta);
  '(senders_node_features, receivers_node_features) ←
    pure_step (
      match senders_columns with
      | [] => mret (np_zeros_width0 num_senders,
                    np_zeros_width0 num_receivers)
      | _ =>
          s ← np_stack_last senders_columns;
          r ← np_stack_last receivers_columns;
          mret (s, r)
      end);
  edge_features ←
    (if add_relative_positions then
       relative_position ←
         get_bipartite_relative_position_in_receiver_local_coordinates
           senders_node_phi senders_node_theta senders
           receivers_node_phi receivers_node_theta receivers
           relative_latitude_local_coordinates
           relative_longitude_local_coordinates;
       let relative_edge_distances := map vnorm relative_position in
       edge_normalization_factor ←
         pure_step (match edge_normalization_factor with
                    | None => np_max relative_edge_distances
                    | Some factor => Ok factor
                    end);
       mret (map (normalized_edge_row edge_normalization_factor)
               relative_position)
     else mret (np_zeros_width0 num_edges));
  mret (senders_node_features, receivers_node_features, edge_features).

(** *** get_graph_spatial_features *)

(** [factor ** np.arange(num_freqs)] *)
Definition encoding_freqs (factor : F) (num_freqs : Z) : list F :=
  map (λ k, Nat.iter k (fmul factor) (f_of_Z 1)) (seq 0 (Z.to_nat num_freqs)).

(** The rows of [x_cat] after the reshape: for every entry of a row of [x]
    its sines at all frequencies, then its cosines. *)
Definition sine_cosine_rows (factor : F) (num_freqs : Z)
    (x : list (list F)) : list (list F) :=
  let freqs := encoding_freqs factor num_freqs in
  map (λ row,
         flat_map (λ v, map (λ f, fsin (f * v)%fl) freqs
                        ++ map (λ f, fcos (f * v)%fl) freqs) row) x.

(** The closing [x_cat.reshape([x.shape[0], -1])] cannot infer the
    second dimension of an array without rows and raises [ValueError]. *)
Definition sine_cosine_transform (factor : F) (num_freqs : Z)
    (x : list (list F)) : result (list (list F)) :=
  match x with
  | [] => Raise ValueError
  | _ => Ok (sine_cosine_rows factor num_freqs x)
  end.

Definition get_graph_spatial_features
    (node_lat node_lon : list F) (senders receivers : list Z)
    (add_node_positions add_node_latitude add_node_longitude : bool)
    (add_relative_positions : bool)
    (relative_longitude_local_coordinates : bool)
    (relative_latitude_local_coordinates : bool)
    (sine_cosine_encoding : bool) (encoding_num_freqs : Z)
    (encoding_multiplicative_factor : F)
  : traced (list (list F) * list (list F)) :=
  let num_nodes := length node_lat in
  let num_edges := length senders in
  let '(node_phi, node_theta) := lat_lon_deg_to_spherical node_lat node_lon in
  columns ←
    pure_step (node_feature_columns add_node_positions add_node_latitude
                 add_node_longitude node_phi node_theta);
  node_features ←
    pure_step (match columns with
               | [] => mret (np_zeros_width0 num_nodes)
               | _ => np_stack_last columns
               end);
  edge_features ←
    (if add_relative_positions then
       relative_position ←
         get_relative_position_in_receiver_local_coordinates
           node_phi node_theta senders receivers
           relative_latitude_local_coordinates
           relative_longitude_local_coordinates;
       let relative_edge_distances := map vnorm relative_position in
       max_edge_distance ← pure_step (np_max relative_edge_distances);
       mret (map (normalized_edge_row max_edge_distance) relative_position)
     else mret (np_zeros_width0 num_edges));
  if sine_cosine_encoding then
    node_features ←
      pure_step (sine_cosine_transform encoding_multiplicative_factor
                   encoding_num_freqs node_features);
    edge_features ←
      pure_step (sine_cosine_transform encoding_multiplicative_factor
                   encoding_num_freqs edge_features);
    mret (node_features, edge_features)
  else mret (node_features, edge_features).

End Features.

(** ** GraphGridMesh *)

(** A traced computation entered through the routine [ev]. *)
Definition invoke_traced {A} (ev : event) (m : traced A) : traced A :=
  (ev :: m.1, m.2).

Section GraphGridMesh.
Context {F : Type} `{FloatOps F}.
Variable closest_point_triangle_id :
  TriangularMesh F → list (vec3 F) → result (list Z).

(** Values held by the attributes of the object and passed to its
    constructor. *)
Inductive pyval :=
  | PyNone
  | PyInt (z : Z)
  | PyFloat (x : F)
  | PyIntArray (a : list Z)
  | PyFloatArray (a : list F)
  | PyFeatureArray (a : list (list (list F)))
  | PyMeshes (ms : list (TriangularMesh F))
  | PyKwargs (add_node_positions add_node_latitude add_node_longitude
              add_relative_positions relative_longitude_local_coordinates
              relative_latitude_local_coordinates : bool).

Definition is_none (v : pyval) : bool :=
  match v with
  | PyNone => true
  | _ => false
  end.

Record GraphConfig := {
  mesh_size : Z;
  radius_query_fraction_edge_length : F;
  mesh2grid_edge_normalization_factor : option F;
  resolution : F;
}.

(** The sixteen optional arguments of the constructor. *)
Record InitArgs := {
  arg_mesh2mesh_src_index : pyval;
  arg_mesh2mesh_dst_index : pyval;
  arg_grid2mesh_src_index : pyval;
  arg_grid2mesh_dst_index : pyval;
  arg_mesh2grid_src_index : pyval;
  arg_mesh2grid_dst_index : pyval;
  arg_mesh_num_nodes : pyval;
  arg_grid_num_nodes : pyval;
  arg_mesh_num_edges : pyval;
  arg_grid2mesh_num_edges : pyval;
  arg_mesh2grid_num_edges : pyval;
  arg_grid_node_feat : pyval;
  arg_mesh_node_feat : pyval;
  arg_mesh_edge_feat : pyval;
  arg_grid2mesh_edge_feat : pyval;
  arg_mesh2grid_edge_feat : pyval;
}.

(** The object: its attribute dictionary. *)
Local Abbreviation object := (gmap string pyval).

Definition getattr (self : object) (name : string) : result pyval :=
  match self !! name with
  | Some v => Ok v
  | None => Raise AttributeError
  end.

Definition setattr (self : object) (name : string) (v : pyval) : object :=
  <[name := v]> self.

Definition get_meshes (self : object) : result (list (TriangularMesh F)) :=
  v ← getattr self "meshes";
  match v with
  | PyMeshes ms => Ok ms
  | _ => Raise TypeError
  end.

Definition get_float_array (self : object) (name : string)
  : result (list F) :=
  v ← getattr self name;
  match v with
  | PyFloatArray a => Ok a
  | _ => Raise TypeError
  end.

Definition get_float (self : object) (name : string) : result F :=
  v ← getattr self name;
  match v with
  | PyFloat x => Ok x
  | _ => Raise TypeError
  end.

Definition get_optional_float (self : object) (name : string)
  : result (option F) :=
  v ← getattr self name;
  match v with
  | PyFloat x => Ok (Some x)
  | PyNone => Ok None
  | _ => Raise TypeError
  end.

(** [assert self.name is not None] *)
Definition assert_not_none (self : object) (name : string) : result unit :=
  v ← getattr self name;
  py_assert (negb (is_none v)).

(** [np.expand_dims(a, axis=1)] *)
Definition np_expand_dims_1 (a : list (list F)) : list (list (list F)) :=
  map (λ row, [row]) a.

(** [np.arange(start, stop, step)] on floats. *)
Definition np_arange_float (start stop step : F) : list F :=
  map (λ i, (start + f_of_Z (Z.of_nat i) * step)%fl)
      (seq 0 (Z.to_nat (fceil ((stop - start) / step)%fl))).

(** [finest_mesh] *)
Definition finest_mesh (self : object) : result (TriangularMesh F) :=
  ms ← get_meshes self;
  np_getitem ms (-1).

(** [_get_max_edge_distance] *)
Definition _get_max_edge_distance (mesh : TriangularMesh F) : traced F :=
  '(senders, receivers) ←
    invoke call_faces_to_edges (Ok (faces_to_edges (faces mesh)));
  pure_step (
    s ← np_take (vertices mesh) senders;
    r ← np_take (vertices mesh) receivers;
    d ← np_map2 vsub s r;
    np_max (map vnorm d)).

(** [init_mesh_properties] *)
Definition init_mesh_properties (self : object) : result object :=
  mesh ← finest_mesh self;
  let self := setattr self "mesh_num_nodes"
                (PyInt (Z.of_nat (length (vertices mesh)))) in
  mesh ← finest_mesh self;
  '(mesh_phi, mesh_theta) ←
    cartesian_to_spherical
      (map (λ v : vec3 F, v.1.1) (vertices mesh))
      (map (λ v : vec3 F, v.1.2) (vertices mesh))
      (map (λ v : vec3 F, v.2) (vertices mesh));
  let '(mesh_nodes_lat, mesh_nodes_lon) :=
    spherical_to_lat_lon mesh_phi mesh_theta in
  let self := setattr self "_mesh_nodes_lat" (PyFloatArray mesh_nodes_lat) in
  let self := setattr self "_mesh_nodes_lon" (PyFloatArray mesh_nodes_lon) in
  mret self.

(** [_init_grid_properties] *)
Definition _init_grid_properties (self : object) (grid_lat grid_lon : list F)
  : object :=
  let self := setattr self "_grid_lat" (PyFloatArray grid_lat) in
  let self := setattr self "_grid_lon" (PyFloatArray grid_lon) in
  let self := setattr self "grid_num_nodes"
                (PyInt (Z.of_nat (length grid_lat) * Z.of_nat (length grid_lon))) in
  let grid_nodes_lon := concat (map (λ _, grid_lon) grid_lat) in
  let grid_nodes_lat :=
    concat (map (λ lat, map (λ _, lat) grid_lon) grid_lat) in
  let self := setattr self "_grid_nodes_lon" (PyFloatArray grid_nodes_lon) in
  let self := setattr self "_grid_nodes_lat" (PyFloatArray grid_nodes_lat) in
  self.

Definition get_kwargs (self : object)
  : result (bool * bool * bool * bool * bool * bool) :=
  v ← getattr self "_spatial_features_kwargs";
  match v with
  | PyKwargs a b c d e f => Ok (a, b, c, d, e, f)
  | _ => Raise TypeError
  end.

(** [_init_grid2mesh_graph] *)
Definition _init_grid2mesh_graph (self : object) : traced object :=
  _ ← pure_step (assert_not_none self "_grid_lat");
  _ ← pure_step (assert_not_none self "_grid_lon");
  grid_lat ← pure_step (get_float_array self "_grid_lat");
  grid_lon ← pure_step (get_float_array self "_grid_lon");
  mesh ← pure_step (finest_mesh self);
  radius ← pure_step (get_float self "query_radius");
  '(grid_indices, mesh_indices) ←
    invoke call_radius_query_indices
      (radius_query_indices grid_lat grid_lon mesh radius);
  let senders := grid_indices in
  let receivers := mesh_indices in
  grid_nodes_lat ← pure_step (get_float_array self "_grid_nodes_lat");
  grid_nodes_lon ← pure_step (get_float_array self "_grid_nodes_lon");
  mesh_nodes_lat ← pure_step (get_float_array self "_mesh_nodes_lat");
  mesh_nodes_lon ← pure_step (get_float_array self "_mesh_nodes_lon");
  '(add_pos, add_lat, add_lon, add_rel, lon_local, lat_local) ←
    pure_step (get_kwargs self);
  '(senders_node_features, _, edge_features) ←
    invoke_traced call_get_bipartite_graph_spatial_features
      (get_bipartite_graph_spatial_features
         grid_nodes_lat grid_nodes_lon senders
         mesh_nodes_lat mesh_nodes_lon receivers
         add_pos add_lat add_lon add_rel None lon_local lat_local);
  let self := setattr self "grid_node_feat"
                (PyFeatureArray (np_expand_dims_1 senders_node_features)) in
  let self := setattr self "grid2mesh_src_index" (PyIntArray senders) in
  let self := setattr self "grid2mesh_dst_index" (PyIntArray receivers) in
  let self := setattr self "grid2mesh_edge_feat"
                (PyFeatureArray (np_expand_dims_1 edge_features)) in
  let self := setattr self "grid2mesh_num_edges"
                (PyInt (Z.of_nat (length edge_features))) in
  mret self.

(** [_init_mesh_graph] *)
Definition _init_mesh_graph (self : object) : traced object :=
  meshes ← pure_step (get_meshes self);
  merged_mesh ← invoke call_merge_meshes (merge_meshes meshes);
  '(senders, receivers) ←
    invoke call_faces_to_edges (Ok (faces_to_edges (faces merged_mesh)));
  _ ← pure_step (assert_not_none self "_mesh_nodes_lat");
  _ ← pure_step (assert_not_none self "_mesh_nodes_lon");
  mesh_nodes_lat ← pure_step (get_float_array self "_mesh_nodes_lat");
  mesh_nodes_lon ← pure_step (get_float_array self "_mesh_nodes_lon");
  '(add_pos, add_lat, add_lon, add_rel, lon_local, lat_local) ←
    pure_step (get_kwargs self);
  '(node_features, edge_features) ←
    invoke_traced call_get_graph_spatial_features
      (get_graph_spatial_features mesh_nodes_lat mesh_nodes_lon
         senders receivers add_pos add_lat add_lon add_rel
         lon_local lat_local
         false 10 (f_of_Z 12 / f_of_Z 10)%fl);
  let self := setattr self "mesh_node_feat"
                (PyFeatureArray (np_expand_dims_1 node_features)) in
  let self := setattr self "mesh2mesh_src_index" (PyIntArray senders) in
  let self := setattr self "mesh2mesh_dst_index" (PyIntArray receivers) in
  let self := setattr self "mesh_edge_feat"
                (PyFeatureArray (np_expand_dims_1 edge_features)) in
  let self := setattr self "mesh_num_edges"
                (PyInt (Z.of_nat (length edge_features))) in
  mret self.

(** [_init_mesh2grid_graph] *)
Definition _init_mesh2grid_graph (self : object) : traced object :=
  grid_lat ← pure_step (get_float_array self "_grid_lat");
  grid_lon ← pure_step (get_float_array self "_grid_lon");
  mesh ← pure_step (finest_mesh self);
  '(grid_indices, mesh_indices) ←
    invoke call_in_mesh_triangle_indices
      (in_mesh_triangle_indices closest_point_triangle_id
         grid_lat grid_lon mesh);
  let senders := mesh_indices in
  let receivers := grid_indices in
  _ ← pure_step (assert_not_none self "_mesh_nodes_lat");
  _ ← pure_step (assert_not_none self "_mesh_nodes_lon");
  mesh_nodes_lat ← pure_step (get_float_array self "_mesh_nodes_lat");
  mesh_nodes_lon ← pure_step (get_float_array self "_mesh_nodes_lon");
  grid_nodes_lat ← pure_step (get_float_array self "_grid_nodes_lat");
  grid_nodes_lon ← pure_step (get_float_array self "_grid_nodes_lon");
  factor ← pure_step (get_optional_float self
                        "_mesh2grid_edge_normalization_factor");
  '(add_pos, add_lat, add_lon, add_rel, lon_local, lat_local) ←
    pure_step (get_kwargs self);
  '(_, _, edge_features) ←
    invoke_traced call_get_bipartite_graph_spatial_features
      (get_bipartite_graph_spatial_features
         mesh_nodes_lat mesh_nodes_lon senders
         grid_nodes_lat grid_nodes_lon receivers
         add_pos add_lat add_lon add_rel factor lon_local lat_local);
  let self := setattr self "mesh2grid_src_index" (PyIntArray senders) in
  let self := setattr self "mesh2grid_dst_index" (PyIntArray receivers) in
  let self := setattr self "mesh2grid_edge_feat"
                (PyFeatureArray (np_expand_dims_1 edge_features)) in
  let self := setattr self "mesh2grid_num_edges"
                (PyInt (Z.of_nat (length edge_features))) in
  mret self.

(** *** GraphGridMesh.__init__ *)

Definition all_input_vars (args : InitArgs) : list pyval :=
  [ arg_mesh2mesh_src_index args; arg_mesh2mesh_dst_index args;
    arg_grid2mesh_src_index args; arg_grid2mesh_dst_index args;
    arg_mesh2grid_src_index args; arg_mesh2grid_dst_index args;
    arg_mesh_num_nodes args; arg_grid_num_nodes args;
    arg_mesh_num_edges args; arg_grid2mesh_num_edges args;
    arg_mesh2grid_num_edges args;
    arg_grid_node_feat args; arg_mesh_node_feat args;
    arg_mesh_edge_feat args; arg_grid2mesh_edge_feat args;
    arg_mesh2grid_edge_feat args ].

(** The assignments of the branch that stores the arguments. *)
Definition store_arguments (self : object) (args : InitArgs) : object :=
  let self := setattr self "mesh2mesh_src_index" (arg_mesh2mesh_src_index args) in
  let self := setattr self "mesh2mesh_dst_index" (arg_mesh2mesh_dst_index args) in
  let self := setattr self "grid2mesh_src_index" (arg_grid2mesh_src_index args) in
  let self := setattr self "grid2mesh_dst_index" (arg_grid2mesh_dst_index args) in
  let self := setattr self "mesh2grid_src_index" (arg_mesh2grid_src_index args) in
  let self := setattr self "mesh2grid_dst_index" (arg_mesh2grid_dst_index args) in
  let self := setattr self "mesh_num_nodes" (arg_mesh_num_nodes args) in
  let self := setattr self "grid_num_nodes" (arg_grid_num_nodes args) in
  let self := setattr self "mesh_num_edges" (arg_mesh_num_edges args) in
  let self := setattr self "grid2mesh_num_edges" (arg_grid2mesh_num_edges args) in
  let self := setattr self "mesh2grid_num_edges" (arg_mesh2grid_num_edges args) in
  let self := setattr self "grid_node_feat" (arg_grid_node_feat args) in
  let self := setattr self "mesh_node_feat" (arg_mesh_node_feat args) in
  let self := setattr self "mesh_edge_feat" (arg_mesh_edge_feat args) in
  let self := setattr self "grid2mesh_edge_feat" (arg_grid2mesh_edge_feat args) in
  let self := setattr self "mesh2grid_edge_feat" (arg_mesh2grid_edge_feat args) in
  self.

(** The branch that builds the graphs. *)
Definition build_graphs (self : object) (config : GraphConfig)
  : traced object :=
  mesh ← pure_step (finest_mesh self);
  max_edge_distance ← _get_max_edge_distance mesh;
  let self := setattr self "query_radius"
                (PyFloat (max_edge_distance
                          * radius_query_fraction_edge_length config)%fl) in
  let self := setattr self "_mesh2grid_edge_normalization_factor"
                (match mesh2grid_edge_normalization_factor config with
                 | Some x => PyFloat x
                 | None => PyNone
                 end) in
  let self := setattr self "_spatial_features_kwargs"
                (PyKwargs false true true true true true) in
  self ← pure_step (init_mesh_properties self);
  let self :=
    _init_grid_properties self
      (np_arange_float (f_of_Z (-90)) (f_of_Z 90 + resolution config)%fl
         (resolution config))
      (np_arange_float (f_of_Z 0) (f_of_Z 360) (resolution config)) in
  self ← _init_grid2mesh_graph self;
  let self := setattr self "_grid2mesh_graph_structure" PyNone in
  self ← _init_mesh_graph self;
  let self := setattr self "_mesh_graph_structure" PyNone in
  self ← _init_mesh2grid_graph self;
  let self := setattr self "_mesh2grid_graph_structure" PyNone in
  mret self.

Definition GraphGridMesh_init (config : GraphConfig) (args : InitArgs)
  : traced object :=
  meshes ← invoke call_get_hierarchy
              (get_hierarchy_of_triangular_meshes_for_sphere
                 (mesh_size config));
  let self := setattr ∅ "meshes" (PyMeshes meshes) in
  let should_init := existsb is_none (all_input_vars args) in
  if should_init then build_graphs self config
  else mret (store_arguments self args).

End GraphGridMesh.

Arguments pyval : clear implicits.
Arguments InitArgs : clear implicits.
Arguments GraphConfig : clear implicits.

(** The object: its attribute dictionary. *)
Abbreviation object F := (gmap string (pyval F)).

(** ** Exact arithmetic: the instance over the real numbers *)

(** [np.arctan2(y, x)], the angle of the point [(x, y)] in [(-pi, pi]],
    with [arctan2(0, 0) = 0]. *)
Definition R_arctan2 (y x : R) : R :=
  if Rlt_dec 0 x then atan (y / x)
  else if Rlt_dec x 0 then
    (if Rle_dec 0 y then atan (y / x) + PI else atan (y / x) - PI)%R
  else if Rlt_dec 0 y then (PI / 2)%R
  else if Rlt_dec y 0 then (- PI / 2)%R
  else 0%R.

(** [np.mod(x, y)], the remainder with the sign of the divisor. *)
Definition R_mod (x y : R) : R := (x - IZR (Int_part (x / y)) * y)%R.

#[global] Instance R_ops : FloatOps R := {|
  f_of_Z := IZR;
  fadd := Rplus;
  fsub := Rminus;
  fmul := Rmult;
  fdiv := Rdiv;
  fneg := Ropp;
  fabs := Rabs;
  fsqrt := sqrt;
  fsin := sin;
  fcos := cos;
  farcsin := asin;
  farccos := acos;
  farctan2 := R_arctan2;
  fmod := R_mod;
  fpi := PI;
  fleb := λ x y, if Rle_dec x y then true else false;
  fceil := λ x, - Int_part (- x);
|}.

(** ** Erased floating point: the instance that keeps no numeric value

    It runs the index computations of the mesh code, which never look at a
    coordinate. *)
Definition erased_ops : FloatOps unit := {|
  f_of_Z := λ _, tt;
  fadd := λ _ _, tt;
  fsub := λ _ _, tt;
  fmul := λ _ _, tt;
  fdiv := λ _ _, tt;
  fneg := λ _, tt;
  fabs := λ _, tt;
  fsqrt := λ _, tt;
  fsin := λ _, tt;
  fcos := λ _, tt;
  farcsin := λ _, tt;
  farccos := λ _, tt;
  farctan2 := λ _ _, tt;
  fmod := λ _ _, tt;
  fpi := tt;
  fleb := λ _ _, true;
  fceil := λ _, 0;
|}.
(** * Specification vocabulary *)

(** An unordered edge is represented by its sorted pair of end points. *)
Definition unordered_edge (i j : Z) : Z * Z := (Z.min i j, Z.max i j).

Definition face_unordered_edges (f : face) : list (Z * Z) :=
  let '(a, b, c) := f in
  [unordered_edge a b; unordered_edge b c; unordered_edge c a].

(** The unique unordered edges of a face list. *)
Definition unique_edges (fs : list face) : gset (Z * Z) :=
  list_to_set (flat_map face_unordered_edges fs).

(** An index that numpy accepts for an axis of length [n]. *)
Definition valid_index (n : nat) (i : Z) : Prop :=
  - Z.of_nat n ≤ i < Z.of_nat n.

Definition face_valid (n : nat) (f : face) : Prop :=
  valid_index n f.1.1 ∧ valid_index n f.1.2 ∧ valid_index n f.2.

(** The four children of a face, given the table of midpoint indices. *)
Definition split_face_with (m : gmap (Z * Z) Z) (f : face) : list face :=
  let '(a, b, c) := f in
  let ab := m !!! unordered_edge a b in
  let bc := m !!! unordered_edge b c in
  let ca := m !!! unordered_edge c a in
  [ (a, ab, ca); (ab, b, bc); (ca, bc, c); (ab, bc, ca) ].

(** Consecutive elements of a list are related by [R]. *)
Definition consecutive {A} (R : A → A → Prop) (l : list A) : Prop :=
  ∀ k x y, l !! k = Some x → l !! S k = Some y → R x y.

Section MeshVocabulary.
Context {F : Type} `{FloatOps F}.

(** Invariant of the builder: the vertex list is the parent list followed by
    one new vertex per key of the index table, and every recorded index
    points into the vertex list. *)
Definition builder_inv (b : _ChildVerticesBuilder F) : Prop :=
  ∃ news : list (vec3 F),
    _all_vertices_list b = _parent_vertices b ++ news
    ∧ length news = size (_child_vertices_index_mapping b)
    ∧ map_Forall (λ _ v, 0 ≤ v < Z.of_nat (length (_all_vertices_list b)))
        (_child_vertices_index_mapping b).

(** One level of subdivision is related to the next by [split_step]. *)
Definition split_step (m m' : TriangularMesh F) : Prop :=
  length (faces m') = (4 * length (faces m))%nat
  ∧ (∃ table : gmap (Z * Z) Z,
        faces m' = np_int32_faces (flat_map (split_face_with table) (faces m)))
  ∧ ∃ news : list (vec3 F),
      vertices m' = vertices m ++ news
      ∧ length news = size (unique_edges (faces m)).

Definition mesh_wf (m : TriangularMesh F) : Prop :=
  Forall (face_valid (length (vertices m))) (faces m).

End MeshVocabulary.

(** ** Vocabulary for merging and edge extraction *)

(** The directed edges read off one face. *)
Definition face_directed_edges (f : face) : list (Z * Z) :=
  let '(i, j, k) := f in [(i, j); (j, k); (k, i)].

(** The edge list of [faces_to_edges], as sender/receiver pairs. *)
Definition edge_list (fs : list face) : list (Z * Z) :=
  zip (faces_to_edges fs).1 (faces_to_edges fs).2.

Definition reversal_closed (fs : list face) : Prop :=
  ∀ s r, (s, r) ∈ edge_list fs → (r, s) ∈ edge_list fs.

(** The check that [merge_meshes] asserts on two consecutive levels. *)
Definition nesting_check_passes {F : Type} `{FloatOps F}
    (mesh_i mesh_ip1 : TriangularMesh F) : Prop :=
  np_allclose (vertices mesh_i)
    (take (length (vertices mesh_i)) (vertices mesh_ip1)) = Ok true.

(** Two one-vertex levels whose vertices differ by [2^-20] in the first
    coordinate. *)
Definition coarse_level : TriangularMesh R :=
  {| vertices := [(1, 0, 0)%R]; faces := [(0, 0, 0)] |}.

Definition fine_level : TriangularMesh R :=
  {| vertices := [(1 + / 1048576, 0, 0)%R]; faces := [(0, 0, 0)] |}.

(** All directed edges of a face list, face by face. *)
Definition directed_edges (fs : list face) : list (Z * Z) :=
  flat_map face_directed_edges fs.

(** ** Vocabulary for the spatial index *)

(** What the caller relies on from the point-location routine: it answers
    with [ids], one triangle index per query point, each the index of a face
    of the mesh. *)
Definition closest_point_contract {F : Type}
    (closest : TriangularMesh F → list (vec3 F) → result (list Z))
    (mesh : TriangularMesh F) (points : list (vec3 F)) (ids : list Z) : Prop :=
  closest mesh points = Ok ids
  ∧ length ids = length points
  ∧ Forall (λ i, 0 ≤ i < Z.of_nat (length (faces mesh))) ids.

(** A point-location routine for the examples: always the first triangle. *)
Definition first_triangle {F : Type}
    (mesh : TriangularMesh F) (points : list (vec3 F)) : result (list Z) :=
  Ok (map (λ _, 0) points).

(** A mesh with a single face and a vertex at the north pole. *)
Definition polar_mesh : TriangularMesh R :=
  {| vertices := [(0, 0, 1)%R; (1, 0, 0)%R; (0, 1, 0)%R];
     faces := [(0, 1, 2)] |}.

(** The unit sphere, in exact arithmetic. *)
Definition on_unit_sphere (v : vec3 R) : Prop := vdot v v = 1%R.

(** Sender/receiver pairs of a radius query, one list of neighbours per
    enumerated grid point. *)
Definition neighbour_pairs (q : list (Z * list Z)) : list (Z * Z) :=
  flat_map (λ '(grid_index, mesh_neighbors), map (pair grid_index) mesh_neighbors) q.

(** ** Vocabulary for the rotation engine *)

(** The unit position with azimuth [p] and polar angle [t]. *)
Definition spherical_point {F : Type} `{FloatOps F} (p t : F) : vec3 F :=
  (fcos p * fsin t, fsin p * fsin t, fcos t)%fl.

(** The unit positions of a node set, [np.stack(spherical_to_cartesian(phi,
    theta), axis=-1)]. *)
Definition node_positions {F : Type} `{FloatOps F} (phi theta : list F)
  : result (list (vec3 F)) :=
  spherical_to_cartesian phi theta ≫= np_stack_xyz.

(** Where the rotation sends the reference point with azimuth [p] and polar
    angle [t] itself: to zero latitude and longitude with both flags, to
    zero latitude at its own longitude with the latitude flag only, to zero
    longitude at its own latitude with the longitude flag only. *)
Definition local_reference_point (rotate_latitude rotate_longitude : bool)
    (p t : R) : vec3 R :=
  if rotate_latitude
  then if rotate_longitude then (1, 0, 0)%R else (cos p, sin p, 0)%R
  else (sin t, 0, cos t)%R.

(** ** Vocabulary for the feature encoders *)

(** [m] is the maximum of the relative edge distances of [rel]. *)
Definition is_max_edge_distance (rel : list (vec3 R)) (m : R) : Prop :=
  m ∈ map vnorm rel ∧ ∀ r, r ∈ rel → (vnorm r <= m)%R.

(** The bounds promised for normalized edge features: some edge has
    relative-distance feature exactly 1, and every entry of every row lies
    in [-1, 1]. *)
Definition normalized_rows (rows : list (list R)) : Prop :=
  (∃ row, row ∈ rows ∧ row !! 0%nat = Some 1%R)
  ∧ ∀ row, row ∈ rows → Forall (λ v, -1 <= v <= 1)%R row.

(** The relative position of the north pole as seen from the south pole,
    both given by latitude and longitude in degrees. *)
Definition pole_to_pole : vec3 R :=
  vsub (spherical_point (np_deg2rad 0%R) (np_deg2rad (90 - 90)%R))
       (spherical_point (np_deg2rad 0%R) (np_deg2rad (90 - -90)%R)).

(** ** Vocabulary for the constructor of GraphGridMesh *)

(** The invocations made by a construction that runs the whole pipeline. *)
Definition full_pipeline_trace : list event :=
  [ call_get_hierarchy;
    call_faces_to_edges;
    call_radius_query_indices;
    call_get_bipartite_graph_spatial_features;
    call_get_rotation_matrices true true;
    call_merge_meshes;
    call_faces_to_edges;
    call_get_graph_spatial_features;
    call_get_rotation_matrices true true;
    call_in_mesh_triangle_indices;
    call_get_bipartite_graph_spatial_features;
    call_get_rotation_matrices true true ].

(** The invocations that are spatial queries or feature computations. *)
Definition is_pipeline_event (ev : event) : Prop :=
  ev ≠ call_get_hierarchy.

(** The sixteen public fields with the constructor arguments they take. *)
Definition stored_fields {F : Type} (args : InitArgs F)
  : list (string * pyval F) :=
  [ ("mesh2mesh_src_index", arg_mesh2mesh_src_index args);
    ("mesh2mesh_dst_index", arg_mesh2mesh_dst_index args);
    ("grid2mesh_src_index", arg_grid2mesh_src_index args);
    ("grid2mesh_dst_index", arg_grid2mesh_dst_index args);
    ("mesh2grid_src_index", arg_mesh2grid_src_index args);
    ("mesh2grid_dst_index", arg_mesh2grid_dst_index args);
    ("mesh_num_nodes", arg_mesh_num_nodes args);
    ("grid_num_nodes", arg_grid_num_nodes args);
    ("mesh_num_edges", arg_mesh_num_edges args);
    ("grid2mesh_num_edges", arg_grid2mesh_num_edges args);
    ("mesh2grid_num_edges", arg_mesh2grid_num_edges args);
    ("grid_node_feat", arg_grid_node_feat args);
    ("mesh_node_feat", arg_mesh_node_feat args);
    ("mesh_edge_feat", arg_mesh_edge_feat args);
    ("grid2mesh_edge_feat", arg_grid2mesh_edge_feat args);
    ("mesh2grid_edge_feat", arg_mesh2grid_edge_feat args) ].

(** Constructor arguments for the examples: every argument provided. *)
Definition provided_args : InitArgs R :=
  {| arg_mesh2mesh_src_index := PyIntArray [0];
     arg_mesh2mesh_dst_index := PyIntArray [1];
     arg_grid2mesh_src_index := PyIntArray [0];
     arg_grid2mesh_dst_index := PyIntArray [0];
     arg_mesh2grid_src_index := PyIntArray [0];
     arg_mesh2grid_dst_index := PyIntArray [0];
     arg_mesh_num_nodes := PyInt 12;
     arg_grid_num_nodes := PyInt 1;
     arg_mesh_num_edges := PyInt 1;
     arg_grid2mesh_num_edges := PyInt 1;
     arg_mesh2grid_num_edges := PyInt 1;
     arg_grid_node_feat := PyFeatureArray [[[0%R]]];
     arg_mesh_node_feat := PyFeatureArray [[[0%R]]];
     arg_mesh_edge_feat := PyFeatureArray [[[0%R]]];
     arg_grid2mesh_edge_feat := PyFeatureArray [[[0%R]]];
     arg_mesh2grid_edge_feat := PyFeatureArray [[[0%R]]] |}.

Definition example_config : GraphConfig R :=
  {| mesh_size := 0;
     radius_query_fraction_edge_length := (6 / 10)%R;
     mesh2grid_edge_normalization_factor := None;
     resolution := 1%R |}.

(** The latitudes of the grid that the constructor builds,
    [np.arange(-90.0, 90.0 + config.resolution, config.resolution)]. *)
Definition grid_latitudes {F : Type} `{FloatOps F} (config : GraphConfig F)
  : list F :=
  np_arange_float (f_of_Z (-90)) (f_of_Z 90 + resolution config)%fl
    (resolution config).

(** Constructor arguments for the examples: no argument provided. *)
Definition no_args {F : Type} : InitArgs F :=
  {| arg_mesh2mesh_src_index := PyNone;
     arg_mesh2mesh_dst_index := PyNone;
     arg_grid2mesh_src_index := PyNone;
     arg_grid2mesh_dst_index := PyNone;
     arg_mesh2grid_src_index := PyNone;
     arg_mesh2grid_dst_index := PyNone;
     arg_mesh_num_nodes := PyNone;
     arg_grid_num_nodes := PyNone;
     arg_mesh_num_edges := PyNone;
     arg_grid2mesh_num_edges := PyNone;
     arg_mesh2grid_num_edges := PyNone;
     arg_grid_node_feat := PyNone;
     arg_mesh_node_feat := PyNone;
     arg_mesh_edge_feat := PyNone;
     arg_grid2mesh_edge_feat := PyNone;
     arg_mesh2grid_edge_feat := PyNone |}.

(** A configuration whose resolution is negative, so that [np.arange]
    yields no latitude and no longitude. *)
Definition negative_resolution_config : GraphConfig R :=
  {| mesh_size := 0;
     radius_query_fraction_edge_length := (6 / 10)%R;
     mesh2grid_edge_normalization_factor := None;
     resolution := (-1)%R |}.

(** Erased floating point in which every [np.arange] of the constructor has
    two entries: it runs the control flow of a construction on a grid of
    two latitudes and two longitudes. *)
Definition two_step_ops : FloatOps unit := {|
  f_of_Z := λ _, tt;
  fadd := λ _ _, tt;
  fsub := λ _ _, tt;
  fmul := λ _ _, tt;
  fdiv := λ _ _, tt;
  fneg := λ _, tt;
  fabs := λ _, tt;
  fsqrt := λ _, tt;
  fsin := λ _, tt;
  fcos := λ _, tt;
  farcsin := λ _, tt;
  farccos := λ _, tt;
  farctan2 := λ _ _, tt;
  fmod := λ _ _, tt;
  fpi := tt;
  fleb := λ _ _, true;
  fceil := λ _, 2;
|}.

Definition erased_config : GraphConfig unit :=
  {| mesh_size := 0;
     radius_query_fraction_edge_length := tt;
     mesh2grid_edge_normalization_factor := None;
     resolution := tt |}.

(** The object carries the keyword arguments fixed by the constructor. *)
Definition has_constructor_kwargs {F : Type} (self : object F) : Prop :=
  getattr self "_spatial_features_kwargs"
  = Ok (PyKwargs false true true true true true).

(** Vertex and face counts of the levels of a hierarchy. *)
Definition level_sizes {F : Type} (r : result (list (TriangularMesh F)))
  : option (list (nat * nat)) :=
  match r with
  | Ok ms => Some (map (λ m, (length (vertices m), length (faces m))) ms)
  | Raise _ => None
  end.

(** The faces of one level of a hierarchy. *)
Definition level_faces {F : Type} (r : result (list (TriangularMesh F)))
    (k : nat) : option (list face) :=
  match r with
  | Ok ms => faces <$> ms !! k
  | Raise _ => None
  end.

(** ** Vocabulary for the further properties *)

(** The keys of the index table of a builder name rows of the parent
    vertex array. *)
Definition keys_valid {F : Type} (b : _ChildVerticesBuilder F) : Prop :=
  ∀ key, key ∈ dom (_child_vertices_index_mapping b) →
         valid_index (length (_parent_vertices b)) key.1
         ∧ valid_index (length (_parent_vertices b)) key.2.

(** Builders for the examples, over the erased floating point: two parent
    vertices, before and after the child of the edge between them exists. *)
Definition two_parent_builder : _ChildVerticesBuilder unit :=
  new_builder [(tt, tt, tt); (tt, tt, tt)].

Definition two_parent_builder_with_child : _ChildVerticesBuilder unit :=
  {| _child_vertices_index_mapping := {[ (0, 1) := 2 ]};
     _parent_vertices := [(tt, tt, tt); (tt, tt, tt)];
     _all_vertices_list := [(tt, tt, tt); (tt, tt, tt); (tt, tt, tt)] |}.

(** The three coordinate columns of a vertex array, [vertices[:, 0]],
    [vertices[:, 1]] and [vertices[:, 2]]. *)
Definition column_x {F : Type} (vs : list (vec3 F)) : list F :=
  map (λ v : vec3 F, v.1.1) vs.
Definition column_y {F : Type} (vs : list (vec3 F)) : list F :=
  map (λ v : vec3 F, v.1.2) vs.
Definition column_z {F : Type} (vs : list (vec3 F)) : list F :=
  map (λ v : vec3 F, v.2) vs.

(** An object that holds a one-level hierarchy made of [polar_mesh]. *)
Definition polar_object : object R :=
  setattr ∅ "meshes" (PyMeshes [polar_mesh]).

(** A matrix that preserves the scalar product, hence lengths and
    distances. *)
Definition preserves_dot (M : mat3 R) : Prop :=
  ∀ u v, vdot (mat_vec M u) (mat_vec M v) = vdot u v.

(** Every index of [idx] is accepted for an axis of length [n]. *)
Definition valid_indices (n : nat) (idx : list Z) : Prop :=
  Forall (valid_index n) idx.
(** * Properties of the mesh hierarchy *)

Lemma consecutive_cons {A} (R : A → A → Prop) x y l :
  R x y → consecutive R (y :: l) → consecutive R (x :: y :: l).
Proof.
  intros Hxy Hl [|k] a b Ha Hb; simpl in *.
  - congruence.
  - eapply Hl; eauto.
Qed.

Lemma consecutive_singleton {A} (R : A → A → Prop) x : consecutive R [x].
Proof. intros [|k] a b Ha Hb; simpl in *; discriminate. Qed.

Lemma get_child_vertex_key_unordered i j :
  _get_child_vertex_key (i, j) = unordered_edge i j.
Proof.
  unfold _get_child_vertex_key, unordered_edge.
  destruct (Z.ltb_spec j i); f_equal; lia.
Qed.

Lemma unordered_edge_sym i j : unordered_edge i j = unordered_edge j i.
Proof. unfold unordered_edge. f_equal; lia. Qed.

Lemma valid_index_mono n n' i :
  (n ≤ n')%nat → valid_index n i → valid_index n' i.
Proof. unfold valid_index. lia. Qed.

Lemma to_int32_range z : - 2 ^ 31 ≤ to_int32 z < 2 ^ 31.
Proof.
  unfold to_int32.
  pose proof (Z.mod_pos_bound (z + 2 ^ 31) (2 ^ 32) ltac:(lia)). lia.
Qed.

Lemma to_int32_id z : - 2 ^ 31 ≤ z < 2 ^ 31 → to_int32 z = z.
Proof. intros Hz. unfold to_int32. rewrite Z.mod_small; lia. Qed.

(** Index validity survives the conversion to 32-bit storage: either the
    index fits and is unchanged, or the axis is longer than [2^31] and every
    32-bit value is a valid index. *)
Lemma valid_index_to_int32 n i :
  valid_index n i → valid_index n (to_int32 i).
Proof.
  intros Hv.
  destruct (decide (- 2 ^ 31 ≤ i < 2 ^ 31)) as [Hr|Hr].
  - by rewrite to_int32_id.
  - pose proof (to_int32_range i). unfold valid_index in *. lia.
Qed.

Lemma np_getitem_valid {A} (a : list A) i :
  valid_index (length a) i → ∃ x, np_getitem a i = Ok x.
Proof.
  intros Hv. unfold np_getitem, np_norm_index, valid_index in *.
  repeat case_bool_decide; try lia; simpl.
  - destruct (lookup_lt_is_Some_2 a (Z.to_nat i)) as [x Hx]; [lia|].
    rewrite Hx. eauto.
  - destruct (lookup_lt_is_Some_2 a (Z.to_nat (Z.of_nat (length a) + i)))
      as [x Hx]; [lia|].
    rewrite Hx. eauto.
Qed.

Lemma np_int32_faces_length fs : length (np_int32_faces fs) = length fs.
Proof. unfold np_int32_faces. by rewrite length_map. Qed.

Lemma np_int32_faces_valid n fs :
  Forall (face_valid n) fs → Forall (face_valid n) (np_int32_faces fs).
Proof.
  unfold np_int32_faces. rewrite Forall_map. intros Hfs.
  eapply Forall_impl; [exact Hfs|].
  intros [[a b] c] (Ha & Hb & Hc); simpl in *.
  repeat split; simpl; by apply valid_index_to_int32.
Qed.

Section HierarchyProofs.
Context {F : Type} `{FloatOps F}.

Lemma new_builder_inv (parent : list (vec3 F)) : builder_inv (new_builder parent).
Proof.
  exists []. simpl. rewrite app_nil_r, map_size_empty.
  split; [done|]. split; [done|]. apply map_Forall_empty.
Qed.

Lemma np_take_pair (a : list (vec3 F)) i j :
  valid_index (length a) i → valid_index (length a) j →
  ∃ r1 r2, np_take a [i; j] = Ok [r1; r2].
Proof.
  intros Hi Hj.
  destruct (np_getitem_valid a i Hi) as [r1 H1].
  destruct (np_getitem_valid a j Hj) as [r2 H2].
  exists r1, r2. simpl. rewrite H1. simpl. rewrite H2. reflexivity.
Qed.

Lemma get_new_child_vertex_index_spec (b : _ChildVerticesBuilder F) i j :
  builder_inv b →
  valid_index (length (_parent_vertices b)) i →
  valid_index (length (_parent_vertices b)) j →
  ∃ k b',
    get_new_child_vertex_index b (i, j) = Ok (k, b')
    ∧ builder_inv b'
    ∧ _parent_vertices b' = _parent_vertices b
    ∧ _child_vertices_index_mapping b ⊆ _child_vertices_index_mapping b'
    ∧ _child_vertices_index_mapping b' !! unordered_edge i j = Some k
    ∧ dom (_child_vertices_index_mapping b')
      = {[unordered_edge i j]} ∪ dom (_child_vertices_index_mapping b)
    ∧ ∃ ext, _all_vertices_list b' = _all_vertices_list b ++ ext.
Proof.
  intros (news & Hall & Hlen & Hrange) Hi Hj.
  unfold get_new_child_vertex_index.
  rewrite get_child_vertex_key_unordered.
  set (key := unordered_edge i j).
  case_bool_decide as Hdom.
  - apply elem_of_dom in Hdom as [k Hk]. simpl. rewrite Hk.
    exists k, b. split_and!; try done.
    + by exists news.
    + apply elem_of_dom_2 in Hk. set_solver.
    + exists []. by rewrite app_nil_r.
  - apply not_elem_of_dom in Hdom.
    unfold _create_child_vertex. simpl.
    destruct (np_take_pair (_parent_vertices b) i j Hi Hj) as (r1 & r2 & Hrows).
    simpl in Hrows. rewrite Hrows. simpl.
    rewrite get_child_vertex_key_unordered. fold key.
    rewrite lookup_insert_eq.
    eexists _, _. split; [reflexivity|]. simpl.
    split_and!.
    + exists (news ++ [child_vertex_position r1 r2]). simpl.
      rewrite Hall at 1. rewrite <- app_assoc.
      split_and!; [done| |].
      * rewrite length_app, Hlen, map_size_insert_None by done. simpl. lia.
      * apply map_Forall_insert_2.
        -- rewrite length_app. simpl. lia.
        -- eapply map_Forall_impl; [exact Hrange|].
           intros ? v Hv. simpl in *. rewrite length_app. simpl. lia.
    + done.
    + by apply insert_subseteq.
    + by rewrite lookup_insert_eq.
    + by rewrite dom_insert_L.
    + eauto.
Qed.

Lemma split_faces_spec fs : ∀ b : _ChildVerticesBuilder F,
  builder_inv b →
  Forall (face_valid (length (_parent_vertices b))) fs →
  ∃ b' new_faces,
    split_faces b fs = Ok (b', new_faces)
    ∧ builder_inv b'
    ∧ _parent_vertices b' = _parent_vertices b
    ∧ _child_vertices_index_mapping b ⊆ _child_vertices_index_mapping b'
    ∧ dom (_child_vertices_index_mapping b')
      = unique_edges fs ∪ dom (_child_vertices_index_mapping b)
    ∧ (∃ ext, _all_vertices_list b' = _all_vertices_list b ++ ext)
    ∧ new_faces = flat_map (split_face_with (_child_vertices_index_mapping b')) fs.
Proof.
  induction fs as [|[[a b0] c] fs IH]; intros b Hinv Hvalid.
  - exists b, []. simpl. split_and!; try done.
    + unfold unique_edges. simpl. set_solver.
    + exists []. by rewrite app_nil_r.
  - apply Forall_cons in Hvalid as [(Ha & Hb & Hc) Hvalid]. simpl in Ha, Hb, Hc.
    destruct (get_new_child_vertex_index_spec b a b0 Hinv Ha Hb)
      as (i12 & b1 & E1 & Hinv1 & Hp1 & Hsub1 & Hk1 & Hdom1 & ext1 & Hext1).
    rewrite <- Hp1 in Ha, Hb, Hc, Hvalid.
    destruct (get_new_child_vertex_index_spec b1 b0 c Hinv1 Hb Hc)
      as (i23 & b2 & E2 & Hinv2 & Hp2 & Hsub2 & Hk2 & Hdom2 & ext2 & Hext2).
    rewrite <- Hp2 in Ha, Hb, Hc, Hvalid.
    destruct (get_new_child_vertex_index_spec b2 c a Hinv2 Hc Ha)
      as (i31 & b3 & E3 & Hinv3 & Hp3 & Hsub3 & Hk3 & Hdom3 & ext3 & Hext3).
    rewrite <- Hp3 in Hvalid.
    destruct (IH b3 Hinv3 Hvalid)
      as (b' & nf & E & Hinv' & Hp' & Hsub' & Hdom' & (ext & Hext) & Hnf).
    exists b', ([ (a, i12, i31); (i12, b0, i23); (i31, i23, c); (i12, i23, i31) ]
                ++ nf).
    simpl. rewrite E1. simpl. rewrite E2. simpl. rewrite E3. simpl.
    rewrite E. simpl.
    split_and!.
    + done.
    + done.
    + congruence.
    + by repeat (etrans; [eassumption|]).
    + rewrite Hdom', Hdom3, Hdom2, Hdom1. unfold unique_edges. simpl.
      set_solver.
    + exists (ext1 ++ ext2 ++ ext3 ++ ext).
      rewrite Hext, Hext3, Hext2, Hext1. by rewrite <- !app_assoc.
    + assert (Hl1 : _child_vertices_index_mapping b' !!! unordered_edge a b0 = i12).
      { apply lookup_total_correct.
        eapply lookup_weaken; [exact Hk1|]. by repeat (etrans; [eassumption|]). }
      assert (Hl2 : _child_vertices_index_mapping b' !!! unordered_edge b0 c = i23).
      { apply lookup_total_correct.
        eapply lookup_weaken; [exact Hk2|]. by repeat (etrans; [eassumption|]). }
      assert (Hl3 : _child_vertices_index_mapping b' !!! unordered_edge c a = i31).
      { apply lookup_total_correct.
        eapply lookup_weaken; [exact Hk3|]. by repeat (etrans; [eassumption|]). }
      rewrite Hl1, Hl2, Hl3, Hnf. reflexivity.
Qed.

Lemma split_face_with_length table fs :
  length (flat_map (split_face_with table) fs) = (4 * length fs)%nat.
Proof.
  induction fs as [|[[a b] c] fs IH]; simpl in *; [done|]. rewrite IH. lia.
Qed.

Lemma two_split_spec (m : TriangularMesh F) :
  mesh_wf m →
  ∃ m', _two_split_unit_sphere_triangle_faces m = Ok m'
        ∧ mesh_wf m' ∧ split_step m m'.
Proof.
  intros Hwf. unfold _two_split_unit_sphere_triangle_faces.
  destruct (split_faces_spec (faces m) (new_builder (vertices m))
              (new_builder_inv _) Hwf)
    as (b' & nf & E & (news & Hall & Hlen & Hrange) & Hp & _ & Hdom & _ & Hnf).
  rewrite E. simpl. eexists. split; [reflexivity|].
  simpl in Hp, Hdom. rewrite Hp in Hall.
  rewrite dom_empty_L, union_empty_r_L in Hdom.
  assert (Hvalid : Forall (face_valid (length (_all_vertices_list b'))) nf).
  { subst nf. apply Forall_flat_map, Forall_forall.
    intros [[a b] c] Hin.
    destruct (proj1 (Forall_forall _ _) Hwf _ Hin) as (Ha & Hb & Hc).
    simpl in Ha, Hb, Hc.
    assert (Hold : ∀ i, valid_index (length (vertices m)) i →
                        valid_index (length (_all_vertices_list b')) i).
    { intros i. apply valid_index_mono. rewrite Hall, length_app. lia. }
    assert (Hnew : ∀ k, k ∈ face_unordered_edges (a, b, c) →
      valid_index (length (_all_vertices_list b'))
        (_child_vertices_index_mapping b' !!! k)).
    { intros k Hk.
      assert (Hd : k ∈ dom (_child_vertices_index_mapping b')).
      { rewrite Hdom. unfold unique_edges.
        apply elem_of_list_to_set, list_elem_of_In, in_flat_map.
        exists (a, b, c). split; by apply list_elem_of_In. }
      apply elem_of_dom in Hd as [v Hv].
      rewrite (lookup_total_correct _ _ _ Hv).
      specialize (Hrange _ _ Hv). unfold valid_index. simpl in Hrange. lia. }
    pose proof (Hnew (unordered_edge a b) ltac:(set_solver)).
    pose proof (Hnew (unordered_edge b c) ltac:(set_solver)).
    pose proof (Hnew (unordered_edge c a) ltac:(set_solver)).
    unfold split_face_with.
    repeat (apply Forall_cons_2;
            [unfold face_valid; simpl; split_and!; auto|]).
    apply Forall_nil_2. }
  split; [|unfold split_step; split_and!].
  - unfold mesh_wf, get_all_vertices. simpl. by apply np_int32_faces_valid.
  - simpl. rewrite np_int32_faces_length, Hnf. apply split_face_with_length.
  - exists (_child_vertices_index_mapping b'). simpl. by rewrite Hnf.
  - exists news. simpl. unfold get_all_vertices. split; [done|].
    rewrite Hlen, <- Hdom. by rewrite size_dom.
Qed.

Lemma hierarchy_loop_spec n : ∀ m : TriangularMesh F,
  mesh_wf m →
  ∃ rest, hierarchy_loop n m = Ok rest
          ∧ length rest = n
          ∧ consecutive split_step (m :: rest).
Proof.
  induction n as [|n IH]; intros m Hwf; simpl.
  - exists []. split_and!; [done|done|]. apply consecutive_singleton.
  - destruct (two_split_spec m Hwf) as (m' & E & Hwf' & Hstep).
    destruct (IH m' Hwf') as (rest & E' & Hlen & Hcons).
    rewrite E. simpl. rewrite E'. simpl.
    exists (m' :: rest). split_and!; [done|simpl; lia|].
    by apply consecutive_cons.
Qed.

Lemma get_icosahedron_vertices_length :
  length (vertices (get_icosahedron (F:=F))) = 12%nat.
Proof. reflexivity. Qed.

Lemma get_icosahedron_faces :
  faces (get_icosahedron (F:=F)) = icosahedron_faces.
Proof. reflexivity. Qed.

Lemma get_icosahedron_wf : mesh_wf (get_icosahedron (F:=F)).
Proof.
  unfold mesh_wf.
  rewrite get_icosahedron_vertices_length, get_icosahedron_faces.
  unfold icosahedron_faces, face_valid, valid_index.
  repeat (apply Forall_cons_2; [simpl; lia|]). apply Forall_nil_2.
Qed.

Lemma hierarchy_spec (splits : Z) :
  ∃ rest,
    get_hierarchy_of_triangular_meshes_for_sphere (F:=F) splits
    = Ok (get_icosahedron :: rest)
    ∧ length rest = Z.to_nat splits
    ∧ consecutive split_step (get_icosahedron :: rest).
Proof.
  unfold get_hierarchy_of_triangular_meshes_for_sphere.
  destruct (hierarchy_loop_spec (Z.to_nat splits) _ get_icosahedron_wf)
    as (rest & E & Hlen & Hcons).
  rewrite E. simpl. by exists rest.
Qed.

Lemma consecutive_faces_count (ms : list (TriangularMesh F)) m0 :
  consecutive split_step ms →
  ms !! 0%nat = Some m0 →
  ∀ k m, ms !! k = Some m →
         length (faces m) = (length (faces m0) * 4 ^ k)%nat.
Proof.
  intros Hcons H0 k. induction k as [|k IH]; intros m Hk.
  - rewrite H0 in Hk. injection Hk as <-. simpl. lia.
  - destruct (lookup_lt_is_Some_2 ms k) as [mk Hmk].
    { apply lookup_lt_Some in Hk. lia. }
    destruct (Hcons k mk m Hmk Hk) as (Hf & _).
    rewrite Hf, (IH mk Hmk). rewrite Nat.pow_succ_r'. lia.
Qed.

Lemma consecutive_vertices_prefix (ms : list (TriangularMesh F)) :
  consecutive split_step ms →
  ∀ i j mi mj, (i ≤ j)%nat → ms !! i = Some mi → ms !! j = Some mj →
               ∃ ext, vertices mj = vertices mi ++ ext.
Proof.
  intros Hcons i j. induction j as [|j IH]; intros mi mj Hij Hi Hj.
  - assert (i = 0%nat) as -> by lia. rewrite Hi in Hj. injection Hj as <-.
    exists []. by rewrite app_nil_r.
  - destruct (decide (i = S j)) as [->|Hne].
    + rewrite Hi in Hj. injection Hj as <-. exists []. by rewrite app_nil_r.
    + destruct (lookup_lt_is_Some_2 ms j) as [mk Hmk].
      { apply lookup_lt_Some in Hj. lia. }
      destruct (IH mi mk ltac:(lia) Hi Hmk) as [ext Hext].
      destruct (Hcons j mk mj Hmk Hj) as (_ & _ & news & Hnews & _).
      exists (ext ++ news). by rewrite Hnews, Hext, <- app_assoc.
Qed.

End HierarchyProofs.

(** ** Running the index computations *)

Example hierarchy_level_sizes :
  level_sizes (get_hierarchy_of_triangular_meshes_for_sphere
                 (H:=erased_ops) 3)
  = Some [(12, 20); (42, 80); (162, 320); (642, 1280)]%nat.
Proof. vm_compute. reflexivity. Qed.

Example hierarchy_negative_depth :
  level_sizes (get_hierarchy_of_triangular_meshes_for_sphere
                 (H:=erased_ops) (-2))
  = Some [(12, 20)]%nat.
Proof. vm_compute. reflexivity. Qed.

Example first_split_of_first_face :
  take 4 <$> level_faces (get_hierarchy_of_triangular_meshes_for_sphere
                            (H:=erased_ops) 1) 1
  = Some [(0, 12, 14); (12, 1, 13); (14, 13, 2); (12, 13, 14)].
Proof. vm_compute. reflexivity. Qed.

Example to_int32_wraps : to_int32 (2 ^ 31) = - 2 ^ 31.
Proof. reflexivity. Qed.

Example faces_to_edges_triangle :
  faces_to_edges [(0, 1, 2); (2, 1, 3)] = ([0; 2; 1; 1; 2; 3], [1; 1; 2; 3; 0; 2]).
Proof. reflexivity. Qed.

(** ** The hierarchy: sizes and nesting *)

(** C1: for every subdivision depth [d >= 0] the hierarchy is returned and
    has [d + 1] meshes; the mesh of level [k] has exactly [20 * 4^k] faces;
    the base level has exactly 12 vertices; and every level keeps the
    vertices of the previous level unchanged and appends exactly one new
    vertex per unique unordered edge of the previous level. *)
Theorem hierarchy_sizes {F : Type} `{FloatOps F} (d : Z) :
  0 ≤ d →
  ∃ ms : list (TriangularMesh F),
    get_hierarchy_of_triangular_meshes_for_sphere d = Ok ms
    ∧ Z.of_nat (length ms) = d + 1
    ∧ (∀ k m, ms !! k = Some m → length (faces m) = (20 * 4 ^ k)%nat)
    ∧ (∃ m0, ms !! 0%nat = Some m0 ∧ length (vertices m0) = 12%nat)
    ∧ (∀ k m m', ms !! k = Some m → ms !! S k = Some m' →
         ∃ news, vertices m' = vertices m ++ news
                 ∧ length news = size (unique_edges (faces m))).
Proof.
  intros Hd.
  destruct (hierarchy_spec (F:=F) d) as (rest & E & Hlen & Hcons).
  exists (get_icosahedron :: rest). split_and!.
  - done.
  - simpl. lia.
  - intros k m Hk.
    by rewrite (consecutive_faces_count _ get_icosahedron Hcons eq_refl k m Hk).
  - by exists get_icosahedron.
  - intros k m m' Hk Hk'.
    destruct (Hcons k m m' Hk Hk') as (_ & _ & Hnews). exact Hnews.
Qed.

Lemma hierarchy_sizes_witness :
  0 ≤ 2 ∧
  ∃ ms : list (TriangularMesh R),
    get_hierarchy_of_triangular_meshes_for_sphere 2 = Ok ms
    ∧ Z.of_nat (length ms) = 2 + 1
    ∧ (∀ k m, ms !! k = Some m → length (faces m) = (20 * 4 ^ k)%nat)
    ∧ (∃ m0, ms !! 0%nat = Some m0 ∧ length (vertices m0) = 12%nat)
    ∧ (∀ k m m', ms !! k = Some m → ms !! S k = Some m' →
         ∃ news, vertices m' = vertices m ++ news
                 ∧ length news = size (unique_edges (faces m))).
Proof. split; [lia | apply (hierarchy_sizes 2); lia]. Defined.

(** C2: in every hierarchy produced by
    [get_hierarchy_of_triangular_meshes_for_sphere], for all levels
    [i < j] the vertex array of level [i] is the first
    [len(vertices[i])] rows of the vertex array of level [j]. *)
Theorem hierarchy_vertices_nested {F : Type} `{FloatOps F} (splits : Z) :
  ∃ ms : list (TriangularMesh F),
    get_hierarchy_of_triangular_meshes_for_sphere splits = Ok ms
    ∧ ∀ i j mi mj,
        (i < j)%nat → ms !! i = Some mi → ms !! j = Some mj →
        take (length (vertices mi)) (vertices mj) = vertices mi.
Proof.
  destruct (hierarchy_spec (F:=F) splits) as (rest & E & Hlen & Hcons).
  exists (get_icosahedron :: rest). split; [done|].
  intros i j mi mj Hij Hi Hj.
  destruct (consecutive_vertices_prefix _ Hcons i j mi mj ltac:(lia) Hi Hj)
    as [ext ->].
  by rewrite take_app_length.
Qed.

(** * Mesh merge *)

Section MergeProofs.
Context {F : Type} `{FloatOps F}.

Lemma check_pairwise_cons (m1 m2 : TriangularMesh F) rest :
  check_pairwise (m1 :: m2 :: rest) = Ok tt
  ↔ nesting_check_passes m1 m2 ∧ check_pairwise (m2 :: rest) = Ok tt.
Proof.
  unfold nesting_check_passes. cbn [check_pairwise].
  destruct (np_allclose _ _) as [[|]|e]; simpl; naive_solver.
Qed.

Lemma check_pairwise_spec (ms : list (TriangularMesh F)) :
  check_pairwise ms = Ok tt ↔ consecutive nesting_check_passes ms.
Proof.
  induction ms as [|m1 [|m2 rest] IH].
  - split; [|done]. intros _ k x y Hk. by rewrite lookup_nil in Hk.
  - split; [|done]. intros _. apply consecutive_singleton.
  - rewrite check_pairwise_cons, IH. split.
    + intros [H1 H2]. by apply consecutive_cons.
    + intros Hc. split.
      * by apply (Hc 0%nat).
      * intros k x y Hx Hy. by apply (Hc (S k)).
Qed.

Lemma check_pairwise_result (ms : list (TriangularMesh F)) :
  check_pairwise ms = Ok tt ∨ raises (check_pairwise ms).
Proof.
  destruct (check_pairwise ms) as [[]|e]; [by left|right; by exists e].
Qed.

Lemma np_getitem_last {A} (l : list A) x :
  last l = Some x → np_getitem l (-1) = Ok x.
Proof.
  intros Hl. unfold np_getitem, np_norm_index.
  assert (length l ≠ 0%nat) by (destruct l; [discriminate|done]).
  rewrite last_lookup in Hl.
  rewrite bool_decide_eq_false_2 by lia.
  rewrite bool_decide_eq_true_2 by lia. simpl.
  replace (Z.to_nat (Z.of_nat (length l) + -1)) with (pred (length l)) by lia.
  by rewrite Hl.
Qed.

End MergeProofs.

Lemma merge_meshes_returns {F : Type} `{FloatOps F}
    (mesh_list : list (TriangularMesh F)) finest :
  consecutive nesting_check_passes mesh_list →
  last mesh_list = Some finest →
  merge_meshes mesh_list
  = Ok {| vertices := vertices finest;
          faces := concat (map faces mesh_list) |}.
Proof.
  unfold merge_meshes. intros Hc Hl.
  apply check_pairwise_spec in Hc. rewrite Hc. simpl.
  by rewrite (np_getitem_last _ _ Hl).
Qed.

(** C3 (as amended): [merge_meshes] raises whenever two consecutive levels
    do not pass the tolerance check [np.allclose] of the coarser vertex
    array against the corresponding prefix of the finer one; when every
    consecutive pair passes and the list is not empty, it returns the mesh
    whose vertices are the finest level's vertex array and whose face list
    is the concatenation of all levels' face lists, coarsest first. *)
Theorem merge_meshes_spec {F : Type} `{FloatOps F}
    (mesh_list : list (TriangularMesh F)) :
  (¬ consecutive nesting_check_passes mesh_list →
     raises (merge_meshes mesh_list))
  ∧ (∀ finest,
       consecutive nesting_check_passes mesh_list →
       last mesh_list = Some finest →
       merge_meshes mesh_list
       = Ok {| vertices := vertices finest;
               faces := concat (map faces mesh_list) |}).
Proof.
  split.
  - unfold merge_meshes. intros Hn.
    destruct (check_pairwise_result mesh_list) as [E|[e E]].
    + by apply check_pairwise_spec in E.
    + exists e. by rewrite E.
  - intros finest. apply merge_meshes_returns.
Qed.

Lemma R_isclose_near_one :
  np_isclose (F:=R) 1%R (1 + / 1048576)%R = true.
Proof.
  unfold np_isclose, rtol, atol. simpl.
  destruct (Rle_dec _ _) as [|Hn]; [done|]. exfalso. apply Hn.
  rewrite Rabs_left by lra. rewrite Rabs_right by lra. lra.
Qed.

Lemma R_isclose_refl (x : R) : np_isclose (F:=R) x x = true.
Proof.
  unfold np_isclose, rtol, atol. simpl.
  destruct (Rle_dec _ _) as [|Hn]; [done|]. exfalso. apply Hn.
  replace (x - x)%R with 0%R by lra. rewrite Rabs_R0.
  pose proof (Rabs_pos x). nra.
Qed.

Lemma coarse_fine_check_passes : nesting_check_passes coarse_level fine_level.
Proof.
  unfold nesting_check_passes, coarse_level, fine_level.
  cbn [vertices length take]. unfold np_allclose.
  rewrite bool_decide_eq_true_2 by done.
  cbn [all_isclose_rows np_isclose_row].
  by rewrite R_isclose_near_one, R_isclose_refl.
Qed.

Lemma merge_meshes_spec_witness :
  consecutive nesting_check_passes [coarse_level; fine_level]
  ∧ last [coarse_level; fine_level] = Some fine_level
  ∧ merge_meshes [coarse_level; fine_level]
    = Ok {| vertices := vertices fine_level;
            faces := concat (map faces [coarse_level; fine_level]) |}.
Proof.
  assert (Hc : consecutive nesting_check_passes [coarse_level; fine_level]).
  { apply consecutive_cons; [apply coarse_fine_check_passes|].
    apply consecutive_singleton. }
  split; [exact Hc|]. split; [reflexivity|].
  exact (proj2 (merge_meshes_spec [coarse_level; fine_level])
           fine_level Hc eq_refl).
Defined.

(** C3 as stated fails: the coarser vertex array differs from the prefix of
    the finer one, yet [merge_meshes] returns a merged mesh; and on the
    empty hierarchy, where no check fails, it raises [IndexError]. *)
Lemma merge_meshes_accepts_unequal_prefix :
  (vertices coarse_level
     ≠ take (length (vertices coarse_level)) (vertices fine_level)
   ∧ merge_meshes [coarse_level; fine_level]
     = Ok {| vertices := [(1 + / 1048576, 0, 0)%R];
             faces := [(0, 0, 0); (0, 0, 0)] |})
  ∧ merge_meshes (F:=R) [] = Raise IndexError.
Proof.
  split; [split|reflexivity].
  - simpl. intros Heq. injection Heq as Heq. lra.
  - unfold merge_meshes. cbn [check_pairwise].
    rewrite coarse_fine_check_passes. reflexivity.
Qed.

(** * Edge extraction *)

Lemma elem_of_flat_map {A B} (f : A → list B) (l : list A) (y : B) :
  y ∈ flat_map f l ↔ ∃ x, x ∈ l ∧ y ∈ f x.
Proof.
  rewrite list_elem_of_In, in_flat_map.
  split; intros (x & Hx & Hy); exists x; by rewrite ?list_elem_of_In in *.
Qed.

Lemma elem_of_concat {A} (ls : list (list A)) (y : A) :
  y ∈ concat ls ↔ ∃ l, y ∈ l ∧ l ∈ ls.
Proof.
  rewrite list_elem_of_In, in_concat.
  split; intros (l & Hl & Hy); exists l; by rewrite ?list_elem_of_In in *.
Qed.

Lemma zip_map_map {A B C} (f : A → B) (g : A → C) (l : list A) :
  zip (map f l) (map g l) = map (λ x, (f x, g x)) l.
Proof. induction l as [|x l IH]; simpl; [done|]. by rewrite IH. Qed.

Lemma edge_list_unfold (fs : list face) :
  edge_list fs
  = map (λ f : face, (f.1.1, f.1.2)) fs
    ++ map (λ f : face, (f.1.2, f.2)) fs
    ++ map (λ f : face, (f.2, f.1.1)) fs.
Proof.
  unfold edge_list, faces_to_edges. cbn [fst snd].
  rewrite zip_with_app by (by rewrite !length_map).
  rewrite zip_with_app by (by rewrite !length_map).
  by rewrite !zip_map_map.
Qed.

Lemma edge_list_permutation (fs : list face) :
  edge_list fs ≡ₚ directed_edges fs.
Proof.
  rewrite edge_list_unfold. unfold directed_edges.
  induction fs as [|[[i j] k] fs IH]; [done|].
  cbn [map flat_map face_directed_edges fst snd app].
  rewrite <- IH. apply perm_skip.
  rewrite <- !Permutation_middle. by do 2 apply perm_skip.
Qed.

Lemma elem_of_edge_list (fs : list face) (e : Z * Z) :
  e ∈ edge_list fs ↔ ∃ f, f ∈ fs ∧ e ∈ face_directed_edges f.
Proof.
  rewrite (edge_list_permutation fs). apply elem_of_flat_map.
Qed.

Lemma edge_list_length (fs : list face) :
  length (faces_to_edges fs).1 = (3 * length fs)%nat
  ∧ length (faces_to_edges fs).2 = (3 * length fs)%nat.
Proof.
  unfold faces_to_edges. cbn [fst snd]. rewrite !length_app, !length_map. lia.
Qed.

Lemma reversal_closed_concat (fss : list (list face)) :
  Forall reversal_closed fss → reversal_closed (concat fss).
Proof.
  intros Hall s r. rewrite !elem_of_edge_list.
  intros (f & Hf & He). apply elem_of_concat in Hf as (fs & Hf & Hfs).
  pose proof (proj1 (Forall_forall _ _) Hall fs Hfs s r) as Hrc.
  rewrite !elem_of_edge_list in Hrc.
  destruct Hrc as (f' & Hf' & He'); [by exists f|].
  exists f'. split; [|done]. apply elem_of_concat. by exists fs.
Qed.

Lemma reversal_closed_int32 (fs : list face) :
  reversal_closed fs → reversal_closed (np_int32_faces fs).
Proof.
  intros Hrc s r. rewrite !elem_of_edge_list.
  assert (Hmap : ∀ e, (∃ f, f ∈ np_int32_faces fs ∧ e ∈ face_directed_edges f)
    ↔ ∃ e0, e0 ∈ edge_list fs ∧ e = (to_int32 e0.1, to_int32 e0.2)).
  { intros e. split.
    - intros (f & Hf & He). unfold np_int32_faces in Hf.
      apply list_elem_of_In, in_map_iff in Hf as ([[a b] c] & <- & Hin).
      apply list_elem_of_In in Hin.
      simpl in He. rewrite !elem_of_cons, elem_of_nil in He.
      destruct He as [->|[->|[->|[]]]].
      + exists (a, b). split; [|done]. apply elem_of_edge_list.
        exists (a, b, c). split; [done|]. simpl. set_solver.
      + exists (b, c). split; [|done]. apply elem_of_edge_list.
        exists (a, b, c). split; [done|]. simpl. set_solver.
      + exists (c, a). split; [|done]. apply elem_of_edge_list.
        exists (a, b, c). split; [done|]. simpl. set_solver.
    - intros (e0 & He0 & ->).
      apply elem_of_edge_list in He0 as ([[a b] c] & Hf & He0).
      exists (to_int32 a, to_int32 b, to_int32 c). split.
      + unfold np_int32_faces. apply list_elem_of_In, in_map_iff.
        exists (a, b, c). split; [done|]. by apply list_elem_of_In.
      + simpl in *. rewrite !elem_of_cons, elem_of_nil in He0.
        destruct He0 as [->|[->|[->|[]]]]; simpl; set_solver. }
  rewrite !Hmap. intros ([s0 r0] & He0 & Heq). simpl in Heq.
  injection Heq as -> ->.
  exists (r0, s0). split; [|done]. by apply Hrc.
Qed.

(** Membership in an explicit list. *)
Ltac in_list :=
  cbn; solve [repeat first [apply list_elem_of_here | apply list_elem_of_further]].

(** Both halves of a parent edge are edges of the subdivided faces. *)
Lemma split_half_edges (table : gmap (Z * Z) Z) (fs : list face) u v :
  (u, v) ∈ edge_list fs →
  (u, table !!! unordered_edge u v)
    ∈ edge_list (flat_map (split_face_with table) fs)
  ∧ (table !!! unordered_edge u v, v)
    ∈ edge_list (flat_map (split_face_with table) fs).
Proof.
  rewrite !elem_of_edge_list. intros ([[a b] c] & Hf & He).
  simpl in He. rewrite !elem_of_cons, elem_of_nil in He.
  set (ab := table !!! unordered_edge a b).
  set (bc := table !!! unordered_edge b c).
  set (ca := table !!! unordered_edge c a).
  assert (Hchild : ∀ g, g ∈ split_face_with table (a, b, c) →
                        g ∈ flat_map (split_face_with table) fs).
  { intros g Hg. apply elem_of_flat_map. by exists (a, b, c). }
  destruct He as [He|[He|[He|[]]]]; injection He as -> ->.
  - split.
    + exists (a, ab, ca). split; [apply Hchild|]; in_list.
    + exists (ab, b, bc). split; [apply Hchild|]; in_list.
  - split.
    + exists (ab, b, bc). split; [apply Hchild|]; in_list.
    + exists (ca, bc, c). split; [apply Hchild|]; in_list.
  - split.
    + exists (ca, bc, c). split; [apply Hchild|]; in_list.
    + exists (a, ab, ca). split; [apply Hchild|]; in_list.
Qed.

(** Subdivision preserves closure of the edge set under reversal. *)
Lemma reversal_closed_split (table : gmap (Z * Z) Z) (fs : list face) :
  reversal_closed fs →
  reversal_closed (flat_map (split_face_with table) fs).
Proof.
  intros Hrc s r Hsr.
  apply elem_of_edge_list in Hsr as (g & Hg & Hsr).
  apply elem_of_flat_map in Hg as ([[a b] c] & Hf & Hg).
  assert (Hab : (a, b) ∈ edge_list fs).
  { apply elem_of_edge_list. exists (a, b, c). split; [done|]. in_list. }
  assert (Hbc : (b, c) ∈ edge_list fs).
  { apply elem_of_edge_list. exists (a, b, c). split; [done|]. in_list. }
  assert (Hca : (c, a) ∈ edge_list fs).
  { apply elem_of_edge_list. exists (a, b, c). split; [done|]. in_list. }
  destruct (split_half_edges table fs _ _ (Hrc _ _ Hab)) as [Hba1 Hba2].
  destruct (split_half_edges table fs _ _ (Hrc _ _ Hbc)) as [Hcb1 Hcb2].
  destruct (split_half_edges table fs _ _ (Hrc _ _ Hca)) as [Hac1 Hac2].
  rewrite (unordered_edge_sym b a) in Hba1, Hba2.
  rewrite (unordered_edge_sym c b) in Hcb1, Hcb2.
  rewrite (unordered_edge_sym a c) in Hac1, Hac2.
  assert (Hinner : ∀ e,
    e ∈ face_directed_edges
          (table !!! unordered_edge a b, table !!! unordered_edge b c,
           table !!! unordered_edge c a) →
    e ∈ edge_list (flat_map (split_face_with table) fs)).
  { intros e He. apply elem_of_edge_list. eexists. split; [|exact He].
    apply elem_of_flat_map. exists (a, b, c). split; [done|].
    in_list. }
  assert (Hcorner : ∀ e g', g' ∈ split_face_with table (a, b, c) →
    e ∈ face_directed_edges g' →
    e ∈ edge_list (flat_map (split_face_with table) fs)).
  { intros e g' Hg' He. apply elem_of_edge_list. exists g'. split; [|done].
    apply elem_of_flat_map. by exists (a, b, c). }
  simpl in Hg. rewrite !elem_of_cons, elem_of_nil in Hg.
  destruct Hg as [->|[->|[->|[->|[]]]]];
    simpl in Hsr; rewrite !elem_of_cons, elem_of_nil in Hsr;
    destruct Hsr as [Hsr|[Hsr|[Hsr|[]]]]; injection Hsr as -> ->;
    first
      [ assumption
      | apply Hinner; in_list
      | apply (Hcorner _ (a, table !!! unordered_edge a b,
                          table !!! unordered_edge c a)); in_list
      | apply (Hcorner _ (table !!! unordered_edge a b, b,
                          table !!! unordered_edge b c)); in_list
      | apply (Hcorner _ (table !!! unordered_edge c a,
                          table !!! unordered_edge b c, c)); in_list ].
Qed.

Lemma icosahedron_reversal_closed : reversal_closed icosahedron_faces.
Proof.
  assert (Hall : Forall (λ e : Z * Z, (e.2, e.1) ∈ edge_list icosahedron_faces)
                   (edge_list icosahedron_faces)).
  { refine (bool_decide_unpack _ _). vm_compute. exact I. }
  intros s r Hsr. exact (proj1 (Forall_forall _ _) Hall (s, r) Hsr).
Qed.

Lemma split_step_reversal_closed {F : Type} `{FloatOps F}
    (m m' : TriangularMesh F) :
  split_step m m' → reversal_closed (faces m) → reversal_closed (faces m').
Proof.
  intros (_ & (table & ->) & _) Hrc.
  by apply reversal_closed_int32, reversal_closed_split.
Qed.

Lemma consecutive_reversal_closed {F : Type} `{FloatOps F}
    (ms : list (TriangularMesh F)) m0 :
  consecutive split_step ms →
  ms !! 0%nat = Some m0 →
  reversal_closed (faces m0) →
  Forall (λ m, reversal_closed (faces m)) ms.
Proof.
  intros Hcons H0 Hrc0. apply Forall_lookup. intros k.
  induction k as [|k IH]; intros m Hk.
  - by replace m with m0 by congruence.
  - destruct (lookup_lt_is_Some_2 ms k) as [mk Hmk].
    { apply lookup_lt_Some in Hk. lia. }
    eapply split_step_reversal_closed; [by eapply Hcons|]. by apply IH.
Qed.

Lemma merge_meshes_faces {F : Type} `{FloatOps F}
    (ms : list (TriangularMesh F)) merged :
  merge_meshes ms = Ok merged → faces merged = concat (map faces ms).
Proof.
  unfold merge_meshes. intros Hmerged.
  destruct (check_pairwise ms) as [[]|]; [|discriminate]. simpl in Hmerged.
  destruct (np_getitem ms (-1)) as [finest|]; [|discriminate].
  by injection Hmerged as <-.
Qed.

(** Whatever the floating point arithmetic, a merged hierarchy has a
    reversal-closed edge list. *)
Lemma merged_hierarchy_reversal_closed {F : Type} `{FloatOps F}
    (splits : Z) (ms : list (TriangularMesh F)) merged :
  get_hierarchy_of_triangular_meshes_for_sphere splits = Ok ms →
  merge_meshes ms = Ok merged →
  reversal_closed (faces merged).
Proof.
  intros Hms Hmerged.
  destruct (hierarchy_spec (F:=F) splits) as (rest & E & _ & Hcons).
  rewrite E in Hms. injection Hms as <-.
  assert (Hall : Forall (λ m : TriangularMesh F, reversal_closed (faces m))
                   (get_icosahedron :: rest)).
  { eapply consecutive_reversal_closed; [exact Hcons|reflexivity|].
    rewrite get_icosahedron_faces. apply icosahedron_reversal_closed. }
  rewrite (merge_meshes_faces _ _ Hmerged).
  apply reversal_closed_concat. by rewrite Forall_map.
Qed.

Lemma R_allclose_refl (vs : list (vec3 R)) : np_allclose vs vs = Ok true.
Proof.
  unfold np_allclose. rewrite bool_decide_eq_true_2 by done. f_equal.
  induction vs as [|[[x y] z] vs IH]; [done|].
  cbn [all_isclose_rows np_isclose_row].
  by rewrite !R_isclose_refl, IH.
Qed.

Lemma split_step_check_passes (m m' : TriangularMesh R) :
  split_step m m' → nesting_check_passes m m'.
Proof.
  intros (_ & _ & news & Hv & _). unfold nesting_check_passes.
  rewrite Hv, take_app_length. apply R_allclose_refl.
Qed.

Lemma consecutive_impl {A} (P Q : A → A → Prop) (l : list A) :
  (∀ x y, P x y → Q x y) → consecutive P l → consecutive Q l.
Proof. intros HPQ Hc k x y Hx Hy. eapply HPQ, Hc; eauto. Qed.

(** In exact arithmetic the hierarchy always passes the nesting check. *)
Lemma merge_meshes_hierarchy (splits : Z) :
  ∃ (ms : list (TriangularMesh R)) finest,
    get_hierarchy_of_triangular_meshes_for_sphere splits = Ok ms
    ∧ last ms = Some finest
    ∧ merge_meshes ms
      = Ok {| vertices := vertices finest; faces := concat (map faces ms) |}.
Proof.
  destruct (hierarchy_spec (F:=R) splits) as (rest & E & _ & Hcons).
  destruct (proj2 (last_is_Some (get_icosahedron (F:=R) :: rest)))
    as [finest Hlast]; [done|].
  exists (get_icosahedron :: rest), finest. split_and!; [done|done|].
  apply merge_meshes_returns; [|done].
  eapply consecutive_impl; [|exact Hcons]. apply split_step_check_passes.
Qed.

(** C4: [faces_to_edges] turns every face [(i, j, k)] into the three
    directed edges [i -> j], [j -> k], [k -> i] (three edges per face, as a
    multiset), and for the merged mesh of every hierarchy the edge list is
    closed under reversal: whenever [(s, r)] occurs, so does [(r, s)]. *)
Theorem faces_to_edges_reversal (splits : Z) :
  (∀ fs : list face,
      length (faces_to_edges fs).1 = (3 * length fs)%nat
      ∧ length (faces_to_edges fs).2 = (3 * length fs)%nat
      ∧ zip (faces_to_edges fs).1 (faces_to_edges fs).2
        ≡ₚ flat_map face_directed_edges fs)
  ∧ ∃ (ms : list (TriangularMesh R)) merged,
      get_hierarchy_of_triangular_meshes_for_sphere splits = Ok ms
      ∧ merge_meshes ms = Ok merged
      ∧ ∀ s r,
          (s, r) ∈ zip (faces_to_edges (faces merged)).1
                       (faces_to_edges (faces merged)).2 →
          (r, s) ∈ zip (faces_to_edges (faces merged)).1
                       (faces_to_edges (faces merged)).2.
Proof.
  split.
  - intros fs. destruct (edge_list_length fs) as [H1 H2].
    split_and!; [done|done|]. apply edge_list_permutation.
  - destruct (merge_meshes_hierarchy splits) as (ms & finest & Hms & _ & Hm).
    eexists ms, _. split_and!; [done|exact Hm|].
    exact (merged_hierarchy_reversal_closed splits ms _ Hms Hm).
Qed.

(** * Spatial index *)

Section SpatialIndexProofs.
Context {F : Type} `{FloatOps F}.

Lemma grid_positions_length (lat lon : list F) :
  length (grid_positions_of lat lon) = (length lat * length lon)%nat.
Proof.
  unfold grid_positions_of, _grid_lat_lon_to_coordinates.
  induction lat as [|l lat IH]; [done|].
  cbn [map concat length]. rewrite length_app, IH, !length_map. lia.
Qed.

Lemma np_take_spec {A} (a : list A) (idx : list Z) :
  Forall (λ i, 0 ≤ i < Z.of_nat (length a)) idx →
  ∃ rows, np_take a idx = Ok rows
          ∧ Forall2 (λ i x, a !! Z.to_nat i = Some x) idx rows.
Proof.
  induction idx as [|i idx IH]; intros Hv.
  - exists []. split; [done|]. constructor.
  - apply Forall_cons in Hv as [Hi Hv].
    destruct (IH Hv) as (rows & E & Hrows).
    destruct (lookup_lt_is_Some_2 a (Z.to_nat i)) as [x Hx]; [lia|].
    exists (x :: rows). split; [|by constructor].
    cbn [np_take]. unfold np_getitem, np_norm_index.
    rewrite bool_decide_eq_true_2 by lia. simpl. rewrite Hx. simpl.
    by rewrite E.
Qed.

Lemma concat_triples_chunk {A B} (f : A → list B) (l : list A) p x :
  (∀ y, length (f y) = 3%nat) →
  l !! p = Some x →
  take 3 (drop (3 * p) (concat (map f l))) = f x.
Proof.
  intros Hf. revert p. induction l as [|y l IH]; intros p Hp; [done|].
  destruct p as [|p]; simpl in Hp.
  - injection Hp as ->. cbn [map concat]. rewrite Nat.mul_0_r, drop_0.
    rewrite take_app_length'; [done|by rewrite Hf].
  - cbn [map concat].
    replace (3 * S p)%nat with (length (f y) + 3 * p)%nat by (rewrite Hf; lia).
    rewrite drop_app_add. by apply IH.
Qed.

Lemma concat_triples_length {A B} (f : A → list B) (l : list A) :
  (∀ y, length (f y) = 3%nat) →
  length (concat (map f l)) = (3 * length l)%nat.
Proof.
  intros Hf. induction l as [|y l IH]; [done|].
  cbn [map concat length]. rewrite length_app, Hf, IH. lia.
Qed.

Lemma np_arange_lookup n p :
  (p < n)%nat → np_arange n !! p = Some (Z.of_nat p).
Proof.
  intros Hp. unfold np_arange.
  apply list_lookup_fmap_Some. exists p. split; [done|].
  by apply lookup_seq.
Qed.

End SpatialIndexProofs.

(** C5 (as amended): on a grid with at least one latitude and one
    longitude, whenever the point-location routine answers with one face
    index per grid point, [in_mesh_triangle_indices] returns exactly
    [3 * num_grid_points] edges, three per grid point; the three edges of
    grid point [p] all start at [p], and their mesh ends are the three
    vertices of the face that the routine answered for [p], in that face's
    vertex order. On a grid without latitudes or without longitudes it
    raises [ValueError]. *)
Theorem in_mesh_triangle_indices_spec {F : Type} `{FloatOps F}
    (closest : TriangularMesh F → list (vec3 F) → result (list Z))
    (lat lon : list F) (mesh : TriangularMesh F) :
  (lat = [] ∨ lon = [] →
   in_mesh_triangle_indices closest lat lon mesh = Raise ValueError)
  ∧ (lat ≠ [] → lon ≠ [] →
     ∀ ids,
       closest_point_contract closest mesh (grid_positions_of lat lon) ids →
       ∃ grid_edge_indices mesh_edge_indices,
         in_mesh_triangle_indices closest lat lon mesh
         = Ok (grid_edge_indices, mesh_edge_indices)
         ∧ length grid_edge_indices = (3 * (length lat * length lon))%nat
         ∧ length mesh_edge_indices = (3 * (length lat * length lon))%nat
         ∧ ∀ p, (p < length lat * length lon)%nat →
             ∃ f i j k,
               ids !! p = Some f
               ∧ faces mesh !! Z.to_nat f = Some (i, j, k)
               ∧ (i, j, k) ∈ faces mesh
               ∧ take 3 (drop (3 * p) grid_edge_indices)
                 = [Z.of_nat p; Z.of_nat p; Z.of_nat p]
               ∧ take 3 (drop (3 * p) mesh_edge_indices) = [i; j; k]).
Proof.
  split.
  { intros Hempty. unfold in_mesh_triangle_indices, trimesh_closest_point.
    assert (Hnil : grid_positions_of lat lon = []).
    { apply nil_length_inv. rewrite grid_positions_length.
      destruct Hempty as [-> | ->]; simpl; lia. }
    by rewrite Hnil. }
  intros Hlat Hlon ids (Hids & Hlen & Hvalid).
  unfold in_mesh_triangle_indices.
  assert (Hne : grid_positions_of lat lon ≠ []).
  { intros Hnil. apply (f_equal length) in Hnil.
    rewrite grid_positions_length in Hnil.
    destruct lat, lon; simpl in Hnil; done. }
  unfold trimesh_closest_point.
  destruct (grid_positions_of lat lon) as [|g0 gs] eqn:Egrid; [done|].
  rewrite Hids. cbn [mbind result_bind].
  destruct (np_take_spec (faces mesh) _ Hvalid) as (rows & E & Hrows).
  rewrite E. eexists _, _. split; [reflexivity|].
  pose proof (Forall2_length _ _ _ Hrows) as Hlr.
  assert (Hgl : length (g0 :: gs) = (length lat * length lon)%nat).
  { by rewrite <- Egrid, grid_positions_length. }
  rewrite Hlen, Hgl in Hlr.
  split_and!.
  - rewrite (concat_triples_length (λ i, [i; i; i])) by done.
    unfold np_arange. by rewrite length_map, length_seq, Hgl.
  - etrans; [apply concat_triples_length; by intros [[??]?]|]. by rewrite Hlr.
  - intros p Hp.
    destruct (lookup_lt_is_Some_2 rows p) as [[[i j] k] Hrow].
    { by rewrite <- Hlr. }
    destruct (Forall2_lookup_r _ _ _ _ _ Hrows Hrow) as (fi & Hf & Hfi).
    exists fi, i, j, k. split_and!.
    + exact Hf.
    + exact Hfi.
    + by eapply list_elem_of_lookup_2.
    + apply (concat_triples_chunk (λ i, [i; i; i])); [done|].
      apply np_arange_lookup. by rewrite Hgl.
    + etrans; [eapply concat_triples_chunk; [by intros [[??]?]|exact Hrow]|].
      done.
Qed.

Lemma in_mesh_triangle_indices_spec_witness :
  ((([] : list R) = [] ∨ [0%R] = [])
   ∧ in_mesh_triangle_indices first_triangle [] [0%R] polar_mesh
     = Raise ValueError)
  ∧ [90%R] ≠ [] ∧ [0%R] ≠ []
  ∧ closest_point_contract first_triangle polar_mesh
      (grid_positions_of [90%R] [0%R]) [0]
  ∧ ∃ grid_edge_indices mesh_edge_indices,
      in_mesh_triangle_indices first_triangle [90%R] [0%R] polar_mesh
      = Ok (grid_edge_indices, mesh_edge_indices)
      ∧ length grid_edge_indices = (3 * (1 * 1))%nat
      ∧ length mesh_edge_indices = (3 * (1 * 1))%nat
      ∧ ∀ p, (p < 1 * 1)%nat →
          ∃ f i j k,
            [0] !! p = Some f
            ∧ faces polar_mesh !! Z.to_nat f = Some (i, j, k)
            ∧ (i, j, k) ∈ faces polar_mesh
            ∧ take 3 (drop (3 * p) grid_edge_indices)
              = [Z.of_nat p; Z.of_nat p; Z.of_nat p]
            ∧ take 3 (drop (3 * p) mesh_edge_indices) = [i; j; k].
Proof.
  assert (Hc : closest_point_contract first_triangle polar_mesh
                 (grid_positions_of [90%R] [0%R]) [0]).
  { split; [reflexivity|]. split; [reflexivity|].
    cbn. apply Forall_cons_2; [lia|apply Forall_nil_2]. }
  assert (He : ([] : list R) = [] ∨ [0%R] = []) by (left; reflexivity).
  split.
  { split; [exact He|].
    exact (proj1 (in_mesh_triangle_indices_spec first_triangle [] [0%R]
                    polar_mesh) He). }
  split; [done|]. split; [done|]. split; [exact Hc|].
  exact (proj2 (in_mesh_triangle_indices_spec first_triangle [90%R] [0%R]
                  polar_mesh) ltac:(done) ltac:(done) [0] Hc).
Defined.

(** C5 as stated fails on a grid without points, be it for want of
    latitudes or of longitudes: the point-location routine of trimesh
    rejects the empty array of query points and
    [in_mesh_triangle_indices] raises [ValueError] instead of returning
    zero edges. *)
Lemma in_mesh_triangle_indices_empty_grid :
  in_mesh_triangle_indices first_triangle [] [0%R] polar_mesh
  = Raise ValueError
  ∧ in_mesh_triangle_indices first_triangle [90%R] [] polar_mesh
    = Raise ValueError.
Proof. split; reflexivity. Qed.

(** ** Radius query: list structure *)

Lemma zip_repeat_l {A B} (x : A) (l : list B) :
  zip (repeat x (length l)) l = map (pair x) l.
Proof. induction l as [|y l IH]; simpl; [done|]. by rewrite IH. Qed.

Lemma radius_query_zip (start : Z) (q : list (list Z)) :
  zip (concat (map (λ '(grid_index, mesh_neighbors),
                      repeat grid_index (length mesh_neighbors))
                   (enumerate_from start q)))
      (concat (map (λ '(grid_index, mesh_neighbors), mesh_neighbors)
                   (enumerate_from start q)))
  = neighbour_pairs (enumerate_from start q).
Proof.
  revert start. induction q as [|ns q IH]; intros start; [done|].
  cbn [enumerate_from map concat neighbour_pairs flat_map].
  rewrite zip_with_app by apply repeat_length.
  fold (zip (repeat start (length ns)) ns). rewrite zip_repeat_l.
  f_equal. apply IH.
Qed.

Lemma radius_query_lengths (start : Z) (q : list (list Z)) :
  length (concat (map (λ '(grid_index, mesh_neighbors),
                         repeat grid_index (length mesh_neighbors))
                      (enumerate_from start q)))
  = length (concat (map (λ '(grid_index, mesh_neighbors), mesh_neighbors)
                      (enumerate_from start q))).
Proof.
  revert start. induction q as [|ns q IH]; intros start; [done|].
  cbn [enumerate_from map concat]. rewrite !length_app, repeat_length.
  f_equal. apply IH.
Qed.

(** The grid indices come out in non-decreasing order. *)
Lemma radius_query_sorted (start : Z) (q : list (list Z)) :
  StronglySorted Z.le
    (concat (map (λ '(grid_index, mesh_neighbors),
                    repeat grid_index (length mesh_neighbors))
                 (enumerate_from start q)))
  ∧ Forall (Z.le start)
      (concat (map (λ '(grid_index, mesh_neighbors),
                      repeat grid_index (length mesh_neighbors))
                   (enumerate_from start q))).
Proof.
  revert start. induction q as [|ns q IH]; intros start.
  - split; constructor.
  - cbn [enumerate_from map concat].
    destruct (IH (start + 1)) as [Hs Hge].
    assert (Hge' : Forall (Z.le start)
      (concat (map (λ '(grid_index, mesh_neighbors),
                      repeat grid_index (length mesh_neighbors))
                   (enumerate_from (start + 1) q)))).
    { eapply Forall_impl; [exact Hge|]. intros. simpl in *. lia. }
    induction (length ns) as [|n IHn]; simpl.
    + done.
    + destruct IHn as [IH1 IH2]. split.
      * constructor; [done|]. exact IH2.
      * constructor; [lia|done].
Qed.

Lemma elem_of_neighbour_pairs (start : Z) (q : list (list Z)) i j :
  (i, j) ∈ neighbour_pairs (enumerate_from start q)
  ↔ start ≤ i ∧ ∃ ns, q !! Z.to_nat (i - start) = Some ns ∧ j ∈ ns.
Proof.
  revert start. induction q as [|ns q IH]; intros start.
  - cbn. rewrite elem_of_nil. split; [done|]. by intros (_ & ns & Hns & _).
  - cbn [enumerate_from neighbour_pairs flat_map].
    fold (neighbour_pairs (enumerate_from (start + 1) q)).
    rewrite elem_of_app, IH, list_elem_of_fmap. split.
    + intros [(j' & Heq & Hj)|(Hi & ns' & Hns & Hj)].
      * injection Heq as -> ->. split; [lia|]. exists ns.
        by rewrite Z.sub_diag.
      * split; [lia|]. exists ns'. split; [|done].
        replace (Z.to_nat (i - start)) with (S (Z.to_nat (i - (start + 1))))
          by lia.
        done.
    + intros (Hi & ns' & Hns & Hj).
      destruct (decide (i = start)) as [->|Hne].
      * left. rewrite Z.sub_diag in Hns. injection Hns as ->. by exists j.
      * right. split; [lia|]. exists ns'. split; [|done].
        replace (Z.to_nat (i - start)) with (S (Z.to_nat (i - (start + 1))))
          in Hns by lia.
        done.
Qed.

Lemma elem_of_find_indices {A} (p : A → bool) (l : list A) (start j : Z) :
  j ∈ find_indices p l start
  ↔ start ≤ j ∧ ∃ x, l !! Z.to_nat (j - start) = Some x ∧ p x = true.
Proof.
  revert start. induction l as [|y l IH]; intros start.
  - cbn. rewrite elem_of_nil. split; [done|]. by intros (_ & x & Hx & _).
  - assert (Hrest : j ∈ find_indices p l (start + 1)
              ↔ start < j ∧ ∃ x, (y :: l) !! Z.to_nat (j - start) = Some x
                                  ∧ p x = true).
    { rewrite IH. split.
      - intros (Hj & x & Hx & Hp). split; [lia|]. exists x. split; [|done].
        replace (Z.to_nat (j - start)) with (S (Z.to_nat (j - (start + 1))))
          by lia.
        done.
      - intros (Hj & x & Hx & Hp). split; [lia|]. exists x. split; [|done].
        replace (Z.to_nat (j - start)) with (S (Z.to_nat (j - (start + 1))))
          in Hx by lia.
        done. }
    cbn [find_indices]. destruct (p y) eqn:Hy.
    + rewrite elem_of_cons, Hrest. split.
      * intros [->|(Hj & Hx)]; [|split; [lia|done]].
        split; [lia|]. exists y. by rewrite Z.sub_diag.
      * intros (Hj & x & Hx & Hp).
        destruct (decide (j = start)) as [->|Hne]; [by left|right].
        split; [lia|]. by exists x.
    + rewrite Hrest. split.
      * intros (Hj & Hx). split; [lia|done].
      * intros (Hj & x & Hx & Hp).
        destruct (decide (j = start)) as [->|Hne].
        -- rewrite Z.sub_diag in Hx. injection Hx as ->. congruence.
        -- split; [lia|]. by exists x.
Qed.

Lemma find_indices_all {A} (p : A → bool) (l : list A) (start : Z) :
  Forall (λ x, p x = true) l →
  find_indices p l start = map (λ k, start + Z.of_nat k) (seq 0 (length l)).
Proof.
  revert start. induction l as [|y l IH]; intros start Hall; [done|].
  apply Forall_cons in Hall as [Hy Hall].
  cbn [find_indices length seq map]. rewrite Hy, (IH (start + 1) Hall).
  rewrite Z.add_0_r. f_equal.
  rewrite <- seq_shift, map_map. apply map_ext. intros k. lia.
Qed.

Lemma neighbour_pairs_all (nv : nat) (q : list (list Z)) (start : Z) :
  Forall (λ ns, ns = np_arange nv) q →
  neighbour_pairs (enumerate_from start q)
  = list_prod (map (λ k, start + Z.of_nat k) (seq 0 (length q)))
              (np_arange nv).
Proof.
  revert start. induction q as [|ns q IH]; intros start Hall; [done|].
  apply Forall_cons in Hall as [-> Hall].
  cbn [enumerate_from neighbour_pairs flat_map length seq map list_prod].
  fold (neighbour_pairs (enumerate_from (start + 1) q)).
  rewrite (IH (start + 1) Hall), Z.add_0_r. f_equal.
  rewrite <- seq_shift, map_map. f_equal. apply map_ext. intros k. lia.
Qed.

(** ** Radius query: the edges returned *)

Section RadiusQueryProofs.
Context {F : Type} `{FloatOps F}.

Lemma query_ball_point_lookup (data x : list (vec3 F)) (r : F) i :
  query_ball_point data x r !! i
  = (λ p, find_indices (within_radius r p) data 0) <$> x !! i.
Proof. unfold query_ball_point. apply list_lookup_fmap. Qed.

Lemma radius_query_indices_returns (lat lon : list F) mesh radius :
  lat ≠ [] → lon ≠ [] →
  ∃ g m,
    radius_query_indices lat lon mesh radius = Ok (g, m)
    ∧ length g = length m
    ∧ StronglySorted Z.le g
    ∧ zip g m
      = neighbour_pairs
          (py_enumerate
             (query_ball_point (vertices mesh) (grid_positions_of lat lon)
                radius)).
Proof.
  intros Hlat Hlon. unfold radius_query_indices, py_enumerate.
  set (q := query_ball_point _ _ _).
  assert (Hq : q ≠ []).
  { unfold q, query_ball_point. intros Hnil. apply (f_equal length) in Hnil.
    rewrite length_map, grid_positions_length in Hnil. simpl in Hnil.
    destruct lat, lon; simpl in *; try done. }
  destruct q as [|ns q0] eqn:Eq; [done|]. rewrite <- Eq. clear Hq.
  assert (Hne : ∀ {B} (f : Z * list Z → list B),
             np_concatenate (map f (enumerate_from 0 q))
             = Ok (concat (map f (enumerate_from 0 q)))).
  { intros B f. by rewrite Eq. }
  rewrite !Hne. eexists _, _. split; [reflexivity|]. split_and!.
  - apply radius_query_lengths.
  - apply radius_query_sorted.
  - apply radius_query_zip.
Qed.

Lemma radius_query_membership (data x : list (vec3 F)) (r : F) i j :
  (i, j) ∈ neighbour_pairs (py_enumerate (query_ball_point data x r))
  ↔ 0 ≤ i ∧ 0 ≤ j
    ∧ ∃ p v, x !! Z.to_nat i = Some p ∧ data !! Z.to_nat j = Some v
             ∧ within_radius r p v = true.
Proof.
  unfold py_enumerate. rewrite elem_of_neighbour_pairs, Z.sub_0_r. split.
  - intros (Hi & ns & Hns & Hj).
    rewrite query_ball_point_lookup in Hns.
    apply fmap_Some in Hns as (p & Hp & ->).
    apply elem_of_find_indices in Hj as (Hj & v & Hv & Hle).
    rewrite Z.sub_0_r in Hv.
    split_and!; [done|done|]. by exists p, v.
  - intros (Hi & Hj & p & v & Hp & Hv & Hle). split; [done|].
    exists (find_indices (within_radius r p) data 0). split.
    + rewrite query_ball_point_lookup, Hp. done.
    + apply elem_of_find_indices. split; [done|]. exists v.
      rewrite Z.sub_0_r. by split.
Qed.

Lemma np_arange_offset (n : nat) :
  map (λ k, 0 + Z.of_nat k) (seq 0 n) = np_arange n.
Proof. unfold np_arange. apply map_ext. intros k. lia. Qed.

Lemma radius_query_all_pairs (data x : list (vec3 F)) (r : F) :
  Forall (λ p, Forall (λ v, within_radius r p v = true) data) x →
  neighbour_pairs (py_enumerate (query_ball_point data x r))
  = list_prod (np_arange (length x)) (np_arange (length data)).
Proof.
  intros Hall. unfold py_enumerate.
  rewrite (neighbour_pairs_all (length data)).
  - unfold query_ball_point. by rewrite length_map, np_arange_offset.
  - unfold query_ball_point. apply Forall_map.
    eapply Forall_impl; [exact Hall|]. intros p Hp. simpl.
    rewrite find_indices_all; [apply np_arange_offset|done].
Qed.

End RadiusQueryProofs.

(** ** Radius query: exact arithmetic *)

Lemma R_fleb_true (x y : R) : (x <=? y)%fl = true ↔ (x <= y)%R.
Proof. simpl. destruct (Rle_dec x y); split; intros; done. Qed.

(** Two points of the unit sphere pass the test of the ball query for
    every radius of absolute value at least 2. *)
Lemma unit_sphere_within_radius (r : R) (p v : vec3 R) :
  (2 <= Rabs r)%R → on_unit_sphere p → on_unit_sphere v →
  within_radius r p v = true.
Proof.
  destruct p as [[px py] pz], v as [[vx vy] vz].
  unfold on_unit_sphere, within_radius, squared_distance, vsub, vdot.
  intros Hr Hp Hv. apply R_fleb_true. simpl in *.
  assert (Hrr : (4 <= r * r)%R).
  { unfold Rabs in Hr. destruct (Rcase_abs r); nra. }
  pose proof (Rle_0_sqr (px + vx)). pose proof (Rle_0_sqr (py + vy)).
  pose proof (Rle_0_sqr (pz + vz)). unfold Rsqr in *. lra.
Qed.

Lemma spherical_point_unit (a t : R) :
  on_unit_sphere (cos a * sin t, sin a * sin t, cos t)%R.
Proof.
  unfold on_unit_sphere, vdot. simpl.
  pose proof (sin2_cos2 t) as Ht. pose proof (sin2_cos2 a) as Ha.
  unfold Rsqr in *. nra.
Qed.

Lemma grid_positions_unit (lat lon : list R) :
  Forall on_unit_sphere (grid_positions_of lat lon).
Proof.
  unfold grid_positions_of, _grid_lat_lon_to_coordinates.
  induction lat as [|l lat IH]; [constructor|].
  cbn [map concat]. apply Forall_app. split; [|exact IH].
  apply Forall_map, Forall_map, Forall_true. intros phi0.
  apply spherical_point_unit.
Qed.

(** In exact arithmetic the test of the ball query compares the
    straight-line distance with the absolute value of the radius. *)
Lemma R_within_radius (r : R) (p v : vec3 R) :
  within_radius r p v = true ↔ (vnorm (vsub p v) <= Rabs r)%R.
Proof.
  destruct p as [[px py] pz], v as [[vx vy] vz].
  unfold within_radius, squared_distance, vnorm, vsub, vdot.
  rewrite R_fleb_true. simpl.
  set (s := ((px - vx) * (px - vx) + (py - vy) * (py - vy)
             + (pz - vz) * (pz - vz))%R).
  assert (Hs : (0 <= s)%R).
  { pose proof (Rle_0_sqr (px - vx)). pose proof (Rle_0_sqr (py - vy)).
    pose proof (Rle_0_sqr (pz - vz)). unfold s, Rsqr in *. lra. }
  pose proof (sqrt_pos s) as Hpos.
  pose proof (sqrt_sqrt s Hs) as Hsq.
  pose proof (Rabs_pos r) as Hr.
  assert (Hrr : (Rabs r * Rabs r = r * r)%R).
  { unfold Rabs. destruct (Rcase_abs r); ring. }
  split; intros Hle.
  - rewrite <- (sqrt_Rsqr_abs r). apply sqrt_le_1_alt. unfold Rsqr. exact Hle.
  - nra.
Qed.

(** C6 (as amended): for a grid with at least one latitude and one
    longitude, whatever the floating-point operations, [radius_query_indices]
    returns its edges grid-point-major (the grid indices are
    non-decreasing), and the edges are exactly the pairs of a grid point and
    a mesh vertex that pass the test of the ball query: the squared distance
    of the computed positions is at most the square of [radius]. When every
    pair passes that test the edges are all (grid point, mesh vertex) pairs,
    each once, in grid-major order. In exact arithmetic the test says that
    the straight-line distance is at most the absolute value of [radius],
    and every pair passes it when that absolute value is at least 2 and the
    mesh vertices are on the unit sphere. *)
Theorem radius_query_indices_spec :
  (∀ (F : Type) (ops : FloatOps F)
     (lat lon : list F) (mesh : TriangularMesh F) (radius : F),
     lat ≠ [] → lon ≠ [] →
     ∃ grid_edge_indices mesh_edge_indices,
       radius_query_indices lat lon mesh radius
       = Ok (grid_edge_indices, mesh_edge_indices)
       ∧ length grid_edge_indices = length mesh_edge_indices
       ∧ StronglySorted Z.le grid_edge_indices
       ∧ (∀ i j,
            (i, j) ∈ zip grid_edge_indices mesh_edge_indices
            ↔ 0 ≤ i ∧ 0 ≤ j
              ∧ ∃ p v, grid_positions_of lat lon !! Z.to_nat i = Some p
                       ∧ vertices mesh !! Z.to_nat j = Some v
                       ∧ (vdot (vsub p v) (vsub p v) <=? radius * radius)%fl
                         = true)
       ∧ (Forall (λ p, Forall (λ v, within_radius radius p v = true)
                         (vertices mesh))
            (grid_positions_of lat lon) →
          zip grid_edge_indices mesh_edge_indices
          = list_prod (np_arange (length lat * length lon))
                      (np_arange (length (vertices mesh)))))
  ∧ (∀ (radius : R) (p v : vec3 R),
       within_radius radius p v = true
       ↔ (vnorm (vsub p v) <= Rabs radius)%R)
  ∧ (∀ (lat lon : list R) (mesh : TriangularMesh R) (radius : R),
       lat ≠ [] → lon ≠ [] →
       (2 <= Rabs radius)%R →
       Forall on_unit_sphere (vertices mesh) →
       ∃ grid_edge_indices mesh_edge_indices,
         radius_query_indices lat lon mesh radius
         = Ok (grid_edge_indices, mesh_edge_indices)
         ∧ zip grid_edge_indices mesh_edge_indices
           = list_prod (np_arange (length lat * length lon))
                       (np_arange (length (vertices mesh)))).
Proof.
  split_and!.
  - intros F ops lat lon mesh radius Hlat Hlon.
    destruct (radius_query_indices_returns lat lon mesh radius Hlat Hlon)
      as (g & m & E & Hlen & Hsorted & Hzip).
    exists g, m. split_and!; [done|done|done| |].
    + intros i j. rewrite Hzip. apply radius_query_membership.
    + intros Hall. rewrite Hzip, <- grid_positions_length.
      by apply radius_query_all_pairs.
  - apply R_within_radius.
  - intros lat lon mesh radius Hlat Hlon Hr Hunit.
    destruct (radius_query_indices_returns lat lon mesh radius Hlat Hlon)
      as (g & m & E & _ & _ & Hzip).
    exists g, m. split; [done|].
    rewrite Hzip, <- grid_positions_length.
    apply radius_query_all_pairs.
    eapply Forall_impl; [apply grid_positions_unit|]. intros p Hp. simpl.
    eapply Forall_impl; [exact Hunit|]. intros v Hv. simpl.
    by apply unit_sphere_within_radius.
Qed.

Lemma pole_grid_position :
  grid_positions_of [90%R] [0%R] = [(0, 0, 1)%R].
Proof.
  unfold grid_positions_of, _grid_lat_lon_to_coordinates, np_deg2rad. simpl.
  replace ((90 - 90) * (PI / 180))%R with 0%R by lra.
  replace (0 * (PI / 180))%R with 0%R by lra.
  rewrite sin_0, cos_0. repeat f_equal; lra.
Qed.

Lemma polar_mesh_on_unit_sphere : Forall on_unit_sphere (vertices polar_mesh).
Proof.
  unfold polar_mesh, on_unit_sphere, vdot. cbn [vertices].
  repeat constructor; simpl; lra.
Qed.

Lemma radius_query_indices_spec_witness :
  ([90%R] ≠ [] ∧ [0%R] ≠ []
   ∧ ∃ grid_edge_indices mesh_edge_indices,
       radius_query_indices [90%R] [0%R] polar_mesh 0%R
       = Ok (grid_edge_indices, mesh_edge_indices)
       ∧ length grid_edge_indices = length mesh_edge_indices
       ∧ StronglySorted Z.le grid_edge_indices
       ∧ (∀ i j,
            (i, j) ∈ zip grid_edge_indices mesh_edge_indices
            ↔ 0 ≤ i ∧ 0 ≤ j
              ∧ ∃ p v, grid_positions_of [90%R] [0%R] !! Z.to_nat i = Some p
                       ∧ vertices polar_mesh !! Z.to_nat j = Some v
                       ∧ (vdot (vsub p v) (vsub p v) <=? 0%R * 0%R)%fl
                         = true)
       ∧ (Forall (λ p, Forall (λ v, within_radius 0%R p v = true)
                         (vertices polar_mesh))
            (grid_positions_of [90%R] [0%R]) →
          zip grid_edge_indices mesh_edge_indices
          = list_prod (np_arange (length [90%R] * length [0%R]))
                      (np_arange (length (vertices polar_mesh)))))
  ∧ ([90%R] ≠ [] ∧ [0%R] ≠ [] ∧ (2 <= Rabs (-2))%R
     ∧ Forall on_unit_sphere (vertices polar_mesh)
     ∧ ∃ grid_edge_indices mesh_edge_indices,
         radius_query_indices [90%R] [0%R] polar_mesh (-2)%R
         = Ok (grid_edge_indices, mesh_edge_indices)
         ∧ zip grid_edge_indices mesh_edge_indices
           = list_prod (np_arange (length [90%R] * length [0%R]))
                       (np_arange (length (vertices polar_mesh)))).
Proof.
  assert (Hr : (2 <= Rabs (-2))%R).
  { rewrite Rabs_left by lra. lra. }
  split_and!;
    [done|done| |done|done|exact Hr|exact polar_mesh_on_unit_sphere|].
  - exact (proj1 radius_query_indices_spec R R_ops [90%R] [0%R] polar_mesh
             0%R ltac:(done) ltac:(done)).
  - exact (proj2 (proj2 radius_query_indices_spec) [90%R] [0%R] polar_mesh
             (-2)%R ltac:(done) ltac:(done) Hr polar_mesh_on_unit_sphere).
Defined.

(** C6 as stated fails: with radius 0 the grid point at the north pole is
    connected to the coinciding mesh vertex; and a grid without points has
    nothing to concatenate, so the query raises [ValueError]. *)
Lemma radius_query_zero_radius_edge :
  radius_query_indices [90%R] [0%R] polar_mesh 0%R = Ok ([0], [0])
  ∧ radius_query_indices [] [0%R] polar_mesh 0%R = Raise ValueError.
Proof.
  split; [|reflexivity].
  unfold radius_query_indices. rewrite pole_grid_position.
  assert (Hq : query_ball_point (vertices polar_mesh) [(0, 0, 1)%R] 0%R
               = [[0]]).
  { unfold query_ball_point, polar_mesh. cbn [map vertices find_indices].
    assert (Hin : within_radius 0%R (0, 0, 1)%R (0, 0, 1)%R = true).
    { apply R_fleb_true. unfold squared_distance, vsub, vdot. simpl. lra. }
    assert (Hx : within_radius 0%R (0, 0, 1)%R (1, 0, 0)%R = false).
    { apply not_true_is_false. intros Ht. apply R_fleb_true in Ht.
      unfold squared_distance, vsub, vdot in Ht. simpl in Ht. lra. }
    assert (Hy : within_radius 0%R (0, 0, 1)%R (0, 1, 0)%R = false).
    { apply not_true_is_false. intros Ht. apply R_fleb_true in Ht.
      unfold squared_distance, vsub, vdot in Ht. simpl in Ht. lra. }
    rewrite Hin, Hx, Hy. reflexivity. }
  rewrite Hq. reflexivity.
Qed.


(** * Rotation engine *)

Section RotationProofs.
Context {F : Type} `{FloatOps F}.

Lemma np_map2_same_length {A B C} (f : A → B → C) (a : list A) (b : list B) :
  length a = length b → np_map2 f a b = Ok (zip_with f a b).
Proof. intros Hl. unfold np_map2. by rewrite bool_decide_eq_true_2. Qed.

Lemma stack_xyz_zip (f g : F → F → F) (k : F → F) (phi theta : list F) :
  length phi = length theta →
  zip_with (λ (xy : F * F) z, (xy.1, xy.2, z))
    (zip (zip_with f phi theta) (zip_with g phi theta)) (map k theta)
  = zip_with (λ p t, (f p t, g p t, k t)) phi theta.
Proof.
  revert theta. induction phi as [|p phi IH]; intros [|t theta] Hl;
    simpl in *; try done.
  f_equal. apply IH. lia.
Qed.

Lemma node_positions_same_length (phi theta : list F) :
  length phi = length theta →
  node_positions phi theta = Ok (zip_with spherical_point phi theta).
Proof.
  intros Hl. unfold node_positions, spherical_to_cartesian.
  rewrite !np_map2_same_length by done. cbn [mbind result_bind mret result_ret].
  unfold np_stack_xyz.
  rewrite bool_decide_eq_true_2.
  2: { by rewrite !length_zip_with, length_map, Hl, Nat.min_id. }
  f_equal. by apply stack_xyz_zip.
Qed.

End RotationProofs.

(** C8: with neither alignment flag set,
    [get_rotation_matrices_to_local_coordinates] raises [ValueError];
    both relative-position functions invoke no routine of the rotation
    engine in that mode, and they return the difference of the unrotated
    unit positions, sender minus receiver, edge by edge. *)
Theorem no_rotation_without_alignment {F : Type} `{FloatOps F} :
  (∀ reference_phi reference_theta : list F,
     get_rotation_matrices_to_local_coordinates reference_phi reference_theta
       false false = Raise ValueError)
  ∧ (∀ (node_phi node_theta : list F) senders receivers,
       (get_relative_position_in_receiver_local_coordinates
          node_phi node_theta senders receivers false false).1 = []
       ∧ ∀ node_pos s r,
           node_positions node_phi node_theta = Ok node_pos →
           np_take node_pos senders = Ok s →
           np_take node_pos receivers = Ok r →
           length s = length r →
           (get_relative_position_in_receiver_local_coordinates
              node_phi node_theta senders receivers false false).2
           = Ok (zip_with vsub s r))
  ∧ (∀ (senders_node_phi senders_node_theta : list F) senders
       (receivers_node_phi receivers_node_theta : list F) receivers,
       (get_bipartite_relative_position_in_receiver_local_coordinates
          senders_node_phi senders_node_theta senders
          receivers_node_phi receivers_node_theta receivers false false).1 = []
       ∧ ∀ senders_node_pos receivers_node_pos s r,
           node_positions senders_node_phi senders_node_theta
           = Ok senders_node_pos →
           node_positions receivers_node_phi receivers_node_theta
           = Ok receivers_node_pos →
           np_take senders_node_pos senders = Ok s →
           np_take receivers_node_pos receivers = Ok r →
           length s = length r →
           (get_bipartite_relative_position_in_receiver_local_coordinates
              senders_node_phi senders_node_theta senders
              receivers_node_phi receivers_node_theta receivers false false).2
           = Ok (zip_with vsub s r)).
Proof.
  split_and!.
  - done.
  - intros node_phi node_theta senders receivers.
    unfold get_relative_position_in_receiver_local_coordinates.
    fold (node_positions node_phi node_theta).
    destruct (node_positions node_phi node_theta) as [node_pos|e]; [|done].
    cbn. split.
    + done.
    + intros ? s r [= <-] Hs Hr Hl. rewrite Hs. cbn. rewrite Hr. cbn.
      rewrite np_map2_same_length by done. reflexivity.
  - intros sphi stheta senders rphi rtheta receivers.
    unfold get_bipartite_relative_position_in_receiver_local_coordinates.
    fold (node_positions sphi stheta). fold (node_positions rphi rtheta).
    destruct (node_positions sphi stheta) as [spos|e]; [|done].
    destruct (node_positions rphi rtheta) as [rpos|e]; [|done].
    cbn. split.
    + done.
    + intros ? ? s r [= <-] [= <-] Hs Hr Hl. rewrite Hs. cbn. rewrite Hr. cbn.
      rewrite np_map2_same_length by done. reflexivity.
Qed.

(** ** The rotation of a reference point, in exact arithmetic *)

Lemma polar_rotation_trig (t : R) :
  cos (- t + PI / 2) = sin t ∧ sin (- t + PI / 2) = cos t.
Proof.
  replace (- t + PI / 2)%R with (PI / 2 - t)%R by lra.
  split; [apply cos_shift|apply sin_shift].
Qed.

(** Equality of triples, component by component. *)
Ltac vec3_eq := f_equal; [f_equal|].

Lemma mat_vec_mul (a b : mat3 R) (v : vec3 R) :
  mat_vec (mat_mul a b) v = mat_vec a (mat_vec b v).
Proof.
  destruct a as [[[[a00 a01] a02] [[a10 a11] a12]] [[a20 a21] a22]].
  destruct b as [[[[b00 b01] b02] [[b10 b11] b12]] [[b20 b21] b22]].
  destruct v as [[x y] z]. simpl. vec3_eq; ring.
Qed.

(** Rotating about the polar axis by minus the azimuth. *)
Lemma rotate_z_point (p t : R) :
  mat_vec (elementary_rotation ax_z (- p)%R) (spherical_point p t)
  = (sin t, 0, cos t)%R.
Proof.
  unfold spherical_point. simpl.
  rewrite cos_neg, sin_neg.
  pose proof (sin2_cos2 p) as Hp. unfold Rsqr in *.
  assert (Hst : (sin t * (sin p * sin p + cos p * cos p) = sin t)%R)
    by (rewrite Hp; ring).
  vec3_eq; [nra|ring|ring].
Qed.

(** Rotating the zero-longitude point to zero latitude. *)
Lemma rotate_y_point (t : R) :
  mat_vec (elementary_rotation ax_y (- t + PI / 2)%R) (sin t, 0, cos t)%R
  = (1, 0, 0)%R.
Proof.
  simpl. destruct (polar_rotation_trig t) as [-> ->].
  pose proof (sin2_cos2 t) as Ht. unfold Rsqr in *.
  vec3_eq; nra.
Qed.

Lemma rotate_z_back (p : R) :
  mat_vec (elementary_rotation ax_z p) (1, 0, 0)%R = (cos p, sin p, 0)%R.
Proof. simpl. vec3_eq; ring. Qed.

Lemma rotate_both_point (p t : R) :
  mat_vec (from_euler [ax_z; ax_y] [(- p)%R; (- t + PI / 2)%R])
          (spherical_point p t)
  = (1, 0, 0)%R.
Proof.
  cbn [from_euler]. by rewrite mat_vec_mul, rotate_z_point, rotate_y_point.
Qed.

Lemma rotate_longitude_point (p t : R) :
  mat_vec (from_euler [ax_z] [(- p)%R]) (spherical_point p t)
  = (sin t, 0, cos t)%R.
Proof. cbn [from_euler]. apply rotate_z_point. Qed.

Lemma rotate_latitude_point (p t : R) :
  mat_vec (from_euler [ax_z; ax_y; ax_z]
             [(- p)%R; (- t + PI / 2)%R; (- - p)%R])
          (spherical_point p t)
  = (cos p, sin p, 0)%R.
Proof.
  cbn [from_euler].
  rewrite !mat_vec_mul, rotate_z_point, rotate_y_point, Ropp_involutive.
  apply rotate_z_back.
Qed.

Lemma R_arctan2_zero_nonneg (x : R) : (0 <= x)%R → R_arctan2 0 x = 0%R.
Proof.
  intros Hx. unfold R_arctan2.
  destruct (Rlt_dec 0 x).
  - replace (0 / x)%R with 0%R by (unfold Rdiv; lra). apply atan_0.
  - destruct (Rlt_dec x 0); [lra|].
    destruct (Rlt_dec 0 0); [lra|done].
Qed.

Lemma np_stack_last_two {A} (a b : list A) :
  length a = length b →
  np_stack_last [a; b] = Ok (zip_with (λ x y, [x; y]) a b).
Proof.
  intros Hl. cbn [np_stack_last mbind result_bind].
  rewrite bool_decide_eq_true_2 by (by rewrite length_map).
  f_equal. revert b Hl. induction a as [|x a IH]; intros [|y b] Hl;
    simpl in *; try done.
  f_equal. apply IH. lia.
Qed.

Lemma np_stack_last_three {A} (a b c : list A) :
  length a = length b → length b = length c →
  np_stack_last [a; b; c]
  = Ok (zip_with (λ x yz, x :: yz) a (zip_with (λ y z, [y; z]) b c)).
Proof.
  intros Hab Hbc.
  change (np_stack_last [a; b; c])
    with (np_stack_last [b; c] ≫= λ rest,
            if bool_decide (length a = length rest)
            then Ok (zip_with cons a rest) else Raise ValueError).
  rewrite np_stack_last_two by done. cbn [mbind result_bind].
  rewrite bool_decide_eq_true_2; [done|].
  rewrite length_zip_with. lia.
Qed.

Lemma rotated_points_both (phi theta : list R) :
  length phi = length theta →
  zip_with mat_vec
    (map (from_euler [ax_z; ax_y])
       (zip_with (λ x y, [x; y]) (map Ropp phi)
          (map (λ t, (- t + PI / 2)%R) theta)))
    (zip_with spherical_point phi theta)
  = zip_with (λ _ _, (1, 0, 0)%R) phi theta.
Proof.
  revert theta. induction phi as [|p phi IH]; intros [|t theta] Hl;
    simpl in Hl; try done.
  cbn [map zip_with]. rewrite rotate_both_point. f_equal. apply IH. lia.
Qed.

Lemma rotated_points_longitude (phi theta : list R) :
  length phi = length theta →
  zip_with mat_vec
    (map (λ a, from_euler [ax_z] [a]) (map Ropp phi))
    (zip_with spherical_point phi theta)
  = zip_with (λ _ t, (sin t, 0, cos t)%R) phi theta.
Proof.
  revert theta. induction phi as [|p phi IH]; intros [|t theta] Hl;
    simpl in Hl; try done.
  cbn [map zip_with]. rewrite rotate_longitude_point. f_equal. apply IH. lia.
Qed.

Lemma rotated_points_latitude (phi theta : list R) :
  length phi = length theta →
  zip_with mat_vec
    (map (from_euler [ax_z; ax_y; ax_z])
       (zip_with (λ x yz, x :: yz) (map Ropp phi)
          (zip_with (λ y z, [y; z]) (map (λ t, (- t + PI / 2)%R) theta)
             (map Ropp (map Ropp phi)))))
    (zip_with spherical_point phi theta)
  = zip_with (λ p _, (cos p, sin p, 0)%R) phi theta.
Proof.
  revert theta. induction phi as [|p phi IH]; intros [|t theta] Hl;
    simpl in Hl; try done.
  cbn [map zip_with]. rewrite rotate_latitude_point. f_equal. apply IH. lia.
Qed.

Lemma rotated_reference_points (reference_phi reference_theta : list R)
    (rotate_latitude rotate_longitude : bool) :
  length reference_phi = length reference_theta →
  rotate_latitude || rotate_longitude = true →
  ∃ rotation_matrices,
    get_rotation_matrices_to_local_coordinates reference_phi reference_theta
      rotate_latitude rotate_longitude = Ok rotation_matrices
    ∧ rotate_with_matrices rotation_matrices
        (zip_with spherical_point reference_phi reference_theta)
      = Ok (zip_with (local_reference_point rotate_latitude rotate_longitude)
              reference_phi reference_theta).
Proof.
  intros Hl Hflag.
  unfold get_rotation_matrices_to_local_coordinates, rotate_with_matrices,
    np_stack_angles, local_reference_point.
  destruct rotate_longitude, rotate_latitude; try discriminate Hflag;
    cbn [andb].
  - rewrite np_stack_last_two by (by rewrite !length_map).
    eexists. split; [reflexivity|].
    rewrite np_map2_same_length.
    2: { rewrite length_map, !length_zip_with, !length_map. lia. }
    by rewrite rotated_points_both.
  - eexists. split; [reflexivity|].
    rewrite np_map2_same_length.
    2: { rewrite !length_map, length_zip_with. lia. }
    by rewrite rotated_points_longitude.
  - rewrite np_stack_last_three by (by rewrite !length_map).
    eexists. split; [reflexivity|].
    rewrite np_map2_same_length.
    2: { rewrite length_map, !length_zip_with, !length_map. lia. }
    by rewrite rotated_points_latitude.
Qed.

Lemma local_reference_point_unit (la lo : bool) (p t : R) :
  on_unit_sphere (local_reference_point la lo p t).
Proof.
  unfold on_unit_sphere, local_reference_point, vdot.
  pose proof (sin2_cos2 p) as Hp. pose proof (sin2_cos2 t) as Ht.
  unfold Rsqr in *. destruct la, lo; simpl; lra.
Qed.

(** C9: for reference points given by an azimuth and a polar angle in
    [0, pi], with at least one alignment flag set, the rotation matrices
    exist and, applied with [rotate_with_matrices] to the points' own unit
    positions, send the point with azimuth [p] and polar angle [t] to
    [(1, 0, 0)] when both flags are set, to [(cos p, sin p, 0)] when only
    the latitude flag is set and to [(sin t, 0, cos t)] when only the
    longitude flag is set. So every rotated point is on the unit sphere, its
    polar angle [arccos z] is [pi / 2] whenever the latitude flag is set and
    its azimuth [arctan2(y, x)] is [0] whenever the longitude flag is
    set. *)
Theorem rotation_round_trip
    (reference_phi reference_theta : list R)
    (rotate_latitude rotate_longitude : bool) :
  length reference_phi = length reference_theta →
  Forall (λ t, 0 <= t <= PI)%R reference_theta →
  rotate_latitude || rotate_longitude = true →
  ∃ rotation_matrices reference_pos rotated,
    get_rotation_matrices_to_local_coordinates reference_phi reference_theta
      rotate_latitude rotate_longitude = Ok rotation_matrices
    ∧ node_positions reference_phi reference_theta = Ok reference_pos
    ∧ rotate_with_matrices rotation_matrices reference_pos = Ok rotated
    ∧ length rotated = length reference_phi
    ∧ (∀ b p t,
         reference_phi !! b = Some p → reference_theta !! b = Some t →
         rotated !! b
         = Some (local_reference_point rotate_latitude rotate_longitude p t))
    ∧ ∀ b x y z,
        rotated !! b = Some (x, y, z) →
        on_unit_sphere (x, y, z)
        ∧ (rotate_latitude = true → z = 0%R ∧ farccos z = (PI / 2)%R)
        ∧ (rotate_longitude = true →
           y = 0%R ∧ (0 <= x)%R ∧ farctan2 y x = 0%R).
Proof.
  intros Hl Htheta Hflag.
  rewrite (node_positions_same_length _ _ Hl).
  destruct (rotated_reference_points _ _ _ _ Hl Hflag) as (mats & E1 & E2).
  eexists mats, _, _. split; [exact E1|]. split; [reflexivity|].
  split; [exact E2|]. split; [rewrite length_zip_with; lia|]. split.
  - intros b p t Hp Ht. by rewrite lookup_zip_with, Hp, Ht.
  - intros b x y z Hb.
    apply lookup_zip_with_Some in Hb as (p & t & Heq & _ & Ht).
    split; [rewrite Heq; apply local_reference_point_unit|].
    pose proof (proj1 (Forall_lookup _ _) Htheta b t Ht) as Hr. simpl in Hr.
    unfold local_reference_point in Heq.
    destruct rotate_latitude, rotate_longitude; try discriminate Hflag;
      injection Heq as -> -> ->.
    + split; intros _; simpl.
      * split; [done|apply acos_0].
      * split_and!; [done|lra|apply R_arctan2_zero_nonneg; lra].
    + split; [|discriminate]. intros _. simpl. split; [done|apply acos_0].
    + split; [discriminate|]. intros _. simpl.
      assert (0 <= sin t)%R by (apply sin_ge_0; lra).
      split_and!; [done|done|by apply R_arctan2_zero_nonneg].
Qed.

Lemma rotation_round_trip_witness :
  length [(PI / 2)%R] = length [(PI / 4)%R]
  ∧ Forall (λ t, 0 <= t <= PI)%R [(PI / 4)%R]
  ∧ true || false = true
  ∧ ∃ rotation_matrices reference_pos rotated,
      get_rotation_matrices_to_local_coordinates [(PI / 2)%R] [(PI / 4)%R]
        true false = Ok rotation_matrices
      ∧ node_positions [(PI / 2)%R] [(PI / 4)%R] = Ok reference_pos
      ∧ rotate_with_matrices rotation_matrices reference_pos = Ok rotated
      ∧ length rotated = length [(PI / 2)%R]
      ∧ (∀ b p t,
           [(PI / 2)%R] !! b = Some p → [(PI / 4)%R] !! b = Some t →
           rotated !! b = Some (local_reference_point true false p t))
      ∧ ∀ b x y z,
          rotated !! b = Some (x, y, z) →
          on_unit_sphere (x, y, z)
          ∧ (true = true → z = 0%R ∧ farccos z = (PI / 2)%R)
          ∧ (false = true → y = 0%R ∧ (0 <= x)%R ∧ farctan2 y x = 0%R).
Proof.
  assert (Hrange : Forall (λ t, 0 <= t <= PI)%R [(PI / 4)%R]).
  { apply Forall_cons_2; [|apply Forall_nil_2].
    pose proof PI_RGT_0. simpl. lra. }
  split; [reflexivity|]. split; [exact Hrange|]. split; [reflexivity|].
  exact (rotation_round_trip [(PI / 2)%R] [(PI / 4)%R] true false
           eq_refl Hrange eq_refl).
Defined.


(** * Feature encoders *)

Section FeatureProofs.
Context {F : Type} `{FloatOps F}.

Lemma node_feature_columns_ok (p l o : bool) (phi theta : list F) :
  length phi = length theta →
  ∃ cols, node_feature_columns p l o phi theta = Ok cols
          ∧ Forall (λ c, length c = length phi) cols
          ∧ (cols = [] ↔ p = false ∧ l = false ∧ o = false).
Proof.
  intros Hl. unfold node_feature_columns, spherical_to_cartesian.
  rewrite !np_map2_same_length by done.
  destruct p, l, o; cbn; eexists; (split; [reflexivity|]);
    (split; [repeat (apply Forall_cons_2;
                     [rewrite ?length_zip_with, ?length_map; lia|]);
             apply Forall_nil_2
            |split; [discriminate || done|intros (?&?&?); done]]).
Qed.

Lemma np_stack_last_ok {A} (cols : list (list A)) (n : nat) :
  cols ≠ [] → Forall (λ c, length c = n) cols →
  ∃ rows, np_stack_last cols = Ok rows ∧ length rows = n.
Proof.
  induction cols as [|c cols IH]; [done|]. intros _ Hall.
  apply Forall_cons in Hall as [Hc Hall].
  destruct cols as [|c' cols].
  - exists (map (λ x, [x]) c). split; [done|]. by rewrite length_map.
  - destruct (IH ltac:(done) Hall) as (rest & E & Hrest).
    change (np_stack_last (c :: c' :: cols))
      with (np_stack_last (c' :: cols) ≫= λ rest,
              if bool_decide (length c = length rest)
              then Ok (zip_with cons c rest) else Raise ValueError).
    rewrite E. cbn [mbind result_bind].
    rewrite bool_decide_eq_true_2 by lia.
    eexists. split; [reflexivity|]. rewrite length_zip_with. lia.
Qed.

End FeatureProofs.

(** ** Laws of traced computations *)

Lemma traced_bind_pure {A B} (a : A) (f : A → traced B) :
  pure_step (Ok a) ≫= f = f a.
Proof. unfold pure_step. cbn. by destruct (f a). Qed.

Lemma traced_bind_ok {A B} (t : list event) (a : A) (f : A → traced B) :
  ((t, Ok a) : traced A) ≫= f = (t ++ (f a).1, (f a).2).
Proof. cbn. by destruct (f a). Qed.

Lemma traced_bind_raise {A B} (t : list event) (e : exn) (f : A → traced B) :
  ((t, Raise e) : traced A) ≫= f = (t, Raise e).
Proof. done. Qed.

Lemma traced_bind_ret {A B} (t : list event) (a : A) (b : B) :
  ((t, Ok a) : traced A) ≫= (λ _, mret b) = (t, Ok b).
Proof. cbn. by rewrite app_nil_r. Qed.

Lemma bind_pure_inv {A B} (r : result A) (f : A → traced B) t b :
  pure_step r ≫= f = (t, Ok b) → ∃ a, r = Ok a ∧ f a = (t, Ok b).
Proof.
  destruct r as [a|e]; [|done]. rewrite traced_bind_pure. by exists a.
Qed.

Lemma bind_invoke_inv {A B} ev (r : result A) (f : A → traced B) t b :
  invoke ev r ≫= f = (t, Ok b) →
  ∃ a t', r = Ok a ∧ f a = (t', Ok b) ∧ t = ev :: t'.
Proof.
  destruct r as [a|e]; [|done]. unfold invoke. rewrite traced_bind_ok.
  intros [= <- Hb]. exists a, (f a).1. split; [done|].
  split; [|done]. by destruct (f a) as [t' r']; simpl in *; subst.
Qed.

Lemma bind_traced_inv {A B} (m : traced A) (f : A → traced B) t b :
  m ≫= f = (t, Ok b) →
  ∃ a t1 t2, m = (t1, Ok a) ∧ f a = (t2, Ok b) ∧ t = t1 ++ t2.
Proof.
  destruct m as [t1 [a|e]]; [|done]. rewrite traced_bind_ok.
  intros [= <- Hb]. exists a, t1, (f a).1. split; [done|].
  split; [|done]. by destruct (f a) as [t' r']; simpl in *; subst.
Qed.

Lemma bind_trace_prefix {A B} (m : traced A) (f : A → traced B) :
  ∃ rest, (m ≫= f).1 = m.1 ++ rest.
Proof.
  destruct m as [t [a|e]].
  - rewrite traced_bind_ok. by eexists.
  - exists []. simpl. by rewrite app_nil_r.
Qed.

Section EncoderProofs.
Context {F : Type} `{FloatOps F}.

Lemma stacked_node_features_ok (p l o : bool)
    (sphi stheta rphi rtheta : list F) (ns nr : nat) :
  length sphi = length stheta → length rphi = length rtheta →
  ∃ sc rc snf rnf,
    node_feature_columns p l o sphi stheta = Ok sc
    ∧ node_feature_columns p l o rphi rtheta = Ok rc
    ∧ match sc with
      | [] => mret (np_zeros_width0 ns, np_zeros_width0 nr)
      | _ =>
          s ← np_stack_last sc;
          r ← np_stack_last rc;
          mret (s, r)
      end = Ok (snf, rnf).
Proof.
  intros Hs Hr.
  destruct (node_feature_columns_ok p l o sphi stheta Hs)
    as (sc & Esc & Hsc & Hsnil).
  destruct (node_feature_columns_ok p l o rphi rtheta Hr)
    as (rc & Erc & Hrc & Hrnil).
  exists sc, rc.
  destruct sc as [|c sc].
  - eexists _, _. split_and!; [done|done|reflexivity].
  - assert (Hrne : rc ≠ []).
    { intros Hnil. apply Hrnil in Hnil. apply Hsnil in Hnil. done. }
    destruct (np_stack_last_ok (c :: sc) _ ltac:(done) Hsc) as (s & Es & _).
    destruct (np_stack_last_ok rc _ Hrne Hrc) as (r & Er & _).
    exists s, r. split_and!; [done|done|].
    rewrite Es. cbn [mbind result_bind]. rewrite Er. reflexivity.
Qed.

Lemma bipartite_features_edges
    (slat slon : list F) senders (rlat rlon : list F) receivers
    (p l o : bool) (factor : option F) (lonloc latloc : bool)
    (tr : list event) (outcome : result (list (vec3 F))) :
  length slat = length slon → length rlat = length rlon →
  get_bipartite_relative_position_in_receiver_local_coordinates
    (lat_lon_deg_to_spherical slat slon).1
    (lat_lon_deg_to_spherical slat slon).2 senders
    (lat_lon_deg_to_spherical rlat rlon).1
    (lat_lon_deg_to_spherical rlat rlon).2 receivers latloc lonloc
  = (tr, outcome) →
  ∃ snf rnf,
    get_bipartite_graph_spatial_features slat slon senders rlat rlon receivers
      p l o true factor lonloc latloc
    = (tr,
       rel ← outcome;
       f ← match factor with
           | None => np_max (map vnorm rel)
           | Some f => Ok f
           end;
       mret (snf, rnf, map (normalized_edge_row f) rel)).
Proof.
  intros Hs Hr Hrel. unfold get_bipartite_graph_spatial_features.
  cbn [lat_lon_deg_to_spherical fst snd] in *.
  destruct (stacked_node_features_ok p l o
              (map np_deg2rad slon)
              (map (λ lat, np_deg2rad (f_of_Z 90 - lat)%fl) slat)
              (map np_deg2rad rlon)
              (map (λ lat, np_deg2rad (f_of_Z 90 - lat)%fl) rlat)
              (length slat) (length rlat))
    as (sc & rc & snf & rnf & Esc & Erc & Enf); [by rewrite !length_map..|].
  exists snf, rnf.
  rewrite Esc, traced_bind_pure, Erc, traced_bind_pure, Enf, traced_bind_pure.
  rewrite Hrel. destruct outcome as [rel|e]; [|done].
  rewrite traced_bind_ok.
  cbn beta. destruct factor as [f|].
  - cbn. by rewrite !app_nil_r.
  - destruct (np_max (map vnorm rel)) as [f|e] eqn:Emax;
      cbn; rewrite ?Emax; cbn; by rewrite ?app_nil_r.
Qed.

Lemma np_take_nil {A} (idx : list Z) (rows : list A) :
  np_take [] idx = Ok rows → idx = [] ∧ rows = [].
Proof.
  destruct idx as [|i idx]; [by intros [= <-]|].
  cbn [np_take]. unfold np_getitem, np_norm_index. simpl.
  repeat case_bool_decide; try lia. done.
Qed.

(** Without nodes there are no relative positions. *)
Lemma relative_position_of_no_nodes senders receivers (la lo : bool)
    (tr : list event) (rel : list (vec3 F)) :
  get_relative_position_in_receiver_local_coordinates [] [] senders receivers
    la lo = (tr, Ok rel) →
  rel = [].
Proof.
  unfold get_relative_position_in_receiver_local_coordinates.
  change (spherical_to_cartesian [] [] ≫= np_stack_xyz)
    with (Ok [] : result (list (vec3 F))).
  rewrite traced_bind_pure.
  destruct (negb (la || lo)) eqn:Eflags.
  - unfold pure_step. intros [= _ Hr].
    destruct (np_take [] senders) as [s|] eqn:Es; [|done].
    apply np_take_nil in Es as [_ ->].
    destruct (np_take [] receivers) as [r|] eqn:Er; [|done].
    apply np_take_nil in Er as [_ ->].
    by injection Hr as <-.
  - intros Hr.
    apply bind_invoke_inv in Hr as (ms & t' & Hms & Hr & _).
    assert (ms = []) as ->.
    { destruct la, lo; try discriminate Eflags; by injection Hms as <-. }
    unfold pure_step in Hr. injection Hr as _ Hr.
    destruct (np_take ([] : list (mat3 F)) receivers) as [ms|] eqn:Em;
      [|by cbn in Hr].
    apply np_take_nil in Em as [-> ->]. cbn in Hr.
    destruct (np_take [] senders) as [s|] eqn:Es; [|by cbn in Hr].
    apply np_take_nil in Es as [_ ->]. cbn in Hr.
    by injection Hr as <-.
Qed.

Lemma graph_features_edges
    (node_lat node_lon : list F) senders receivers
    (p l o : bool) (lonloc latloc enc : bool) (num_freqs : Z) (factor : F)
    (tr : list event) (outcome : result (list (vec3 F))) :
  length node_lat = length node_lon →
  get_relative_position_in_receiver_local_coordinates
    (lat_lon_deg_to_spherical node_lat node_lon).1
    (lat_lon_deg_to_spherical node_lat node_lon).2
    senders receivers latloc lonloc
  = (tr, outcome) →
  ∃ node_features,
    length node_features = length node_lat
    ∧ get_graph_spatial_features node_lat node_lon senders receivers
        p l o true lonloc latloc enc num_freqs factor
      = (tr,
         rel ← outcome;
         m ← np_max (map vnorm rel);
         if enc then
           nf ← sine_cosine_transform factor num_freqs node_features;
           ef ← sine_cosine_transform factor num_freqs
                  (map (normalized_edge_row m) rel);
           mret (nf, ef)
         else mret (node_features, map (normalized_edge_row m) rel)).
Proof.
  intros Hl Hrel. unfold get_graph_spatial_features.
  cbn [lat_lon_deg_to_spherical fst snd] in *.
  destruct (node_feature_columns_ok p l o
              (map np_deg2rad node_lon)
              (map (λ lat, np_deg2rad (f_of_Z 90 - lat)%fl) node_lat))
    as (sc & Esc & Hsc & _); [by rewrite !length_map|].
  rewrite length_map in Hsc.
  assert (Ecols : ∃ snf, match sc with
                         | [] => mret (np_zeros_width0 (length node_lat))
                         | _ => np_stack_last sc
                         end = Ok snf
                         ∧ length snf = length node_lat).
  { destruct sc as [|c sc].
    - eexists. split; [reflexivity|]. apply repeat_length.
    - destruct (np_stack_last_ok (c :: sc) _ ltac:(done) Hsc) as (s & Es & Hs).
      exists s. split; [done|lia]. }
  destruct Ecols as (snf & Ecols & Hlen).
  exists snf. split; [done|].
  rewrite Esc, traced_bind_pure, Ecols, traced_bind_pure.
  rewrite Hrel. destruct outcome as [rel|e]; [|done].
  rewrite traced_bind_ok. cbn beta.
  destruct (np_max (map vnorm rel)) as [m|e] eqn:Emax;
    cbn; rewrite ?Emax; cbn; [|by rewrite ?app_nil_r].
  destruct enc; cbn; [|by rewrite ?app_nil_r].
  destruct (sine_cosine_transform factor num_freqs snf) as [nf|e];
    cbn; [|by rewrite ?app_nil_r].
  destruct (sine_cosine_transform factor num_freqs
              (map (normalized_edge_row m) rel)) as [ef|e];
    cbn; by rewrite ?app_nil_r.
Qed.

End EncoderProofs.

(** ** Normalization bounds, in exact arithmetic *)

Lemma R_fold_max_spec (l : list R) (x : R) :
  let m := fold_left (λ m y, if (m <=? y)%fl then y else m) l x in
  m ∈ x :: l ∧ ∀ y, y ∈ x :: l → (y <= m)%R.
Proof.
  revert x. induction l as [|z l IH]; intros x; cbn [fold_left].
  - split; [apply list_elem_of_here|].
    intros y Hy. apply list_elem_of_singleton in Hy as ->. lra.
  - destruct (IH (if (x <=? z)%fl then z else x)) as [Hin Hle].
    cbn beta zeta in *. simpl fleb in *.
    destruct (Rle_dec x z) as [Hxz|Hxz].
    + split.
      * by apply list_elem_of_further.
      * intros y Hy. apply elem_of_cons in Hy as [->|Hy].
        -- specialize (Hle z (list_elem_of_here _ _)). lra.
        -- by apply Hle.
    + split.
      * apply elem_of_cons in Hin as [->|Hin];
          [apply list_elem_of_here|by do 2 apply list_elem_of_further].
      * intros y Hy. apply elem_of_cons in Hy as [->|Hy];
          [by apply Hle, list_elem_of_here|].
        apply elem_of_cons in Hy as [->|Hy].
        -- specialize (Hle x (list_elem_of_here _ _)). lra.
        -- by apply Hle, list_elem_of_further.
Qed.

Lemma R_np_max_spec (rel : list (vec3 R)) :
  rel ≠ [] →
  ∃ m, np_max (map vnorm rel) = Ok m ∧ is_max_edge_distance rel m.
Proof.
  destruct rel as [|r rel]; [done|]. intros _. cbn [map np_max].
  eexists. split; [reflexivity|].
  destruct (R_fold_max_spec (map vnorm rel) (vnorm r)) as [Hin Hle].
  split; [exact Hin|].
  intros r' Hr'. apply Hle.
  change (vnorm r' ∈ map vnorm (r :: rel)).
  apply list_elem_of_In, in_map, list_elem_of_In, Hr'.
Qed.

Lemma component_le_norm (x y z : R) :
  (0 <= vnorm (x, y, z))%R
  ∧ (Rabs x <= vnorm (x, y, z))%R
  ∧ (Rabs y <= vnorm (x, y, z))%R
  ∧ (Rabs z <= vnorm (x, y, z))%R.
Proof.
  unfold vnorm. simpl.
  pose proof (Rle_0_sqr x) as Hx. pose proof (Rle_0_sqr y) as Hy.
  pose proof (Rle_0_sqr z) as Hz. unfold Rsqr in *.
  split; [apply sqrt_pos|].
  split_and!.
  - rewrite <- (sqrt_Rsqr_abs x). apply sqrt_le_1_alt. unfold Rsqr. lra.
  - rewrite <- (sqrt_Rsqr_abs y). apply sqrt_le_1_alt. unfold Rsqr. lra.
  - rewrite <- (sqrt_Rsqr_abs z). apply sqrt_le_1_alt. unfold Rsqr. lra.
Qed.

Lemma div_bounds (m v : R) :
  (0 < m)%R → (Rabs v <= m)%R → (-1 <= v / m <= 1)%R.
Proof.
  intros Hm Hv.
  assert (Hb : (- m <= v <= m)%R).
  { unfold Rabs in Hv. destruct (Rcase_abs v); lra. }
  assert (Hinv : (0 < / m)%R) by (by apply Rinv_0_lt_compat).
  assert (Hmm : (m * / m = 1)%R) by (apply Rinv_r; lra).
  unfold Rdiv. split; nra.
Qed.

Lemma normalized_rows_max (rel : list (vec3 R)) (m : R) :
  is_max_edge_distance rel m → (0 < m)%R →
  normalized_rows (map (normalized_edge_row m) rel).
Proof.
  intros [Hin Hle] Hm. split.
  - apply list_elem_of_In, in_map_iff in Hin as (r & Hr & Hin).
    exists (normalized_edge_row m r). split.
    + by apply list_elem_of_In, in_map.
    + destruct r as [[x y] z]. cbn [normalized_edge_row lookup list_lookup].
      cbn [fdiv R_ops]. rewrite Hr. f_equal. apply Rinv_r. lra.
  - intros row Hrow.
    apply list_elem_of_In, in_map_iff in Hrow as ([[x y] z] & <- & Hr).
    apply list_elem_of_In in Hr. specialize (Hle _ Hr).
    destruct (component_le_norm x y z) as (H0 & Hx & Hy & Hz).
    cbn [normalized_edge_row]. cbn [fdiv R_ops].
    repeat (apply Forall_cons_2; [apply div_bounds; [done|]|]);
      [|lra|lra|lra|apply Forall_nil_2].
    rewrite Rabs_right; lra.
Qed.

Lemma is_max_edge_distance_unique (rel : list (vec3 R)) (m m' : R) :
  is_max_edge_distance rel m → is_max_edge_distance rel m' → m = m'.
Proof.
  intros [Hin Hle] [Hin' Hle'].
  apply list_elem_of_In, in_map_iff in Hin as (r & <- & Hr).
  apply list_elem_of_In, in_map_iff in Hin' as (r' & <- & Hr').
  apply list_elem_of_In in Hr, Hr'.
  specialize (Hle _ Hr'). specialize (Hle' _ Hr). lra.
Qed.

Lemma R_np_max_is_max (rel : list (vec3 R)) (m : R) :
  is_max_edge_distance rel m → np_max (map vnorm rel) = Ok m.
Proof.
  intros Hm. assert (Hne : rel ≠ []).
  { destruct Hm as [Hin _]. intros ->. by apply elem_of_nil in Hin. }
  destruct (R_np_max_spec rel Hne) as (m' & E & Hm').
  by rewrite E, (is_max_edge_distance_unique rel m m').
Qed.

(** C7 (as amended): when no explicit normalization factor is supplied and
    the edge set has a positive maximum relative distance [m], both encoders
    divide the relative distance and the relative position of every edge by
    [m]; then some edge has relative-distance feature exactly 1 and every
    edge feature lies in [-1, 1]. The bipartite encoder returns these
    normalized features, and so does [get_graph_spatial_features] without
    sine/cosine encoding; with sine/cosine encoding it returns the sines and
    cosines of the node features and of the normalized edge features at the
    encoding frequencies. When an explicit factor is supplied to the
    bipartite encoder, that factor is the divisor. *)
Theorem edge_feature_normalization :
  (∀ (slat slon : list R) senders (rlat rlon : list R) receivers
     (p l o lonloc latloc : bool) tr rel m,
     length slat = length slon → length rlat = length rlon →
     get_bipartite_relative_position_in_receiver_local_coordinates
       (lat_lon_deg_to_spherical slat slon).1
       (lat_lon_deg_to_spherical slat slon).2 senders
       (lat_lon_deg_to_spherical rlat rlon).1
       (lat_lon_deg_to_spherical rlat rlon).2 receivers latloc lonloc
     = (tr, Ok rel) →
     is_max_edge_distance rel m → (0 < m)%R →
     (∃ snf rnf,
        get_bipartite_graph_spatial_features slat slon senders
          rlat rlon receivers p l o true None lonloc latloc
        = (tr, Ok (snf, rnf, map (normalized_edge_row m) rel)))
     ∧ normalized_rows (map (normalized_edge_row m) rel))
  ∧ (∀ (slat slon : list R) senders (rlat rlon : list R) receivers
       (p l o lonloc latloc : bool) tr rel (factor : R),
       length slat = length slon → length rlat = length rlon →
       get_bipartite_relative_position_in_receiver_local_coordinates
         (lat_lon_deg_to_spherical slat slon).1
         (lat_lon_deg_to_spherical slat slon).2 senders
         (lat_lon_deg_to_spherical rlat rlon).1
         (lat_lon_deg_to_spherical rlat rlon).2 receivers latloc lonloc
       = (tr, Ok rel) →
       ∃ snf rnf,
         get_bipartite_graph_spatial_features slat slon senders
           rlat rlon receivers p l o true (Some factor) lonloc latloc
         = (tr, Ok (snf, rnf, map (normalized_edge_row factor) rel)))
  ∧ (∀ (node_lat node_lon : list R) senders receivers
       (p l o lonloc latloc sine_cosine_encoding : bool)
       num_freqs encoding_factor tr rel m,
       length node_lat = length node_lon →
       get_relative_position_in_receiver_local_coordinates
         (lat_lon_deg_to_spherical node_lat node_lon).1
         (lat_lon_deg_to_spherical node_lat node_lon).2
         senders receivers latloc lonloc
       = (tr, Ok rel) →
       is_max_edge_distance rel m → (0 < m)%R →
       (∃ node_features,
          length node_features = length node_lat
          ∧ get_graph_spatial_features node_lat node_lon senders receivers
              p l o true lonloc latloc sine_cosine_encoding
              num_freqs encoding_factor
            = (tr,
               Ok (if sine_cosine_encoding
                   then (sine_cosine_rows encoding_factor num_freqs
                           node_features,
                         sine_cosine_rows encoding_factor num_freqs
                           (map (normalized_edge_row m) rel))
                   else (node_features, map (normalized_edge_row m) rel))))
       ∧ normalized_rows (map (normalized_edge_row m) rel)).
Proof.
  split_and!.
  - intros slat slon senders rlat rlon receivers p l o lonloc latloc
      tr rel m Hs Hr Hrel Hmax Hm.
    split; [|by apply normalized_rows_max].
    destruct (bipartite_features_edges slat slon senders rlat rlon receivers
                p l o None lonloc latloc tr (Ok rel) Hs Hr Hrel)
      as (snf & rnf & E).
    exists snf, rnf. rewrite E. cbn [mbind result_bind].
    by rewrite (R_np_max_is_max rel m Hmax).
  - intros slat slon senders rlat rlon receivers p l o lonloc latloc
      tr rel factor Hs Hr Hrel.
    destruct (bipartite_features_edges slat slon senders rlat rlon receivers
                p l o (Some factor) lonloc latloc tr (Ok rel) Hs Hr Hrel)
      as (snf & rnf & E).
    exists snf, rnf. by rewrite E.
  - intros node_lat node_lon senders receivers p l o lonloc latloc enc
      num_freqs encoding_factor tr rel m Hl Hrel Hmax Hm.
    split; [|by apply normalized_rows_max].
    destruct (graph_features_edges node_lat node_lon senders receivers
                p l o lonloc latloc enc num_freqs encoding_factor tr (Ok rel)
                Hl Hrel)
      as (nf & Hlen & E).
    exists nf. split; [done|]. rewrite E. cbn [mbind result_bind].
    rewrite (R_np_max_is_max rel m Hmax). cbn [mbind result_bind].
    destruct enc; [|done].
    assert (Hrel_ne : rel ≠ []).
    { destruct Hmax as [Hin _]. intros ->. by apply elem_of_nil in Hin. }
    assert (Hnf : nf ≠ []).
    { intros ->. simpl in Hlen. symmetry in Hlen.
      apply nil_length_inv in Hlen as ->.
      destruct node_lon; [|done].
      by apply relative_position_of_no_nodes in Hrel. }
    destruct nf as [|row nf]; [done|].
    destruct rel as [|r rel]; [done|]. reflexivity.
Qed.

Lemma vnorm_vsub_self (p : vec3 R) : vnorm (vsub p p) = 0%R.
Proof.
  destruct p as [[x y] z]. unfold vnorm, vsub. simpl.
  replace ((x - x) * (x - x) + (y - y) * (y - y) + (z - z) * (z - z))%R
    with 0%R by ring.
  apply sqrt_0.
Qed.

(** C7 as stated fails on an edge set without edges, where the maximum of
    the empty distance array does not exist and the encoder raises; and on
    an edge whose sender and receiver coincide, where the maximum distance
    is zero and no relative-distance feature equals 1. *)
Lemma edge_features_of_degenerate_edge_sets :
  get_bipartite_graph_spatial_features [0%R] [0%R] [] [0%R] [0%R] []
    false true true true None true true
  = ([call_get_rotation_matrices true true], Raise ValueError)
  ∧ ∃ snf rnf rows,
      get_bipartite_graph_spatial_features [0%R] [0%R] [0] [0%R] [0%R] [0]
        false true true true None false false
      = ([], Ok (snf, rnf, rows))
      ∧ ∀ row, row ∈ rows → row !! 0%nat ≠ Some 1%R.
Proof.
  split; [reflexivity|].
  eexists _, _, _. split; [reflexivity|].
  intros row Hrow. apply list_elem_of_singleton in Hrow as ->.
  cbn [normalized_edge_row lookup list_lookup].
  set (p := ((fcos (np_deg2rad 0%R) * fsin (np_deg2rad (f_of_Z 90 - 0%R)%fl))%fl,
             (fsin (np_deg2rad 0%R) * fsin (np_deg2rad (f_of_Z 90 - 0%R)%fl))%fl,
             fcos (np_deg2rad (f_of_Z 90 - 0%R)%fl)) : vec3 R).
  change (Some (vnorm (vsub p p) / vnorm (vsub p p))%R ≠ Some 1%R).
  rewrite vnorm_vsub_self. intros [= Heq]. unfold Rdiv in Heq. lra.
Qed.

Lemma pole_to_pole_distance : (0 < vnorm pole_to_pole)%R.
Proof.
  unfold pole_to_pole, spherical_point, np_deg2rad, vsub, vnorm. simpl.
  replace ((90 - 90) * (PI / 180))%R with 0%R by lra.
  replace ((90 - -90) * (PI / 180))%R with PI by lra.
  replace (0 * (PI / 180))%R with 0%R by lra.
  rewrite sin_0, cos_0, sin_PI, cos_PI.
  apply sqrt_lt_R0. lra.
Qed.

Lemma edge_feature_normalization_witness :
  (length [90%R] = length [0%R]
   ∧ length [(-90)%R] = length [0%R]
   ∧ get_bipartite_relative_position_in_receiver_local_coordinates
       (lat_lon_deg_to_spherical [90%R] [0%R]).1
       (lat_lon_deg_to_spherical [90%R] [0%R]).2 [0]
       (lat_lon_deg_to_spherical [(-90)%R] [0%R]).1
       (lat_lon_deg_to_spherical [(-90)%R] [0%R]).2 [0] false false
     = ([], Ok [pole_to_pole])
   ∧ is_max_edge_distance [pole_to_pole] (vnorm pole_to_pole)
   ∧ (0 < vnorm pole_to_pole)%R
   ∧ (∃ snf rnf,
        get_bipartite_graph_spatial_features [90%R] [0%R] [0]
          [(-90)%R] [0%R] [0] false true true true None false false
        = ([], Ok (snf, rnf,
                   map (normalized_edge_row (vnorm pole_to_pole))
                     [pole_to_pole])))
   ∧ normalized_rows
       (map (normalized_edge_row (vnorm pole_to_pole)) [pole_to_pole]))
  ∧ (∃ snf rnf,
       get_bipartite_graph_spatial_features [90%R] [0%R] [0]
         [(-90)%R] [0%R] [0] false true true true (Some 3%R) false false
       = ([], Ok (snf, rnf, map (normalized_edge_row 3%R) [pole_to_pole])))
  ∧ (length [90%R; (-90)%R] = length [0%R; 0%R]
     ∧ get_relative_position_in_receiver_local_coordinates
         (lat_lon_deg_to_spherical [90%R; (-90)%R] [0%R; 0%R]).1
         (lat_lon_deg_to_spherical [90%R; (-90)%R] [0%R; 0%R]).2
         [0] [1] false false
       = ([], Ok [pole_to_pole])
     ∧ ∃ node_features,
         length node_features = length [90%R; (-90)%R]
         ∧ get_graph_spatial_features [90%R; (-90)%R] [0%R; 0%R] [0] [1]
             false true true true false false true 10 (12 / 10)%R
           = ([],
              Ok (sine_cosine_rows (12 / 10)%R 10 node_features,
                  sine_cosine_rows (12 / 10)%R 10
                    (map (normalized_edge_row (vnorm pole_to_pole))
                       [pole_to_pole])))).
Proof.
  assert (Hrel :
    get_bipartite_relative_position_in_receiver_local_coordinates
      (lat_lon_deg_to_spherical [90%R] [0%R]).1
      (lat_lon_deg_to_spherical [90%R] [0%R]).2 [0]
      (lat_lon_deg_to_spherical [(-90)%R] [0%R]).1
      (lat_lon_deg_to_spherical [(-90)%R] [0%R]).2 [0] false false
    = ([], Ok [pole_to_pole])) by reflexivity.
  assert (Hrel' :
    get_relative_position_in_receiver_local_coordinates
      (lat_lon_deg_to_spherical [90%R; (-90)%R] [0%R; 0%R]).1
      (lat_lon_deg_to_spherical [90%R; (-90)%R] [0%R; 0%R]).2
      [0] [1] false false
    = ([], Ok [pole_to_pole])) by reflexivity.
  assert (Hmax : is_max_edge_distance [pole_to_pole] (vnorm pole_to_pole)).
  { split; [apply list_elem_of_here|].
    intros r Hr. apply list_elem_of_singleton in Hr as ->. lra. }
  split_and!;
    [reflexivity|reflexivity|exact Hrel|exact Hmax
    |exact pole_to_pole_distance| | | |reflexivity|exact Hrel'|].
  - exact (proj1 (proj1 edge_feature_normalization
             [90%R] [0%R] [0] [(-90)%R] [0%R] [0]
             false true true false false [] [pole_to_pole]
             (vnorm pole_to_pole) eq_refl eq_refl Hrel Hmax
             pole_to_pole_distance)).
  - exact (proj2 (proj1 edge_feature_normalization
             [90%R] [0%R] [0] [(-90)%R] [0%R] [0]
             false true true false false [] [pole_to_pole]
             (vnorm pole_to_pole) eq_refl eq_refl Hrel Hmax
             pole_to_pole_distance)).
  - exact (proj1 (proj2 edge_feature_normalization)
             [90%R] [0%R] [0] [(-90)%R] [0%R] [0]
             false true true false false [] [pole_to_pole] 3%R
             eq_refl eq_refl Hrel).
  - exact (proj1 (proj2 (proj2 edge_feature_normalization)
             [90%R; (-90)%R] [0%R; 0%R] [0] [1]
             false true true false false true 10 (12 / 10)%R
             [] [pole_to_pole] (vnorm pole_to_pole)
             eq_refl Hrel' Hmax pole_to_pole_distance)).
Defined.

(** * The constructor of GraphGridMesh *)

Lemma np_take_valid {A} (a : list A) (idx : list Z) :
  Forall (valid_index (length a)) idx →
  ∃ rows, np_take a idx = Ok rows ∧ length rows = length idx.
Proof.
  induction idx as [|i idx IH]; intros Hv.
  - by exists [].
  - apply Forall_cons in Hv as [Hi Hv].
    destruct (IH Hv) as (rows & E & Hl).
    destruct (np_getitem_valid a i Hi) as [x Hx].
    exists (x :: rows). cbn [np_take]. rewrite Hx. cbn. rewrite E. cbn.
    split; [done|]. simpl. by rewrite Hl.
Qed.

Section ConstructorProofs.
Context {F : Type} `{FloatOps F}.

Lemma hierarchy_loop_wf n : ∀ (m : TriangularMesh F) rest,
  mesh_wf m → hierarchy_loop n m = Ok rest → Forall mesh_wf rest.
Proof.
  induction n as [|n IH]; intros m rest Hwf; simpl.
  - intros [= <-]. constructor.
  - destruct (two_split_spec m Hwf) as (m' & E & Hwf' & _). rewrite E. simpl.
    destruct (hierarchy_loop n m') as [rest'|e] eqn:E'; [|done].
    simpl. intros [= <-]. constructor; [done|]. by eapply IH.
Qed.

(** Every mesh of a hierarchy has valid, and at least twenty, faces. *)
Lemma hierarchy_meshes_wf (splits : Z) (ms : list (TriangularMesh F)) :
  get_hierarchy_of_triangular_meshes_for_sphere splits = Ok ms →
  ms ≠ [] ∧ Forall (λ m, mesh_wf m ∧ faces m ≠ []) ms.
Proof.
  intros Hms.
  destruct (hierarchy_spec (F:=F) splits) as (rest & E & _ & Hcons).
  rewrite E in Hms. injection Hms as <-. split; [done|].
  assert (Hwf : Forall mesh_wf (get_icosahedron (F:=F) :: rest)).
  { constructor; [apply get_icosahedron_wf|].
    unfold get_hierarchy_of_triangular_meshes_for_sphere in E.
    destruct (hierarchy_loop _ _) as [rest'|] eqn:E'; [|done].
    simpl in E. injection E as <-.
    eapply hierarchy_loop_wf; [apply get_icosahedron_wf|exact E']. }
  apply Forall_lookup. intros k m Hk. split.
  - by eapply (proj1 (Forall_lookup _ _) Hwf).
  - pose proof (consecutive_faces_count _ get_icosahedron Hcons eq_refl k m Hk)
      as Hlen.
    intros Hnil. rewrite Hnil in Hlen. simpl in Hlen.
    pose proof (Nat.pow_nonzero 4 k ltac:(done)). lia.
Qed.

Lemma faces_to_edges_valid (m : TriangularMesh F) :
  mesh_wf m →
  Forall (valid_index (length (vertices m))) (faces_to_edges (faces m)).1
  ∧ Forall (valid_index (length (vertices m))) (faces_to_edges (faces m)).2.
Proof.
  intros Hwf. unfold faces_to_edges. cbn [fst snd].
  assert (H0 : Forall (valid_index (length (vertices m)))
                 (map (λ f : face, f.1.1) (faces m))).
  { apply Forall_map. eapply Forall_impl; [exact Hwf|]. by intros ? (?&?&?). }
  assert (H1 : Forall (valid_index (length (vertices m)))
                 (map (λ f : face, f.1.2) (faces m))).
  { apply Forall_map. eapply Forall_impl; [exact Hwf|]. by intros ? (?&?&?). }
  assert (H2 : Forall (valid_index (length (vertices m)))
                 (map (λ f : face, f.2) (faces m))).
  { apply Forall_map. eapply Forall_impl; [exact Hwf|]. by intros ? (?&?&?). }
  split; repeat (apply Forall_app; split); done.
Qed.

Lemma get_max_edge_distance_returns (m : TriangularMesh F) :
  mesh_wf m → faces m ≠ [] →
  ∃ d, _get_max_edge_distance m = ([call_faces_to_edges], Ok d).
Proof.
  intros Hwf Hne. unfold _get_max_edge_distance.
  destruct (faces_to_edges_valid m Hwf) as [Hs Hr].
  destruct (edge_list_length (faces m)) as [Hls Hlr].
  destruct (faces_to_edges (faces m)) as [senders receivers] eqn:Ef.
  cbn [fst snd] in *.
  destruct (np_take_valid _ _ Hs) as (s & Es & Hlens).
  destruct (np_take_valid _ _ Hr) as (r & Er & Hlenr).
  unfold invoke. rewrite traced_bind_ok. cbn beta iota.
  rewrite Es. cbn [mbind result_bind]. rewrite Er. cbn [mbind result_bind].
  rewrite np_map2_same_length by lia. cbn [mbind result_bind].
  destruct (zip_with vsub s r) as [|d0 ds] eqn:Ez.
  - apply (f_equal length) in Ez. rewrite length_zip_with in Ez.
    destruct (faces m); [done|]. simpl in *. lia.
  - eexists. reflexivity.
Qed.

End ConstructorProofs.

Section ObjectProofs.
Context {F : Type} `{FloatOps F}.

Lemma getattr_setattr_eq (self : object F) name v :
  getattr (setattr self name v) name = Ok v.
Proof. unfold getattr, setattr. by rewrite lookup_insert_eq. Qed.

Lemma getattr_setattr_ne (self : object F) name name' v :
  name ≠ name' → getattr (setattr self name v) name' = getattr self name'.
Proof. intros Hne. unfold getattr, setattr. by rewrite lookup_insert_ne. Qed.

Lemma finest_mesh_last (self : object F) ms m :
  getattr self "meshes" = Ok (PyMeshes ms) → last ms = Some m →
  finest_mesh self = Ok m.
Proof.
  intros Hms Hl. unfold finest_mesh, get_meshes. rewrite Hms. cbn.
  by apply np_getitem_last.
Qed.

(** *** Invocations of a stage that returns *)

Lemma bipartite_relative_position_trace
    (sphi stheta : list F) senders (rphi rtheta : list F) receivers
    t rel :
  get_bipartite_relative_position_in_receiver_local_coordinates
    sphi stheta senders rphi rtheta receivers true true = (t, Ok rel) →
  t = [call_get_rotation_matrices true true].
Proof.
  unfold get_bipartite_relative_position_in_receiver_local_coordinates.
  intros Hr.
  apply bind_pure_inv in Hr as (spos & _ & Hr).
  apply bind_pure_inv in Hr as (rpos & _ & Hr).
  cbn [orb negb] in Hr.
  apply bind_invoke_inv in Hr as (ms & t' & _ & Hr & ->).
  unfold pure_step in Hr. by injection Hr as <- _.
Qed.

Lemma relative_position_trace
    (phi theta : list F) senders receivers t rel :
  get_relative_position_in_receiver_local_coordinates
    phi theta senders receivers true true = (t, Ok rel) →
  t = [call_get_rotation_matrices true true].
Proof.
  unfold get_relative_position_in_receiver_local_coordinates.
  intros Hr.
  apply bind_pure_inv in Hr as (pos & _ & Hr).
  cbn [orb negb] in Hr.
  apply bind_invoke_inv in Hr as (ms & t' & _ & Hr & ->).
  unfold pure_step in Hr. by injection Hr as <- _.
Qed.

Lemma bipartite_features_trace
    (slat slon : list F) senders (rlat rlon : list F) receivers
    (p l o : bool) factor t out :
  get_bipartite_graph_spatial_features slat slon senders rlat rlon receivers
    p l o true factor true true = (t, Ok out) →
  t = [call_get_rotation_matrices true true].
Proof.
  unfold get_bipartite_graph_spatial_features.
  cbn [lat_lon_deg_to_spherical]. intros Hf.
  apply bind_pure_inv in Hf as (sc & _ & Hf).
  apply bind_pure_inv in Hf as (rc & _ & Hf).
  apply bind_pure_inv in Hf as ([snf rnf] & _ & Hf).
  apply bind_traced_inv in Hf as (ef & t1 & t2 & He & Hf & ->).
  injection Hf as <- _. rewrite app_nil_r.
  apply bind_traced_inv in He as (rel & t3 & t4 & Hrel & He & ->).
  apply bipartite_relative_position_trace in Hrel as ->.
  apply bind_pure_inv in He as (f & _ & He).
  by injection He as <- _.
Qed.

Lemma graph_features_trace
    (node_lat node_lon : list F) senders receivers
    (p l o enc : bool) num_freqs factor t out :
  get_graph_spatial_features node_lat node_lon senders receivers
    p l o true true true enc num_freqs factor = (t, Ok out) →
  t = [call_get_rotation_matrices true true].
Proof.
  unfold get_graph_spatial_features.
  cbn [lat_lon_deg_to_spherical]. intros Hf.
  apply bind_pure_inv in Hf as (cols & _ & Hf).
  apply bind_pure_inv in Hf as (nf & _ & Hf).
  apply bind_traced_inv in Hf as (ef & t1 & t2 & He & Hf & ->).
  assert (t2 = []) as ->.
  { destruct enc; [|by injection Hf as <- _].
    apply bind_pure_inv in Hf as (nf' & _ & Hf).
    apply bind_pure_inv in Hf as (ef' & _ & Hf). by injection Hf as <- _. }
  rewrite app_nil_r.
  apply bind_traced_inv in He as (rel & t3 & t4 & Hrel & He & ->).
  apply relative_position_trace in Hrel as ->.
  apply bind_pure_inv in He as (f & _ & He).
  by injection He as <- _.
Qed.

End ObjectProofs.

Lemma bind_invoke_traced_inv {A B} ev (m : traced A) (f : A → traced B) t b :
  invoke_traced ev m ≫= f = (t, Ok b) →
  ∃ a t1 t2, m = (t1, Ok a) ∧ f a = (t2, Ok b) ∧ t = ev :: t1 ++ t2.
Proof.
  destruct m as [t1 r]. unfold invoke_traced. cbn [fst snd]. intros Hb.
  apply bind_traced_inv in Hb as (a & t1' & t2 & [= <- ->] & Hf & ->).
  by exists a, t1, t2.
Qed.

Section StageProofs.
Context {F : Type} `{FloatOps F}.
Variable closest :
  TriangularMesh F → list (vec3 F) → result (list Z).

Lemma get_kwargs_constructor (self : object F) kw :
  has_constructor_kwargs self → get_kwargs self = Ok kw →
  kw = (false, true, true, true, true, true).
Proof.
  unfold has_constructor_kwargs, get_kwargs. intros -> E. cbn in E.
  by injection E as <-.
Qed.

Lemma has_constructor_kwargs_setattr (self : object F) name v :
  name ≠ "_spatial_features_kwargs" →
  has_constructor_kwargs self → has_constructor_kwargs (setattr self name v).
Proof.
  unfold has_constructor_kwargs. intros Hne Hk.
  by rewrite getattr_setattr_ne.
Qed.

Lemma init_grid2mesh_graph_trace (self self' : object F) t :
  has_constructor_kwargs self →
  _init_grid2mesh_graph self = (t, Ok self') →
  t = [ call_radius_query_indices;
        call_get_bipartite_graph_spatial_features;
        call_get_rotation_matrices true true ]
  ∧ has_constructor_kwargs self'.
Proof.
  intros Hk Hs. unfold _init_grid2mesh_graph in Hs.
  apply bind_pure_inv in Hs as (_ & _ & Hs).
  apply bind_pure_inv in Hs as (_ & _ & Hs).
  apply bind_pure_inv in Hs as (grid_lat & _ & Hs).
  apply bind_pure_inv in Hs as (grid_lon & _ & Hs).
  apply bind_pure_inv in Hs as (mesh & _ & Hs).
  apply bind_pure_inv in Hs as (radius & _ & Hs).
  apply bind_invoke_inv in Hs as ([gi mi] & t1 & _ & Hs & ->).
  apply bind_pure_inv in Hs as (gnlat & _ & Hs).
  apply bind_pure_inv in Hs as (gnlon & _ & Hs).
  apply bind_pure_inv in Hs as (mnlat & _ & Hs).
  apply bind_pure_inv in Hs as (mnlon & _ & Hs).
  apply bind_pure_inv in Hs as (kw & Hkw & Hs).
  apply (get_kwargs_constructor _ _ Hk) in Hkw as ->.
  apply bind_invoke_traced_inv in Hs
    as ([[snf rnf] ef] & t2 & t3 & Hf & Hs & ->).
  apply bipartite_features_trace in Hf as ->.
  injection Hs as <- <-. split; [done|].
  by repeat apply has_constructor_kwargs_setattr.
Qed.

Lemma init_mesh_graph_trace (self self' : object F) t :
  has_constructor_kwargs self →
  _init_mesh_graph self = (t, Ok self') →
  t = [ call_merge_meshes;
        call_faces_to_edges;
        call_get_graph_spatial_features;
        call_get_rotation_matrices true true ]
  ∧ has_constructor_kwargs self'.
Proof.
  intros Hk Hs. unfold _init_mesh_graph in Hs.
  apply bind_pure_inv in Hs as (meshes & _ & Hs).
  apply bind_invoke_inv in Hs as (merged & t1 & _ & Hs & ->).
  apply bind_invoke_inv in Hs as ([senders receivers] & t2 & _ & Hs & ->).
  apply bind_pure_inv in Hs as (_ & _ & Hs).
  apply bind_pure_inv in Hs as (_ & _ & Hs).
  apply bind_pure_inv in Hs as (mnlat & _ & Hs).
  apply bind_pure_inv in Hs as (mnlon & _ & Hs).
  apply bind_pure_inv in Hs as (kw & Hkw & Hs).
  apply (get_kwargs_constructor _ _ Hk) in Hkw as ->.
  apply bind_invoke_traced_inv in Hs as ([nf ef] & t3 & t4 & Hf & Hs & ->).
  apply graph_features_trace in Hf as ->.
  injection Hs as <- <-. split; [done|].
  by repeat apply has_constructor_kwargs_setattr.
Qed.

Lemma init_mesh2grid_graph_trace (self self' : object F) t :
  has_constructor_kwargs self →
  _init_mesh2grid_graph closest self = (t, Ok self') →
  t = [ call_in_mesh_triangle_indices;
        call_get_bipartite_graph_spatial_features;
        call_get_rotation_matrices true true ]
  ∧ has_constructor_kwargs self'.
Proof.
  intros Hk Hs. unfold _init_mesh2grid_graph in Hs.
  apply bind_pure_inv in Hs as (grid_lat & _ & Hs).
  apply bind_pure_inv in Hs as (grid_lon & _ & Hs).
  apply bind_pure_inv in Hs as (mesh & _ & Hs).
  apply bind_invoke_inv in Hs as ([gi mi] & t1 & _ & Hs & ->).
  apply bind_pure_inv in Hs as (_ & _ & Hs).
  apply bind_pure_inv in Hs as (_ & _ & Hs).
  apply bind_pure_inv in Hs as (mnlat & _ & Hs).
  apply bind_pure_inv in Hs as (mnlon & _ & Hs).
  apply bind_pure_inv in Hs as (gnlat & _ & Hs).
  apply bind_pure_inv in Hs as (gnlon & _ & Hs).
  apply bind_pure_inv in Hs as (factor & _ & Hs).
  apply bind_pure_inv in Hs as (kw & Hkw & Hs).
  apply (get_kwargs_constructor _ _ Hk) in Hkw as ->.
  apply bind_invoke_traced_inv in Hs
    as ([[snf rnf] ef] & t2 & t3 & Hf & Hs & ->).
  apply bipartite_features_trace in Hf as ->.
  injection Hs as <- <-. split; [done|].
  by repeat apply has_constructor_kwargs_setattr.
Qed.

Lemma get_max_edge_distance_trace (m : TriangularMesh F) t d :
  _get_max_edge_distance m = (t, Ok d) → t = [call_faces_to_edges].
Proof.
  unfold _get_max_edge_distance. intros Hd.
  apply bind_invoke_inv in Hd as ([s r] & t1 & _ & Hd & ->).
  unfold pure_step in Hd. by injection Hd as <- _.
Qed.

Lemma init_mesh_properties_kwargs (self self' : object F) :
  has_constructor_kwargs self →
  init_mesh_properties self = Ok self' → has_constructor_kwargs self'.
Proof.
  intros Hk. unfold init_mesh_properties.
  destruct (finest_mesh self) as [mesh|]; [|done]. cbn [mbind result_bind].
  destruct (finest_mesh _) as [mesh'|]; [|done]. cbn [mbind result_bind].
  destruct (cartesian_to_spherical _ _ _) as [[phi theta]|]; [|done].
  cbn. intros [= <-]. by repeat apply has_constructor_kwargs_setattr.
Qed.

Lemma build_graphs_trace (self self' : object F) config t :
  build_graphs closest self config = (t, Ok self') →
  call_get_hierarchy :: t = full_pipeline_trace.
Proof.
  unfold build_graphs. intros Hb.
  apply bind_pure_inv in Hb as (mesh & _ & Hb).
  apply bind_traced_inv in Hb as (d & t0 & t1 & Hd & Hb & ->).
  apply get_max_edge_distance_trace in Hd as ->.
  apply bind_pure_inv in Hb as (self1 & Hmp & Hb).
  apply init_mesh_properties_kwargs in Hmp.
  2: { apply getattr_setattr_eq. }
  apply bind_traced_inv in Hb as (self2 & t2 & t3 & Hg2m & Hb & ->).
  apply init_grid2mesh_graph_trace in Hg2m as [-> Hk2].
  2: { unfold _init_grid_properties.
       by repeat apply has_constructor_kwargs_setattr. }
  apply bind_traced_inv in Hb as (self3 & t4 & t5 & Hmg & Hb & ->).
  apply init_mesh_graph_trace in Hmg as [-> Hk3].
  2: { by apply has_constructor_kwargs_setattr. }
  apply bind_traced_inv in Hb as (self4 & t6 & t7 & Hm2g & Hb & ->).
  apply init_mesh2grid_graph_trace in Hm2g as [-> Hk4].
  2: { by apply has_constructor_kwargs_setattr. }
  by injection Hb as <- _.
Qed.

End StageProofs.

Section EnterProofs.
Context {F : Type} `{FloatOps F}.
Variable closest :
  TriangularMesh F → list (vec3 F) → result (list Z).

(** Reading an attribute of an explicit chain of assignments. *)
Ltac solve_getattr :=
  unfold _init_grid_properties;
  rewrite ?getattr_setattr_ne by done; apply getattr_setattr_eq.

Lemma assert_not_none_float_array (self : object F) name a :
  getattr self name = Ok (PyFloatArray a) →
  assert_not_none self name = Ok tt
  ∧ get_float_array self name = Ok a.
Proof.
  intros Hg. unfold assert_not_none, get_float_array. by rewrite Hg.
Qed.

Lemma init_grid2mesh_graph_enters (self : object F) lat lon ms m r :
  getattr self "_grid_lat" = Ok (PyFloatArray lat) →
  getattr self "_grid_lon" = Ok (PyFloatArray lon) →
  getattr self "meshes" = Ok (PyMeshes ms) → last ms = Some m →
  getattr self "query_radius" = Ok (PyFloat r) →
  ∃ rest, (_init_grid2mesh_graph self).1 = call_radius_query_indices :: rest.
Proof.
  intros Hlat Hlon Hms Hlast Hr. unfold _init_grid2mesh_graph.
  destruct (assert_not_none_float_array _ _ _ Hlat) as [-> ->].
  destruct (assert_not_none_float_array _ _ _ Hlon) as [-> ->].
  rewrite (finest_mesh_last _ _ _ Hms Hlast).
  unfold get_float. rewrite Hr. cbn [mbind result_bind].
  rewrite !traced_bind_pure.
  apply (bind_trace_prefix (invoke call_radius_query_indices _)).
Qed.

Lemma init_mesh_properties_returns (self : object F) ms m :
  getattr self "meshes" = Ok (PyMeshes ms) → last ms = Some m →
  ∃ n lat lon,
    init_mesh_properties self
    = Ok (setattr (setattr (setattr self "mesh_num_nodes" n)
                     "_mesh_nodes_lat" lat)
            "_mesh_nodes_lon" lon).
Proof.
  intros Hms Hlast. unfold init_mesh_properties.
  rewrite (finest_mesh_last _ _ _ Hms Hlast). cbn [mbind result_bind].
  rewrite (finest_mesh_last _ ms m); [|by rewrite getattr_setattr_ne|done].
  cbn [mbind result_bind]. unfold cartesian_to_spherical.
  rewrite np_map2_same_length by (by rewrite !length_map).
  cbn. by eexists _, _, _.
Qed.

Lemma build_graphs_enters (config : GraphConfig F) ms :
  ms ≠ [] → Forall (λ m, mesh_wf m ∧ faces m ≠ []) ms →
  ∃ rest,
    (build_graphs closest (setattr ∅ "meshes" (PyMeshes ms)) config).1
    = call_faces_to_edges :: call_radius_query_indices :: rest.
Proof.
  intros Hne Hall.
  destruct (proj2 (last_is_Some ms) Hne) as [m Hlast].
  assert (Hm : mesh_wf m ∧ faces m ≠ []).
  { rewrite last_lookup in Hlast.
    by eapply (proj1 (Forall_lookup _ _) Hall). }
  destruct Hm as [Hwf Hfaces].
  destruct (get_max_edge_distance_returns m Hwf Hfaces) as [d Hd].
  unfold build_graphs.
  rewrite (finest_mesh_last _ ms m); [|apply getattr_setattr_eq|done].
  rewrite traced_bind_pure, Hd, traced_bind_ok. cbn [fst app].
  set (self1 := setattr (setattr (setattr _ "query_radius" _) _ _) _ _).
  destruct (init_mesh_properties_returns self1 ms m) as (n & lat & lon & E).
  { unfold self1. solve_getattr. }
  { done. }
  rewrite E, traced_bind_pure.
  set (self2 := _init_grid_properties _ _ _).
  edestruct (init_grid2mesh_graph_enters self2) as [rest Hrest].
  { unfold self2. solve_getattr. }
  { unfold self2. solve_getattr. }
  { unfold self2, self1. solve_getattr. }
  { exact Hlast. }
  { unfold self2, self1. solve_getattr. }
  match goal with
  | |- context [(_init_grid2mesh_graph self2 ≫= ?f).1] =>
      destruct (bind_trace_prefix (_init_grid2mesh_graph self2) f)
        as [rest' Hrest']
  end.
  rewrite Hrest', Hrest. by eexists.
Qed.

(** A grid without latitudes stops the construction at the radius query. *)
Lemma init_grid2mesh_graph_empty_grid (self : object F) lon ms m r :
  getattr self "_grid_lat" = Ok (PyFloatArray []) →
  getattr self "_grid_lon" = Ok (PyFloatArray lon) →
  getattr self "meshes" = Ok (PyMeshes ms) → last ms = Some m →
  getattr self "query_radius" = Ok (PyFloat r) →
  _init_grid2mesh_graph self = ([call_radius_query_indices], Raise ValueError).
Proof.
  intros Hlat Hlon Hms Hlast Hr. unfold _init_grid2mesh_graph.
  destruct (assert_not_none_float_array _ _ _ Hlat) as [-> ->].
  destruct (assert_not_none_float_array _ _ _ Hlon) as [-> ->].
  rewrite (finest_mesh_last _ _ _ Hms Hlast).
  unfold get_float. rewrite Hr. cbn [mbind result_bind].
  rewrite !traced_bind_pure. reflexivity.
Qed.

Lemma build_graphs_empty_grid (config : GraphConfig F) ms :
  ms ≠ [] → Forall (λ m, mesh_wf m ∧ faces m ≠ []) ms →
  grid_latitudes config = [] →
  build_graphs closest (setattr ∅ "meshes" (PyMeshes ms)) config
  = ([call_faces_to_edges; call_radius_query_indices], Raise ValueError).
Proof.
  intros Hne Hall Hgrid.
  destruct (proj2 (last_is_Some ms) Hne) as [m Hlast].
  assert (Hm : mesh_wf m ∧ faces m ≠ []).
  { rewrite last_lookup in Hlast.
    by eapply (proj1 (Forall_lookup _ _) Hall). }
  destruct Hm as [Hwf Hfaces].
  destruct (get_max_edge_distance_returns m Hwf Hfaces) as [d Hd].
  unfold build_graphs. unfold grid_latitudes in Hgrid. rewrite Hgrid.
  rewrite (finest_mesh_last _ ms m); [|apply getattr_setattr_eq|done].
  rewrite traced_bind_pure, Hd, traced_bind_ok. cbn [fst snd app].
  set (self1 := setattr (setattr (setattr _ "query_radius" _) _ _) _ _).
  destruct (init_mesh_properties_returns self1 ms m) as (n & lat & lon & E).
  { unfold self1. solve_getattr. }
  { done. }
  rewrite E, traced_bind_pure.
  set (self2 := _init_grid_properties _ _ _).
  assert (E2 : _init_grid2mesh_graph self2
               = ([call_radius_query_indices], Raise ValueError)).
  { eapply (init_grid2mesh_graph_empty_grid self2 _ ms m).
    - unfold self2. solve_getattr.
    - unfold self2. solve_getattr.
    - unfold self2, self1. solve_getattr.
    - exact Hlast.
    - unfold self2, self1. solve_getattr. }
  by rewrite E2.
Qed.

End EnterProofs.

Lemma existsb_is_none {F : Type} (vs : list (pyval F)) :
  existsb is_none vs = true ↔ PyNone ∈ vs.
Proof.
  rewrite existsb_exists. split.
  - intros (v & Hv & Hn). destruct v; try discriminate.
    by apply list_elem_of_In.
  - intros Hin. exists PyNone. split; [by apply list_elem_of_In|done].
Qed.

Lemma stored_arguments_fields {F : Type} (self : object F) (args : InitArgs F) :
  Forall (λ '(name, v), store_arguments self args !! name = Some v)
    (stored_fields args)
  ∧ dom (store_arguments self args)
    = list_to_set (map fst (stored_fields args)) ∪ dom self.
Proof.
  unfold store_arguments, stored_fields, setattr. split.
  - repeat (apply Forall_cons_2;
            [by rewrite ?lookup_insert_ne, lookup_insert_eq by done|]).
    apply Forall_nil_2.
  - rewrite !dom_insert_L. cbn [map fst list_to_set]. set_solver.
Qed.


Lemma negative_resolution_grid : grid_latitudes negative_resolution_config = [].
Proof.
  unfold grid_latitudes, np_arange_float, negative_resolution_config.
  cbn [resolution fceil R_ops fdiv fsub fadd f_of_Z].
  replace (- ((90 + -1 - -90) / -1))%R with (IZR 179) by (simpl; field).
  assert (Hz : 179 = Int_part (IZR 179)).
  { apply Int_part_spec. split; lra. }
  by rewrite <- Hz.
Qed.

Lemma provided_args_not_none : PyNone ∉ all_input_vars provided_args.
Proof.
  intros Hin. unfold all_input_vars, provided_args in Hin. cbn in Hin.
  repeat (apply elem_of_cons in Hin as [Hin|Hin]; [discriminate Hin|]).
  by apply elem_of_nil in Hin.
Qed.



(** * Further properties of the mesh hierarchy *)

Lemma get_child_vertex_key_sym i j :
  _get_child_vertex_key (i, j) = _get_child_vertex_key (j, i).
Proof.
  rewrite !get_child_vertex_key_unordered. apply unordered_edge_sym.
Qed.

Lemma get_new_child_vertex_index_recorded {F : Type} `{FloatOps F}
    (b : _ChildVerticesBuilder F) p k b' :
  get_new_child_vertex_index b p = Ok (k, b') →
  _child_vertices_index_mapping b' !! _get_child_vertex_key p = Some k.
Proof.
  unfold get_new_child_vertex_index.
  destruct (if bool_decide _ then _ else _) as [b1|e]; simpl; [|done].
  destruct (_child_vertices_index_mapping b1 !! _get_child_vertex_key p)
    as [i|] eqn:E; [|done].
  by intros [= <- <-].
Qed.

Lemma get_new_child_vertex_index_known {F : Type} `{FloatOps F}
    (b : _ChildVerticesBuilder F) p k :
  _child_vertices_index_mapping b !! _get_child_vertex_key p = Some k →
  get_new_child_vertex_index b p = Ok (k, b).
Proof.
  intros Hk. unfold get_new_child_vertex_index.
  rewrite bool_decide_eq_true_2 by (by apply elem_of_dom_2 in Hk).
  simpl. by rewrite Hk.
Qed.

(** X1: once [get_new_child_vertex_index] has answered for a pair of
    parents, asking again for the same pair, in either order, returns the
    same index and leaves the builder as it is: no second vertex is created
    for an edge. *)
Theorem child_vertex_index_shared {F : Type} `{FloatOps F}
    (b : _ChildVerticesBuilder F) (i j k : Z) (b' : _ChildVerticesBuilder F) :
  get_new_child_vertex_index b (i, j) = Ok (k, b') →
  get_new_child_vertex_index b' (j, i) = Ok (k, b')
  ∧ get_new_child_vertex_index b' (i, j) = Ok (k, b').
Proof.
  intros Hfirst.
  apply get_new_child_vertex_index_recorded in Hfirst.
  split; apply get_new_child_vertex_index_known; [|done].
  by rewrite <- get_child_vertex_key_sym.
Qed.

Lemma child_vertex_index_shared_witness :
  get_new_child_vertex_index (H:=erased_ops) two_parent_builder (0, 1)
  = Ok (2, two_parent_builder_with_child)
  ∧ get_new_child_vertex_index (H:=erased_ops)
      two_parent_builder_with_child (1, 0)
    = Ok (2, two_parent_builder_with_child)
  ∧ get_new_child_vertex_index (H:=erased_ops)
      two_parent_builder_with_child (0, 1)
    = Ok (2, two_parent_builder_with_child).
Proof.
  assert (Hfirst :
    get_new_child_vertex_index (H:=erased_ops) two_parent_builder (0, 1)
    = Ok (2, two_parent_builder_with_child)) by (vm_compute; reflexivity).
  split; [exact Hfirst|].
  exact (child_vertex_index_shared (H:=erased_ops) _ _ _ _ _ Hfirst).
Defined.

(** ** Subdivision and out-of-range face indices *)

Lemma np_getitem_invalid {A} (a : list A) i :
  ¬ valid_index (length a) i → np_getitem a i = Raise IndexError.
Proof.
  intros Hv. unfold np_getitem, np_norm_index, valid_index in *.
  repeat case_bool_decide; try lia. reflexivity.
Qed.

Lemma valid_index_dec n i : Decision (valid_index n i).
Proof. unfold valid_index. apply _. Defined.

Lemma unordered_edge_ends i j :
  (unordered_edge i j).1 = i ∧ (unordered_edge i j).2 = j
  ∨ (unordered_edge i j).1 = j ∧ (unordered_edge i j).2 = i.
Proof. unfold unordered_edge. simpl. lia. Qed.

Section SubdivisionErrors.
Context {F : Type} `{FloatOps F}.

Lemma get_new_child_vertex_index_invalid (b : _ChildVerticesBuilder F) i j :
  keys_valid b →
  ¬ (valid_index (length (_parent_vertices b)) i
     ∧ valid_index (length (_parent_vertices b)) j) →
  get_new_child_vertex_index b (i, j) = Raise IndexError.
Proof.
  intros Hkeys Hbad. unfold get_new_child_vertex_index.
  rewrite get_child_vertex_key_unordered.
  case_bool_decide as Hdom.
  - exfalso. apply Hbad. destruct (Hkeys _ Hdom) as [H1 H2].
    destruct (unordered_edge_ends i j) as [[E1 E2]|[E1 E2]];
      rewrite E1, E2 in *; done.
  - unfold _create_child_vertex. simpl.
    destruct (valid_index_dec (length (_parent_vertices b)) i) as [Hi|Hi].
    + destruct (np_getitem_valid _ _ Hi) as [x Hx]. rewrite Hx. simpl.
      rewrite np_getitem_invalid; [reflexivity|]. intros Hj. by apply Hbad.
    + rewrite (np_getitem_invalid _ i) by done. reflexivity.
Qed.

Lemma get_new_child_vertex_index_keys (b : _ChildVerticesBuilder F) i j k b' :
  keys_valid b →
  valid_index (length (_parent_vertices b)) i →
  valid_index (length (_parent_vertices b)) j →
  builder_inv b →
  get_new_child_vertex_index b (i, j) = Ok (k, b') →
  keys_valid b' ∧ builder_inv b' ∧ _parent_vertices b' = _parent_vertices b.
Proof.
  intros Hkeys Hi Hj Hinv Hrun.
  destruct (get_new_child_vertex_index_spec b i j Hinv Hi Hj)
    as (k0 & b0 & E & Hinv' & Hp & _ & _ & Hdom & _).
  rewrite E in Hrun. injection Hrun as <- <-.
  split_and!; [|done|done].
  intros key Hkey. rewrite Hdom in Hkey. rewrite Hp.
  apply elem_of_union in Hkey as [Hkey|Hkey]; [|by apply Hkeys].
  apply elem_of_singleton in Hkey as ->.
  destruct (unordered_edge_ends i j) as [[E1 E2]|[E1 E2]];
    rewrite E1, E2; done.
Qed.

Lemma face_valid_dec n (f : face) : Decision (face_valid n f).
Proof. unfold face_valid, valid_index. apply _. Defined.

Lemma split_faces_invalid fs : ∀ b : _ChildVerticesBuilder F,
  keys_valid b → builder_inv b →
  ¬ Forall (face_valid (length (_parent_vertices b))) fs →
  split_faces b fs = Raise IndexError.
Proof.
  induction fs as [|[[a b0] c] fs IH]; intros b Hkeys Hinv Hbad.
  - exfalso. apply Hbad, Forall_nil_2.
  - simpl.
    destruct (valid_index_dec (length (_parent_vertices b)) a) as [Ha|Ha];
      [|rewrite get_new_child_vertex_index_invalid; [done|done|tauto]].
    destruct (valid_index_dec (length (_parent_vertices b)) b0) as [Hb|Hb];
      [|rewrite get_new_child_vertex_index_invalid; [done|done|tauto]].
    destruct (get_new_child_vertex_index_spec b a b0 Hinv Ha Hb)
      as (i12 & b1 & E1 & _).
    destruct (get_new_child_vertex_index_keys _ _ _ _ _ Hkeys Ha Hb Hinv E1)
      as (Hkeys1 & Hinv1 & Hp1).
    rewrite E1. simpl.
    destruct (valid_index_dec (length (_parent_vertices b)) c) as [Hc|Hc];
      [|rewrite get_new_child_vertex_index_invalid;
        [done|done|rewrite Hp1; tauto]].
    rewrite <- Hp1 in Ha, Hb, Hc.
    destruct (get_new_child_vertex_index_spec b1 b0 c Hinv1 Hb Hc)
      as (i23 & b2 & E2 & _).
    destruct (get_new_child_vertex_index_keys _ _ _ _ _ Hkeys1 Hb Hc Hinv1 E2)
      as (Hkeys2 & Hinv2 & Hp2).
    rewrite E2. simpl.
    rewrite <- Hp2 in Ha, Hb, Hc.
    destruct (get_new_child_vertex_index_spec b2 c a Hinv2 Hc Ha)
      as (i31 & b3 & E3 & _).
    destruct (get_new_child_vertex_index_keys _ _ _ _ _ Hkeys2 Hc Ha Hinv2 E3)
      as (Hkeys3 & Hinv3 & Hp3).
    rewrite E3. simpl.
    rewrite IH; [done|done|done|].
    intros Hrest. apply Hbad. apply Forall_cons_2.
    + rewrite Hp2, Hp1 in Ha, Hb, Hc. by split_and!.
    + by rewrite Hp3, Hp2, Hp1 in Hrest.
Qed.

Lemma new_builder_keys_valid (parent : list (vec3 F)) :
  keys_valid (new_builder parent).
Proof. intros key Hkey. simpl in Hkey. set_solver. Qed.

End SubdivisionErrors.

(** X2: [_two_split_unit_sphere_triangle_faces] returns a mesh exactly when
    every index of every face is a valid row index of the vertex array;
    with any index out of range it raises [IndexError]. *)
Theorem two_split_returns_iff_faces_valid {F : Type} `{FloatOps F}
    (m : TriangularMesh F) :
  (mesh_wf m ↔ is_Ok (_two_split_unit_sphere_triangle_faces m))
  ∧ (¬ mesh_wf m →
     _two_split_unit_sphere_triangle_faces m = Raise IndexError).
Proof.
  assert (Hbad : ¬ mesh_wf m →
                 _two_split_unit_sphere_triangle_faces m = Raise IndexError).
  { intros Hwf. unfold _two_split_unit_sphere_triangle_faces.
    rewrite split_faces_invalid;
      [done|apply new_builder_keys_valid|apply new_builder_inv|done]. }
  split; [|exact Hbad]. split.
  - intros Hwf. destruct (two_split_spec m Hwf) as (m' & E & _). by exists m'.
  - intros [m' E].
    destruct (decide (Forall (face_valid (length (vertices m))) (faces m)))
      as [Hwf|Hwf]; [exact Hwf|].
    rewrite (Hbad Hwf) in E. discriminate.
Qed.

(** ** Every level indexes its own vertices *)

(** X3: in every hierarchy, every level has at least one face, and every
    index stored in a face of a level is a valid row index of that level's
    vertex array, so that reading the vertex it names never fails. *)
Theorem hierarchy_faces_index_vertices {F : Type} `{FloatOps F} (splits : Z) :
  ∃ ms : list (TriangularMesh F),
    get_hierarchy_of_triangular_meshes_for_sphere splits = Ok ms
    ∧ ∀ m, m ∈ ms →
        faces m ≠ []
        ∧ ∀ i j k, (i, j, k) ∈ faces m →
            is_Ok (np_getitem (vertices m) i)
            ∧ is_Ok (np_getitem (vertices m) j)
            ∧ is_Ok (np_getitem (vertices m) k).
Proof.
  destruct (hierarchy_spec (F:=F) splits) as (rest & E & _).
  eexists. split; [exact E|].
  destruct (hierarchy_meshes_wf splits _ E) as [_ Hall].
  intros m Hm.
  destruct (proj1 (Forall_forall _ _) Hall m Hm) as [Hwf Hne].
  split; [exact Hne|].
  intros i j k Hin.
  destruct (proj1 (Forall_forall _ _) Hwf _ Hin) as (Hi & Hj & Hk).
  simpl in Hi, Hj, Hk.
  split_and!; by apply np_getitem_valid.
Qed.

(** ** Size of the merged mesh *)

Lemma concat_faces_count {F : Type} (ms : list (TriangularMesh F)) : ∀ k0,
  (∀ k m, ms !! k = Some m → length (faces m) = (20 * 4 ^ (k0 + k))%nat) →
  (3 * length (concat (map faces ms)) + 20 * 4 ^ k0
   = 20 * 4 ^ (k0 + length ms))%nat.
Proof.
  induction ms as [|m ms IH]; intros k0 Hk; cbn [map concat length].
  - rewrite Nat.add_0_r. lia.
  - rewrite length_app.
    pose proof (Hk 0%nat m eq_refl) as H0. rewrite Nat.add_0_r in H0.
    assert (Hrest : ∀ k m', ms !! k = Some m' →
                    length (faces m') = (20 * 4 ^ (S k0 + k))%nat).
    { intros k m' Hm'. rewrite (Hk (S k) m' Hm'). f_equal. f_equal. lia. }
    specialize (IH (S k0) Hrest).
    replace (k0 + S (length ms))%nat with (S k0 + length ms)%nat by lia.
    rewrite Nat.pow_succ_r' in IH. lia.
Qed.

(** X4: for every depth [d >= 0], merging the hierarchy succeeds in exact
    arithmetic; the merged mesh has the vertices of the finest level and
    the faces of all levels, [20 * (4^(d+1) - 1) / 3] of them, and
    [faces_to_edges] turns them into [20 * (4^(d+1) - 1)] directed edges. *)
Theorem merged_mesh_edge_count (d : Z) :
  0 ≤ d →
  ∃ (ms : list (TriangularMesh R)) finest merged,
    get_hierarchy_of_triangular_meshes_for_sphere d = Ok ms
    ∧ last ms = Some finest
    ∧ merge_meshes ms = Ok merged
    ∧ vertices merged = vertices finest
    ∧ (3 * Z.of_nat (length (faces merged)) = 20 * (4 ^ (d + 1) - 1))
    ∧ Z.of_nat (length (faces_to_edges (faces merged)).1)
      = 20 * (4 ^ (d + 1) - 1)
    ∧ Z.of_nat (length (faces_to_edges (faces merged)).2)
      = 20 * (4 ^ (d + 1) - 1).
Proof.
  intros Hd.
  destruct (merge_meshes_hierarchy d) as (ms & finest & E & Hlast & Hmerge).
  destruct (hierarchy_spec (F:=R) d) as (rest & E' & Hlen & Hcons).
  rewrite E in E'. injection E' as ->.
  eexists _, finest, _. split; [exact E|]. split; [exact Hlast|].
  split; [exact Hmerge|]. split; [reflexivity|]. cbn [faces].
  set (fs := concat (map faces (get_icosahedron (F:=R) :: rest))).
  assert (Hcount :
    (3 * length fs + 20 * 4 ^ 0 = 20 * 4 ^ (0 + S (Z.to_nat d)))%nat).
  { rewrite <- Hlen.
    apply (concat_faces_count (get_icosahedron (F:=R) :: rest) 0).
    intros k m Hk.
    rewrite (consecutive_faces_count _ get_icosahedron Hcons eq_refl k m Hk).
    reflexivity. }
  assert (Hpow : 4 ^ (d + 1) = Z.of_nat (4 ^ S (Z.to_nat d))).
  { rewrite Nat2Z.inj_pow. f_equal. lia. }
  assert (H3 : 3 * Z.of_nat (length fs) = 20 * (4 ^ (d + 1) - 1)).
  { rewrite Hpow. rewrite Nat.pow_0_r, Nat.add_0_l in Hcount. lia. }
  split; [exact H3|].
  unfold faces_to_edges. cbn [fst snd].
  rewrite !length_app, !length_map. lia.
Qed.

Lemma merged_mesh_edge_count_witness :
  0 ≤ 1 ∧
  ∃ (ms : list (TriangularMesh R)) finest merged,
    get_hierarchy_of_triangular_meshes_for_sphere 1 = Ok ms
    ∧ last ms = Some finest
    ∧ merge_meshes ms = Ok merged
    ∧ vertices merged = vertices finest
    ∧ (3 * Z.of_nat (length (faces merged)) = 20 * (4 ^ (1 + 1) - 1))
    ∧ Z.of_nat (length (faces_to_edges (faces merged)).1)
      = 20 * (4 ^ (1 + 1) - 1)
    ∧ Z.of_nat (length (faces_to_edges (faces merged)).2)
      = 20 * (4 ^ (1 + 1) - 1).
Proof. split; [lia | apply (merged_mesh_edge_count 1); lia]. Defined.

(** * Coordinate conversions in exact arithmetic *)

Lemma R_rad2deg_deg2rad (x : R) : np_rad2deg (np_deg2rad x) = x.
Proof.
  unfold np_rad2deg, np_deg2rad. cbn [fmul fdiv f_of_Z fpi R_ops].
  pose proof PI_RGT_0. field. lra.
Qed.

Lemma R_deg2rad_rad2deg (x : R) : np_deg2rad (np_rad2deg x) = x.
Proof.
  unfold np_rad2deg, np_deg2rad. cbn [fmul fdiv f_of_Z fpi R_ops].
  pose proof PI_RGT_0. field. lra.
Qed.

Lemma R_mod_360_range (x : R) : (0 <= R_mod x 360 < 360)%R.
Proof.
  unfold R_mod. destruct (base_Int_part (x / 360)) as [Hle Hgt].
  assert (Hx : (x = x / 360 * 360)%R) by (field; lra).
  split; nra.
Qed.

Lemma R_mod_360_small (x : R) : (0 <= x < 360)%R → R_mod x 360 = x.
Proof.
  intros Hx. unfold R_mod.
  assert (Hz : 0 = Int_part (x / 360)).
  { apply Int_part_spec. simpl.
    assert (Hq : (x = x / 360 * 360)%R) by (field; lra).
    split; nra. }
  rewrite <- Hz. simpl. lra.
Qed.

(** X5: in exact arithmetic, [spherical_to_lat_lon] undoes
    [lat_lon_deg_to_spherical] up to the
    reduction of the longitude into [[0, 360)]: the latitudes come back
    unchanged, every longitude comes back reduced by a multiple of 360, and
    longitudes that already lie in [[0, 360)] come back unchanged. *)
Theorem lat_lon_round_trip (node_lat node_lon : list R) :
  ∃ lon',
    spherical_to_lat_lon (lat_lon_deg_to_spherical node_lat node_lon).1
                         (lat_lon_deg_to_spherical node_lat node_lon).2
    = (node_lat, lon')
    ∧ Forall2 (λ l l', (0 <= l' < 360)%R ∧ ∃ k : Z, l' = (l - IZR k * 360)%R)
        node_lon lon'
    ∧ (Forall (λ l, 0 <= l < 360)%R node_lon → lon' = node_lon).
Proof.
  exists (map (λ l, R_mod l 360) node_lon).
  unfold spherical_to_lat_lon, lat_lon_deg_to_spherical. cbn [fst snd].
  split_and!.
  - f_equal.
    + rewrite map_map. rewrite <- (map_id node_lat) at 2.
      apply map_ext. intros a. rewrite R_rad2deg_deg2rad.
      cbn [fsub f_of_Z R_ops]. lra.
    + rewrite map_map. apply map_ext. intros a.
      by rewrite R_rad2deg_deg2rad.
  - apply Forall2_fmap_r, Forall_Forall2_diag, Forall_forall.
    intros l _. split; [apply R_mod_360_range|].
    exists (Int_part (l / 360)). reflexivity.
  - intros Hr. rewrite <- (map_id node_lon) at 2.
    apply Forall_fmap_ext_1. eapply Forall_impl; [exact Hr|].
    intros l Hl. by apply R_mod_360_small.
Qed.

(** ** From Cartesian coordinates to angles and back *)

Lemma sqrt_unique (a b : R) : (0 <= b)%R → (b * b = a)%R → sqrt a = b.
Proof. intros Hb Hab. apply sqrt_lem_1; [nra|done|done]. Qed.

Lemma hypot_scaled (x y : R) :
  (x ≠ 0)%R →
  sqrt (x * x + y * y) = (Rabs x * sqrt (1 + (y / x)²))%R.
Proof.
  intros Hx. apply sqrt_unique.
  - apply Rmult_le_pos; [apply Rabs_pos|apply sqrt_pos].
  - assert (Hs : (0 <= 1 + (y / x)²)%R) by (pose proof (Rle_0_sqr (y / x)); lra).
    pose proof (sqrt_sqrt _ Hs) as Hss.
    assert (Ha : (Rabs x * Rabs x = x * x)%R).
    { unfold Rabs. destruct (Rcase_abs x); lra. }
    transitivity ((Rabs x * Rabs x) * (sqrt (1 + (y / x)²) * sqrt (1 + (y / x)²)))%R;
      [ring|].
    rewrite Hss, Ha. unfold Rsqr. field. exact Hx.
Qed.

Lemma cos_minus_PI (a : R) : cos (a - PI) = (- cos a)%R.
Proof. rewrite cos_minus, cos_PI, sin_PI. ring. Qed.

Lemma sin_minus_PI (a : R) : sin (a - PI) = (- sin a)%R.
Proof. rewrite sin_minus, cos_PI, sin_PI. ring. Qed.

(** The angle returned by [arctan2] points at [(x, y)]. *)
Lemma R_arctan2_polar (x y : R) :
  (cos (R_arctan2 y x) * sqrt (x * x + y * y) = x)%R
  ∧ (sin (R_arctan2 y x) * sqrt (x * x + y * y) = y)%R.
Proof.
  unfold R_arctan2.
  assert (Hs : ∀ t, (0 < sqrt (1 + t²))%R).
  { intros t. apply sqrt_lt_R0. pose proof (Rle_0_sqr t). lra. }
  destruct (Rlt_dec 0 x) as [Hpos|Hnpos].
  - rewrite hypot_scaled by lra. rewrite cos_atan, sin_atan.
    rewrite Rabs_right by lra. specialize (Hs (y / x)%R).
    split; field; lra.
  - destruct (Rlt_dec x 0) as [Hneg|Hnneg].
    + rewrite hypot_scaled by lra. rewrite Rabs_left by lra.
      specialize (Hs (y / x)%R).
      destruct (Rle_dec 0 y).
      * rewrite neg_cos, neg_sin, cos_atan, sin_atan. split; field; lra.
      * rewrite cos_minus_PI, sin_minus_PI, cos_atan, sin_atan.
        split; field; lra.
    + assert (x = 0)%R as -> by lra.
      replace (0 * 0 + y * y)%R with (y * y)%R by ring.
      destruct (Rlt_dec 0 y).
      * rewrite cos_PI2, sin_PI2, sqrt_square by lra. lra.
      * destruct (Rlt_dec y 0).
        -- replace (- PI / 2)%R with (- (PI / 2))%R by lra.
           rewrite cos_neg, sin_neg, cos_PI2, sin_PI2.
           replace (y * y)%R with ((- y) * (- y))%R by ring.
           rewrite sqrt_square by lra. lra.
        -- assert (y = 0)%R as -> by lra.
           rewrite cos_0, sin_0. replace (0 * 0)%R with 0%R by ring.
           rewrite sqrt_0. lra.
Qed.

Lemma unit_vector_round_trip (x y z : R) :
  on_unit_sphere (x, y, z) →
  spherical_point (R_arctan2 y x) (acos z) = (x, y, z).
Proof.
  unfold on_unit_sphere, spherical_point.
  cbn [vdot fmul fadd fcos fsin R_ops]. intros Hunit.
  assert (Hz : (-1 <= z <= 1)%R) by nra.
  rewrite sin_acos, cos_acos by done.
  replace (1 - z²)%R with (x * x + y * y)%R by (unfold Rsqr; lra).
  destruct (R_arctan2_polar x y) as [-> ->]. reflexivity.
Qed.

Lemma spherical_points_of_columns (vs : list (vec3 R)) :
  Forall on_unit_sphere vs →
  zip_with spherical_point
    (zip_with R_arctan2 (column_y vs) (column_x vs)) (map acos (column_z vs))
  = vs.
Proof.
  induction 1 as [|[[x y] z] vs Hv _ IH]; [done|].
  unfold column_x, column_y, column_z in *. cbn [map zip_with fst snd].
  rewrite IH. f_equal. by apply unit_vector_round_trip.
Qed.

(** X6: in exact arithmetic and on unit vectors, [spherical_to_cartesian]
    undoes
    [cartesian_to_spherical]: converting the coordinate columns of points
    of the unit sphere to angles succeeds, and the positions rebuilt from
    those angles are the points themselves, the poles included. *)
Theorem cartesian_spherical_round_trip (vs : list (vec3 R)) :
  Forall on_unit_sphere vs →
  ∃ phi theta,
    cartesian_to_spherical (column_x vs) (column_y vs) (column_z vs)
    = Ok (phi, theta)
    ∧ spherical_to_cartesian phi theta
      = Ok (column_x vs, column_y vs, column_z vs)
    ∧ node_positions phi theta = Ok vs.
Proof.
  intros Hunit.
  assert (Hlen : length (column_y vs) = length (column_x vs)).
  { unfold column_x, column_y. by rewrite !length_map. }
  exists (zip_with R_arctan2 (column_y vs) (column_x vs)),
         (map acos (column_z vs)).
  assert (Hpos : node_positions
                   (zip_with R_arctan2 (column_y vs) (column_x vs))
                   (map acos (column_z vs)) = Ok vs).
  { rewrite node_positions_same_length.
    - by rewrite spherical_points_of_columns.
    - unfold column_x, column_y, column_z.
      rewrite length_zip_with, !length_map. lia. }
  split_and!.
  - unfold cartesian_to_spherical.
    cbn [farctan2 farccos R_ops]. by rewrite np_map2_same_length.
  - revert Hpos. unfold node_positions.
    destruct (spherical_to_cartesian _ _) as [[[xs ys] zs]|e]; [|done].
    simpl. unfold np_stack_xyz. case_bool_decide as Hl; [|done].
    intros [= Hzip]. destruct Hl as [Hxy Hyz].
    f_equal. unfold column_x, column_y, column_z. rewrite <- Hzip.
    clear Hzip Hunit Hlen.
    revert ys zs Hxy Hyz.
    induction xs as [|x xs IH]; intros [|y ys] [|z zs] Hxy Hyz;
      simpl in *; try done.
    injection Hxy as Hxy. injection Hyz as Hyz.
    specialize (IH ys zs Hxy Hyz). injection IH as E1 E2 E3.
    by rewrite <- E1, <- E2, <- E3.
  - exact Hpos.
Qed.

Lemma cartesian_spherical_round_trip_witness :
  Forall on_unit_sphere (vertices polar_mesh)
  ∧ ∃ phi theta,
      cartesian_to_spherical (column_x (vertices polar_mesh))
        (column_y (vertices polar_mesh)) (column_z (vertices polar_mesh))
      = Ok (phi, theta)
      ∧ spherical_to_cartesian phi theta
        = Ok (column_x (vertices polar_mesh), column_y (vertices polar_mesh),
              column_z (vertices polar_mesh))
      ∧ node_positions phi theta = Ok (vertices polar_mesh).
Proof.
  split; [exact polar_mesh_on_unit_sphere|].
  exact (cartesian_spherical_round_trip _ polar_mesh_on_unit_sphere).
Defined.

(** ** The latitudes and longitudes stored for the mesh nodes *)

Lemma cos_period_Z (x : R) (k : Z) : cos (x + 2 * IZR k * PI) = cos x.
Proof.
  destruct (Z_le_gt_dec 0 k) as [Hk|Hk].
  - rewrite <- (Z2Nat.id k) by done. rewrite <- INR_IZR_INZ. apply cos_period.
  - rewrite <- (cos_period (x + 2 * IZR k * PI) (Z.to_nat (- k))).
    f_equal. rewrite INR_IZR_INZ, Z2Nat.id by lia. rewrite opp_IZR. ring.
Qed.

Lemma sin_period_Z (x : R) (k : Z) : sin (x + 2 * IZR k * PI) = sin x.
Proof.
  destruct (Z_le_gt_dec 0 k) as [Hk|Hk].
  - rewrite <- (Z2Nat.id k) by done. rewrite <- INR_IZR_INZ. apply sin_period.
  - rewrite <- (sin_period (x + 2 * IZR k * PI) (Z.to_nat (- k))).
    f_equal. rewrite INR_IZR_INZ, Z2Nat.id by lia. rewrite opp_IZR. ring.
Qed.

Lemma deg2rad_mod_360 (p : R) :
  ∃ k : Z, np_deg2rad (R_mod (np_rad2deg p) 360) = (p + 2 * IZR k * PI)%R.
Proof.
  exists (- Int_part (np_rad2deg p / 360)).
  unfold R_mod. set (q := Int_part _).
  rewrite opp_IZR.
  rewrite <- (R_deg2rad_rad2deg p) at 2.
  unfold np_deg2rad. cbn [fmul fdiv f_of_Z fpi R_ops].
  pose proof PI_RGT_0. field.
Qed.

Lemma spherical_point_stored (p t : R) :
  spherical_point
    (np_deg2rad (fmod (np_rad2deg p) (f_of_Z 360)))
    (np_deg2rad (f_of_Z 90 - (f_of_Z 90 - np_rad2deg t))%fl)
  = spherical_point p t.
Proof.
  cbn [fmod fsub f_of_Z R_ops].
  replace (90 - (90 - np_rad2deg t))%R with (np_rad2deg t) by lra.
  rewrite R_deg2rad_rad2deg.
  destruct (deg2rad_mod_360 p) as [k ->].
  unfold spherical_point. cbn [fcos fsin fmul R_ops].
  by rewrite cos_period_Z, sin_period_Z.
Qed.

Lemma stored_lat_lon_positions (phi theta : list R) :
  length phi = length theta →
  node_positions
    (lat_lon_deg_to_spherical (spherical_to_lat_lon phi theta).1
                              (spherical_to_lat_lon phi theta).2).1
    (lat_lon_deg_to_spherical (spherical_to_lat_lon phi theta).1
                              (spherical_to_lat_lon phi theta).2).2
  = node_positions phi theta.
Proof.
  intros Hlen.
  unfold spherical_to_lat_lon, lat_lon_deg_to_spherical. cbn [fst snd].
  rewrite !node_positions_same_length by (by rewrite ?length_map).
  f_equal. rewrite !map_map.
  revert theta Hlen. induction phi as [|p phi IH]; intros [|t theta] Hlen;
    simpl in *; try done.
  injection Hlen as Hlen. f_equal; [|by apply IH].
  apply spherical_point_stored.
Qed.

Lemma stored_lat_lon_ranges (phi theta : list R) :
  Forall (λ t, 0 <= t <= PI)%R theta →
  Forall (λ l, -90 <= l <= 90)%R (spherical_to_lat_lon phi theta).1
  ∧ Forall (λ l, 0 <= l < 360)%R (spherical_to_lat_lon phi theta).2.
Proof.
  intros Ht. unfold spherical_to_lat_lon. cbn [fst snd]. split.
  - apply Forall_fmap. eapply Forall_impl; [exact Ht|].
    intros t [H0 H1]. simpl.
    unfold np_rad2deg. cbn [fsub fmul fdiv f_of_Z fpi R_ops].
    pose proof PI_RGT_0 as Hpi.
    assert (Hq : (t * (180 / PI) = 180 * (t / PI))%R) by (field; lra).
    assert (0 <= t / PI <= 1)%R.
    { split; [apply Rle_mult_inv_pos; lra|].
      apply (Rmult_le_reg_r PI); [lra|].
      replace (t / PI * PI)%R with t by (field; lra). lra. }
    rewrite Hq. lra.
  - apply Forall_fmap, Forall_forall. intros p _. simpl.
    apply R_mod_360_range.
Qed.

(** X7: in exact arithmetic, when the vertices of the finest mesh lie on
    the unit sphere,
    [init_mesh_properties] stores the number of mesh nodes and, for every
    node, a latitude in [[-90, 90]] and a longitude in [[0, 360)] from
    which the feature encoders recover exactly the vertex positions. *)
Theorem mesh_node_lat_lon_recover_vertices
    (self : object R) (ms : list (TriangularMesh R)) (m : TriangularMesh R) :
  getattr self "meshes" = Ok (PyMeshes ms) →
  last ms = Some m →
  Forall on_unit_sphere (vertices m) →
  ∃ self' lat lon,
    init_mesh_properties self = Ok self'
    ∧ getattr self' "mesh_num_nodes"
      = Ok (PyInt (Z.of_nat (length (vertices m))))
    ∧ get_float_array self' "_mesh_nodes_lat" = Ok lat
    ∧ get_float_array self' "_mesh_nodes_lon" = Ok lon
    ∧ Forall (λ l, -90 <= l <= 90)%R lat
    ∧ Forall (λ l, 0 <= l < 360)%R lon
    ∧ node_positions (lat_lon_deg_to_spherical lat lon).1
                     (lat_lon_deg_to_spherical lat lon).2
      = Ok (vertices m).
Proof.
  intros Hmeshes Hlast Hunit.
  destruct (cartesian_spherical_round_trip _ Hunit)
    as (phi & theta & Hsph & _ & Hpos).
  unfold init_mesh_properties.
  rewrite (finest_mesh_last self ms m Hmeshes Hlast). cbn [mbind result_bind].
  rewrite (finest_mesh_last _ ms m); [|by rewrite getattr_setattr_ne|done].
  cbn [mbind result_bind].
  fold (column_x (vertices m)) (column_y (vertices m)) (column_z (vertices m)).
  rewrite Hsph. cbn [mbind result_bind].
  destruct (spherical_to_lat_lon phi theta) as [lat lon] eqn:Elatlon.
  cbn [mret result_ret].
  eexists _, lat, lon. split; [reflexivity|].
  assert (Hlen : length phi = length theta).
  { revert Hsph. unfold cartesian_to_spherical.
    rewrite np_map2_same_length
      by (unfold column_x, column_y; by rewrite !length_map).
    intros [= <- <-]. unfold column_x, column_y, column_z.
    rewrite length_zip_with, !length_map. lia. }
  assert (Htheta : Forall (λ t, 0 <= t <= PI)%R theta).
  { revert Hsph. unfold cartesian_to_spherical.
    destruct (np_map2 _ _ _); [|done]. intros [= _ <-].
    apply Forall_fmap, Forall_forall. intros z _. apply acos_bound. }
  destruct (stored_lat_lon_ranges phi theta Htheta) as [Hlat Hlon].
  pose proof (stored_lat_lon_positions phi theta Hlen) as Hstored.
  rewrite Elatlon in Hlat, Hlon, Hstored. cbn [fst snd] in Hlat, Hlon, Hstored.
  split_and!.
  - rewrite ?getattr_setattr_ne by done. apply getattr_setattr_eq.
  - unfold get_float_array.
    rewrite ?getattr_setattr_ne by done. by rewrite getattr_setattr_eq.
  - unfold get_float_array. by rewrite getattr_setattr_eq.
  - exact Hlat.
  - exact Hlon.
  - by rewrite Hstored.
Qed.

Lemma mesh_node_lat_lon_recover_vertices_witness :
  getattr polar_object "meshes" = Ok (PyMeshes [polar_mesh])
  ∧ last [polar_mesh] = Some polar_mesh
  ∧ Forall on_unit_sphere (vertices polar_mesh)
  ∧ ∃ self' lat lon,
      init_mesh_properties polar_object = Ok self'
      ∧ getattr self' "mesh_num_nodes"
        = Ok (PyInt (Z.of_nat (length (vertices polar_mesh))))
      ∧ get_float_array self' "_mesh_nodes_lat" = Ok lat
      ∧ get_float_array self' "_mesh_nodes_lon" = Ok lon
      ∧ Forall (λ l, -90 <= l <= 90)%R lat
      ∧ Forall (λ l, 0 <= l < 360)%R lon
      ∧ node_positions (lat_lon_deg_to_spherical lat lon).1
                       (lat_lon_deg_to_spherical lat lon).2
        = Ok (vertices polar_mesh).
Proof.
  assert (Hm : getattr polar_object "meshes" = Ok (PyMeshes [polar_mesh]))
    by apply getattr_setattr_eq.
  split; [exact Hm|]. split; [reflexivity|]. split; [exact polar_mesh_on_unit_sphere|].
  exact (mesh_node_lat_lon_recover_vertices polar_object [polar_mesh]
           polar_mesh Hm eq_refl polar_mesh_on_unit_sphere).
Defined.

(** ** The grid nodes and the grid positions of the spatial queries *)

Section GridProofs.
Context {F : Type} `{FloatOps F}.

Lemma grid_rows_positions (lat : F) (lons : list F) :
  zip_with spherical_point (map np_deg2rad lons)
    (map (λ l, np_deg2rad (f_of_Z 90 - l)%fl) (map (λ _, lat) lons))
  = map (λ phi, (fcos phi * fsin (np_deg2rad (f_of_Z 90 - lat)%fl),
                 fsin phi * fsin (np_deg2rad (f_of_Z 90 - lat)%fl),
                 fcos (np_deg2rad (f_of_Z 90 - lat)%fl))%fl)
      (map np_deg2rad lons).
Proof.
  induction lons as [|l lons IH]; [done|].
  cbn [map zip_with]. by rewrite IH.
Qed.

Lemma grid_nodes_positions (lats lons : list F) :
  zip_with spherical_point
    (map np_deg2rad (concat (map (λ _, lons) lats)))
    (map (λ l, np_deg2rad (f_of_Z 90 - l)%fl)
       (concat (map (λ lat, map (λ _, lat) lons) lats)))
  = grid_positions_of lats lons.
Proof.
  unfold grid_positions_of, _grid_lat_lon_to_coordinates.
  induction lats as [|lat lats IH]; [done|].
  cbn [map concat]. rewrite !map_app.
  rewrite zip_with_app by (by rewrite !length_map).
  rewrite IH. f_equal. apply grid_rows_positions.
Qed.

Lemma grid_nodes_length (lats lons : list F) :
  length (concat (map (λ lat, map (λ _, lat) lons) lats))
  = (length lats * length lons)%nat
  ∧ length (concat (map (λ _, lons) lats)) = (length lats * length lons)%nat.
Proof.
  induction lats as [|lat lats [IH1 IH2]]; [done|].
  cbn [map concat]. rewrite !length_app, !length_map, IH1, IH2. simpl. lia.
Qed.

End GridProofs.

(** X8: [_init_grid_properties] numbers the grid nodes in the order in
    which the spatial queries number the grid positions. It stores one
    latitude and one longitude per node, [num_lat * num_lon] of each, and
    the position that the feature encoders compute for node [k] is entry
    [k] of the flattened grid of [_grid_lat_lon_to_coordinates]. *)
Theorem grid_nodes_match_grid_positions {F : Type} `{FloatOps F}
    (self : object F) (grid_lat grid_lon : list F) :
  ∃ nodes_lat nodes_lon,
    get_float_array (_init_grid_properties self grid_lat grid_lon)
      "_grid_nodes_lat" = Ok nodes_lat
    ∧ get_float_array (_init_grid_properties self grid_lat grid_lon)
        "_grid_nodes_lon" = Ok nodes_lon
    ∧ getattr (_init_grid_properties self grid_lat grid_lon) "grid_num_nodes"
      = Ok (PyInt (Z.of_nat (length nodes_lat)))
    ∧ length nodes_lat = (length grid_lat * length grid_lon)%nat
    ∧ length nodes_lon = (length grid_lat * length grid_lon)%nat
    ∧ node_positions (lat_lon_deg_to_spherical nodes_lat nodes_lon).1
                     (lat_lon_deg_to_spherical nodes_lat nodes_lon).2
      = Ok (grid_positions_of grid_lat grid_lon).
Proof.
  destruct (grid_nodes_length grid_lat grid_lon) as [Hlat Hlon].
  eexists _, _. unfold _init_grid_properties, get_float_array.
  split_and!.
  - rewrite getattr_setattr_eq. reflexivity.
  - rewrite getattr_setattr_ne by done. rewrite getattr_setattr_eq.
    reflexivity.
  - rewrite !getattr_setattr_ne by done. rewrite getattr_setattr_eq.
    rewrite Hlat. do 2 f_equal. lia.
  - exact Hlat.
  - exact Hlon.
  - unfold lat_lon_deg_to_spherical. cbn [fst snd].
    rewrite node_positions_same_length
      by (rewrite !length_map; congruence).
    f_equal. apply grid_nodes_positions.
Qed.

(** * Further properties of the rotation engine and the encoders *)

Lemma valid_indices_decision n idx : Decision (valid_indices n idx).
Proof. apply Forall_dec. intros i. apply valid_index_dec. Defined.

Lemma np_getitem_elem {A} (a : list A) i x :
  np_getitem a i = Ok x → x ∈ a.
Proof.
  unfold np_getitem.
  destruct (np_norm_index (length a) i ≫= _) as [y|] eqn:E; [|done].
  intros [= <-].
  destruct (np_norm_index (length a) i) as [n|]; [|done]. simpl in E.
  by eapply list_elem_of_lookup_2.
Qed.

Lemma np_take_out_of_range {A} (a : list A) idx :
  ¬ valid_indices (length a) idx → np_take a idx = Raise IndexError.
Proof.
  induction idx as [|i idx IH]; intros Hbad.
  - exfalso. apply Hbad, Forall_nil_2.
  - simpl.
    destruct (valid_index_dec (length a) i) as [Hi|Hi].
    + destruct (np_getitem_valid a i Hi) as [x ->]. simpl.
      rewrite IH; [done|]. intros Hrest. apply Hbad. by apply Forall_cons_2.
    + by rewrite np_getitem_invalid.
Qed.

Lemma np_take_elem {A} (a : list A) idx rows :
  np_take a idx = Ok rows → Forall (λ x, x ∈ a) rows.
Proof.
  revert rows. induction idx as [|i idx IH]; intros rows; simpl.
  - intros [= <-]. apply Forall_nil_2.
  - destruct (np_getitem a i) as [x|] eqn:Ex; [|done]. simpl.
    destruct (np_take a idx) as [xs|]; [|done]. simpl.
    intros [= <-]. apply Forall_cons_2; [by eapply np_getitem_elem|by apply IH].
Qed.

(** ** Rotation matrices preserve the scalar product *)

Lemma elementary_rotation_preserves_dot (ax : axis) (a : R) :
  preserves_dot (elementary_rotation ax a).
Proof.
  intros [[ux uy] uz] [[vx vy] vz].
  pose proof (sin2_cos2 a) as Hsc. unfold Rsqr in Hsc.
  destruct ax; unfold elementary_rotation, mat_vec, vdot;
    cbn [fmul fadd fneg fcos fsin f_of_Z R_ops].
  - transitivity (ux * vx + (sin a * sin a + cos a * cos a) * (uy * vy + uz * vz))%R;
      [ring|rewrite Hsc; ring].
  - transitivity ((sin a * sin a + cos a * cos a) * (ux * vx + uz * vz) + uy * vy)%R;
      [ring|rewrite Hsc; ring].
  - transitivity ((sin a * sin a + cos a * cos a) * (ux * vx + uy * vy) + uz * vz)%R;
      [ring|rewrite Hsc; ring].
Qed.

Lemma mat_mul_preserves_dot (a b : mat3 R) :
  preserves_dot a → preserves_dot b → preserves_dot (mat_mul a b).
Proof.
  intros Ha Hb u v. rewrite !mat_vec_mul. by rewrite Ha, Hb.
Qed.

Lemma from_euler_preserves_dot (seq : list axis) : ∀ angles : list R,
  preserves_dot (from_euler seq angles).
Proof.
  induction seq as [|ax seq IH]; intros angles.
  - apply (elementary_rotation_preserves_dot ax_z).
  - destruct angles as [|a angles].
    + destruct seq; apply (elementary_rotation_preserves_dot ax_z).
    + destruct seq as [|ax' seq'].
      * apply (elementary_rotation_preserves_dot ax a).
      * change (preserves_dot
                  (mat_mul (from_euler (ax' :: seq') angles)
                           (elementary_rotation ax a))).
        apply mat_mul_preserves_dot;
          [apply IH|apply elementary_rotation_preserves_dot].
Qed.

Lemma rotation_matrices_preserve_dot (phi theta : list R) (lat lon : bool) ms :
  length phi = length theta →
  get_rotation_matrices_to_local_coordinates phi theta lat lon = Ok ms →
  Forall preserves_dot ms ∧ length ms = length phi.
Proof.
  intros Hlen. unfold get_rotation_matrices_to_local_coordinates.
  destruct lon, lat; cbn [andb].
  - unfold np_stack_angles.
    rewrite np_stack_last_two by (by rewrite !length_map).
    intros Hms.
    change (Ok (map (from_euler [ax_z; ax_y])
                  (zip_with (λ x y, [x; y]) (map fneg phi)
                     (map (λ t, (- t + fpi / f_of_Z 2)%fl) theta)))
            = Ok ms) in Hms.
    injection Hms as <-. split.
    + apply Forall_fmap, Forall_true. intros angles.
      exact (from_euler_preserves_dot [ax_z; ax_y] angles).
    + rewrite length_map, length_zip_with, !length_map. lia.
  - intros Hms.
    change (Ok (map (λ a, from_euler [ax_z] [a]) (map fneg phi)) = Ok ms)
      in Hms.
    injection Hms as <-. split.
    + apply Forall_fmap, Forall_true. intros a.
      exact (from_euler_preserves_dot [ax_z] [a]).
    + by rewrite !length_map.
  - unfold np_stack_angles.
    rewrite np_stack_last_three by (by rewrite !length_map).
    intros Hms.
    change (Ok (map (from_euler [ax_z; ax_y; ax_z])
                  (zip_with (λ x yz, x :: yz) (map fneg phi)
                     (zip_with (λ y z, [y; z])
                        (map (λ t, (- t + fpi / f_of_Z 2)%fl) theta)
                        (map fneg (map fneg phi)))))
            = Ok ms) in Hms.
    injection Hms as <-. split.
    + apply Forall_fmap, Forall_true. intros angles.
      exact (from_euler_preserves_dot [ax_z; ax_y; ax_z] angles).
    + rewrite length_map, !length_zip_with, !length_map. lia.
  - done.
Qed.

Lemma vnorm_dot (w : vec3 R) : vnorm w = sqrt (vdot w w).
Proof. by destruct w as [[x y] z]. Qed.

Lemma mat_vec_sub (M : mat3 R) (s r : vec3 R) :
  vsub (mat_vec M s) (mat_vec M r) = mat_vec M (vsub s r).
Proof.
  destruct M as [[[[a00 a01] a02] [[a10 a11] a12]] [[a20 a21] a22]].
  destruct s as [[sx sy] sz], r as [[rx ry] rz].
  unfold vsub, mat_vec, vdot. cbn [fmul fadd fsub R_ops].
  vec3_eq; ring.
Qed.

Lemma rotated_difference_norm (M : mat3 R) (s r : vec3 R) :
  preserves_dot M →
  vnorm (vsub (mat_vec M s) (mat_vec M r)) = vnorm (vsub s r).
Proof.
  intros HM. rewrite mat_vec_sub, !vnorm_dot. by rewrite HM.
Qed.

Lemma rotated_differences_norm (ms : list (mat3 R)) : ∀ sp rp : list (vec3 R),
  Forall preserves_dot ms →
  length ms = length sp → length ms = length rp →
  map vnorm (zip_with vsub (zip_with mat_vec ms sp) (zip_with mat_vec ms rp))
  = map vnorm (zip_with vsub sp rp).
Proof.
  induction ms as [|M ms IH]; intros [|s sp] [|r rp] HM Hs Hr;
    simpl in *; try done.
  apply Forall_cons in HM as [HM HMs].
  f_equal; [by apply rotated_difference_norm|].
  apply IH; [done|lia|lia].
Qed.

(** ** Relative positions: alignment changes directions, not distances *)

Lemma np_take_same_length {A} (a : list A) idx rows :
  np_take a idx = Ok rows → length rows = length idx.
Proof.
  revert rows. induction idx as [|i idx IH]; intros rows; simpl.
  - by intros [= <-].
  - destruct (np_getitem a i) as [x|]; [|done]. simpl.
    destruct (np_take a idx) as [xs|]; [|done]. simpl.
    intros [= <-]. simpl. f_equal. by apply IH.
Qed.

Section RelativePositionOutcome.
Context {F : Type} `{FloatOps F}.

Lemma rotation_matrices_returned (phi theta : list F) (lat lon : bool) :
  length phi = length theta → lat || lon = true →
  ∃ ms, get_rotation_matrices_to_local_coordinates phi theta lat lon = Ok ms
        ∧ length ms = length phi.
Proof.
  intros Hlen Hflag. unfold get_rotation_matrices_to_local_coordinates.
  destruct lon, lat; cbn [andb]; try done; unfold np_stack_angles.
  - rewrite np_stack_last_two by (by rewrite !length_map).
    eexists. split; [reflexivity|].
    rewrite length_map, length_zip_with, !length_map. lia.
  - eexists. split; [reflexivity|]. by rewrite !length_map.
  - rewrite np_stack_last_three by (by rewrite !length_map).
    eexists. split; [reflexivity|].
    rewrite length_map, !length_zip_with, !length_map. lia.
Qed.

(** The outcome of the bipartite relative-position function on index
    arrays of equal length: with all indices in range, the differences of
    the sender and receiver positions, rotated edge by edge with the
    receiver's matrix when an alignment is requested; otherwise
    [IndexError]. *)
Lemma bipartite_relative_positions_outcome
    (sphi stheta : list F) senders (rphi rtheta : list F) receivers
    (lat lon : bool) :
  length sphi = length stheta → length rphi = length rtheta →
  length senders = length receivers →
  (valid_indices (length sphi) senders
   ∧ valid_indices (length rphi) receivers →
   ∃ s r rel,
     np_take (zip_with spherical_point sphi stheta) senders = Ok s
     ∧ np_take (zip_with spherical_point rphi rtheta) receivers = Ok r
     ∧ length s = length senders ∧ length r = length senders
     ∧ (get_bipartite_relative_position_in_receiver_local_coordinates
          sphi stheta senders rphi rtheta receivers lat lon).2 = Ok rel
     ∧ length rel = length senders
     ∧ if lat || lon then
         ∃ ms erm,
           get_rotation_matrices_to_local_coordinates rphi rtheta lat lon
           = Ok ms
           ∧ np_take ms receivers = Ok erm
           ∧ length erm = length senders
           ∧ rel = zip_with vsub (zip_with mat_vec erm s)
                                 (zip_with mat_vec erm r)
       else rel = zip_with vsub s r)
  ∧ (¬ (valid_indices (length sphi) senders
        ∧ valid_indices (length rphi) receivers) →
     (get_bipartite_relative_position_in_receiver_local_coordinates
        sphi stheta senders rphi rtheta receivers lat lon).2
     = Raise IndexError).
Proof.
  intros Hs Hr Hedges.
  set (spos := zip_with spherical_point sphi stheta).
  set (rpos := zip_with spherical_point rphi rtheta).
  assert (Hspos : length spos = length sphi).
  { unfold spos. rewrite length_zip_with. lia. }
  assert (Hrpos : length rpos = length rphi).
  { unfold rpos. rewrite length_zip_with. lia. }
  unfold get_bipartite_relative_position_in_receiver_local_coordinates.
  fold (node_positions sphi stheta). fold (node_positions rphi rtheta).
  rewrite !node_positions_same_length by done. fold spos rpos.
  rewrite !traced_bind_pure.
  destruct (lat || lon) eqn:Hflag; cbn [negb].
  - destruct (rotation_matrices_returned rphi rtheta lat lon Hr Hflag)
      as (ms & Hms & Hmlen).
    rewrite Hms. unfold invoke. rewrite traced_bind_ok. cbn [snd pure_step].
    split.
    + intros [Hvs Hvr].
      rewrite <- Hspos in Hvs.
      destruct (np_take_valid spos senders Hvs) as (s & Es & Hsl).
      pose proof Hvr as Hvm. rewrite <- Hmlen in Hvm. rewrite <- Hrpos in Hvr.
      destruct (np_take_valid rpos receivers Hvr) as (r & Er & Hrl).
      destruct (np_take_valid ms receivers Hvm) as (erm & Em & Heml).
      exists s, r. rewrite Em, Er, Es. cbn [mbind result_bind].
      unfold rotate_with_matrices.
      rewrite (np_map2_same_length mat_vec erm r) by lia.
      cbn [mbind result_bind].
      rewrite (np_map2_same_length mat_vec erm s) by lia.
      cbn [mbind result_bind].
      rewrite np_map2_same_length by (rewrite !length_zip_with; lia).
      eexists. split_and!; [done|done|lia|lia|reflexivity| |].
      * rewrite !length_zip_with. lia.
      * exists ms, erm. split_and!; [done|done|lia|done].
    + intros Hbad.
      destruct (valid_indices_decision (length rphi) receivers) as [Hvr|Hvr].
      * pose proof Hvr as Hvm. rewrite <- Hmlen in Hvm.
        rewrite <- Hrpos in Hvr.
        destruct (np_take_valid rpos receivers Hvr) as (r & Er & Hrl).
        destruct (np_take_valid ms receivers Hvm) as (erm & Em & Heml).
        rewrite Em, Er. cbn [mbind result_bind].
        unfold rotate_with_matrices.
        rewrite (np_map2_same_length mat_vec erm r) by lia.
        cbn [mbind result_bind].
        rewrite (np_take_out_of_range spos senders); [done|].
        rewrite Hspos. intros Hvs. apply Hbad. split; [done|].
        by rewrite <- Hrpos.
      * rewrite (np_take_out_of_range ms receivers); [done|].
        by rewrite Hmlen.
  - split.
    + intros [Hvs Hvr].
      rewrite <- Hspos in Hvs. rewrite <- Hrpos in Hvr.
      destruct (np_take_valid spos senders Hvs) as (s & Es & Hsl).
      destruct (np_take_valid rpos receivers Hvr) as (r & Er & Hrl).
      exists s, r. cbn [snd pure_step]. rewrite Es, Er.
      cbn [mbind result_bind].
      rewrite np_map2_same_length by lia.
      eexists. split_and!; [done|done|lia|lia|reflexivity| |done].
      rewrite length_zip_with. lia.
    + intros Hbad. cbn [snd pure_step].
      destruct (valid_indices_decision (length sphi) senders) as [Hvs|Hvs].
      * rewrite <- Hspos in Hvs.
        destruct (np_take_valid spos senders Hvs) as (s & Es & Hsl).
        rewrite Es. cbn [mbind result_bind].
        rewrite (np_take_out_of_range rpos receivers); [done|].
        rewrite Hrpos. intros Hvr. apply Hbad. split; [|done].
        by rewrite <- Hspos.
      * rewrite (np_take_out_of_range spos senders); [done|].
        by rewrite Hspos.
Qed.

(** On one node set the bipartite function is the plain one. *)
Lemma bipartite_relative_position_same_nodes
    (phi theta : list F) senders receivers (lat lon : bool) :
  get_bipartite_relative_position_in_receiver_local_coordinates
    phi theta senders phi theta receivers lat lon
  = get_relative_position_in_receiver_local_coordinates
      phi theta senders receivers lat lon.
Proof.
  unfold get_bipartite_relative_position_in_receiver_local_coordinates,
    get_relative_position_in_receiver_local_coordinates.
  destruct (spherical_to_cartesian phi theta ≫= np_stack_xyz) as [pos|e];
    [|done].
  by rewrite !traced_bind_pure.
Qed.

End RelativePositionOutcome.

Lemma bipartite_distances_invariant
    (sphi stheta : list R) senders (rphi rtheta : list R) receivers
    (lat lon : bool) :
  length sphi = length stheta → length rphi = length rtheta →
  length senders = length receivers →
  (∀ rel,
     (get_bipartite_relative_position_in_receiver_local_coordinates
        sphi stheta senders rphi rtheta receivers false false).2 = Ok rel →
     ∃ rel',
       (get_bipartite_relative_position_in_receiver_local_coordinates
          sphi stheta senders rphi rtheta receivers lat lon).2 = Ok rel'
       ∧ map vnorm rel' = map vnorm rel)
  ∧ (∀ e,
       (get_bipartite_relative_position_in_receiver_local_coordinates
          sphi stheta senders rphi rtheta receivers false false).2
       = Raise e →
       (get_bipartite_relative_position_in_receiver_local_coordinates
          sphi stheta senders rphi rtheta receivers lat lon).2 = Raise e).
Proof.
  intros Hs Hr Hedges.
  destruct (bipartite_relative_positions_outcome sphi stheta senders
              rphi rtheta receivers false false Hs Hr Hedges)
    as [Hok0 Hbad0].
  destruct (bipartite_relative_positions_outcome sphi stheta senders
              rphi rtheta receivers lat lon Hs Hr Hedges)
    as [Hok1 Hbad1].
  destruct (decide (valid_indices (length sphi) senders
                    ∧ valid_indices (length rphi) receivers)) as [Hv|Hv].
  - destruct (Hok0 Hv) as (s & r & rel0 & Es & Er & Hsl & Hrl & E0 & _ & Hrel0).
    destruct (Hok1 Hv) as (s' & r' & rel1 & Es' & Er' & _ & _ & E1 & _ & Hrel1).
    rewrite Es in Es'. injection Es' as <-.
    rewrite Er in Er'. injection Er' as <-.
    cbn [orb] in Hrel0. subst rel0.
    split.
    + intros rel. rewrite E0. intros [= <-]. exists rel1.
      split; [exact E1|].
      destruct (lat || lon).
      * destruct Hrel1 as (ms & erm & Hms & Em & Heml & ->).
        destruct (rotation_matrices_preserve_dot _ _ _ _ _ Hr Hms)
          as [Hdot _].
        apply rotated_differences_norm; [|lia|lia].
        pose proof (np_take_elem _ _ _ Em) as Helem.
        eapply Forall_impl; [exact Helem|]. intros M HM.
        by apply (proj1 (Forall_forall _ _) Hdot).
      * by subst rel1.
    + intros e. rewrite E0. discriminate.
  - split.
    + intros rel. rewrite (Hbad0 Hv). discriminate.
    + intros e. rewrite (Hbad0 Hv), (Hbad1 Hv). done.
Qed.

(** X9: the alignment flags change the direction of the relative
    positions but not their lengths. On index arrays of equal length, both
    relative-position functions return with alignment exactly when they
    return without it, with the same error otherwise, and in exact
    arithmetic every edge has the same relative distance either way. *)
Theorem relative_distances_alignment_invariant
    (sphi stheta : list R) senders (rphi rtheta : list R) receivers
    (lat lon : bool) :
  length sphi = length stheta → length rphi = length rtheta →
  length senders = length receivers →
  ((∀ rel,
      (get_bipartite_relative_position_in_receiver_local_coordinates
         sphi stheta senders rphi rtheta receivers false false).2 = Ok rel →
      ∃ rel',
        (get_bipartite_relative_position_in_receiver_local_coordinates
           sphi stheta senders rphi rtheta receivers lat lon).2 = Ok rel'
        ∧ map vnorm rel' = map vnorm rel)
   ∧ (∀ e,
        (get_bipartite_relative_position_in_receiver_local_coordinates
           sphi stheta senders rphi rtheta receivers false false).2
        = Raise e →
        (get_bipartite_relative_position_in_receiver_local_coordinates
           sphi stheta senders rphi rtheta receivers lat lon).2 = Raise e))
  ∧ ((∀ rel,
        (get_relative_position_in_receiver_local_coordinates
           rphi rtheta senders receivers false false).2 = Ok rel →
        ∃ rel',
          (get_relative_position_in_receiver_local_coordinates
             rphi rtheta senders receivers lat lon).2 = Ok rel'
          ∧ map vnorm rel' = map vnorm rel)
     ∧ (∀ e,
          (get_relative_position_in_receiver_local_coordinates
             rphi rtheta senders receivers false false).2 = Raise e →
          (get_relative_position_in_receiver_local_coordinates
             rphi rtheta senders receivers lat lon).2 = Raise e)).
Proof.
  intros Hs Hr Hedges. split.
  - by apply bipartite_distances_invariant.
  - rewrite <- !bipartite_relative_position_same_nodes.
    by apply bipartite_distances_invariant.
Qed.

Lemma relative_distances_alignment_invariant_witness :
  length [0%R] = length [0%R] ∧ length [0%R; 1%R] = length [1%R; 2%R]
  ∧ length [0; 0] = length [1; 0]
  ∧ ((∀ rel,
        (get_bipartite_relative_position_in_receiver_local_coordinates
           [0%R] [0%R] [0; 0] [0%R; 1%R] [1%R; 2%R] [1; 0] false false).2
        = Ok rel →
        ∃ rel',
          (get_bipartite_relative_position_in_receiver_local_coordinates
             [0%R] [0%R] [0; 0] [0%R; 1%R] [1%R; 2%R] [1; 0] true false).2
          = Ok rel'
          ∧ map vnorm rel' = map vnorm rel)
     ∧ (∀ e,
          (get_bipartite_relative_position_in_receiver_local_coordinates
             [0%R] [0%R] [0; 0] [0%R; 1%R] [1%R; 2%R] [1; 0] false false).2
          = Raise e →
          (get_bipartite_relative_position_in_receiver_local_coordinates
             [0%R] [0%R] [0; 0] [0%R; 1%R] [1%R; 2%R] [1; 0] true false).2
          = Raise e))
    ∧ ((∀ rel,
          (get_relative_position_in_receiver_local_coordinates
             [0%R; 1%R] [1%R; 2%R] [0; 0] [1; 0] false false).2 = Ok rel →
          ∃ rel',
            (get_relative_position_in_receiver_local_coordinates
               [0%R; 1%R] [1%R; 2%R] [0; 0] [1; 0] true false).2 = Ok rel'
            ∧ map vnorm rel' = map vnorm rel)
       ∧ (∀ e,
            (get_relative_position_in_receiver_local_coordinates
               [0%R; 1%R] [1%R; 2%R] [0; 0] [1; 0] false false).2 = Raise e →
            (get_relative_position_in_receiver_local_coordinates
               [0%R; 1%R] [1%R; 2%R] [0; 0] [1; 0] true false).2 = Raise e)).
Proof.
  split; [reflexivity|]. split; [reflexivity|]. split; [reflexivity|].
  exact (relative_distances_alignment_invariant
           [0%R] [0%R] [0; 0] [0%R; 1%R] [1%R; 2%R] [1; 0] true false
           eq_refl eq_refl eq_refl).
Defined.

(** X10: on index arrays of equal length and node sets with one azimuth
    per polar angle, the bipartite relative-position function returns
    exactly when every sender index is in range for the sender nodes and
    every receiver index is in range for the receiver nodes, and then with
    one relative position per edge; otherwise it raises [IndexError],
    whatever the alignment flags. *)
Theorem relative_position_index_error {F : Type} `{FloatOps F}
    (sphi stheta : list F) senders (rphi rtheta : list F) receivers
    (lat lon : bool) :
  length sphi = length stheta → length rphi = length rtheta →
  length senders = length receivers →
  (valid_indices (length sphi) senders
   ∧ valid_indices (length rphi) receivers →
   ∃ rel,
     (get_bipartite_relative_position_in_receiver_local_coordinates
        sphi stheta senders rphi rtheta receivers lat lon).2 = Ok rel
     ∧ length rel = length senders)
  ∧ (¬ (valid_indices (length sphi) senders
        ∧ valid_indices (length rphi) receivers) →
     (get_bipartite_relative_position_in_receiver_local_coordinates
        sphi stheta senders rphi rtheta receivers lat lon).2
     = Raise IndexError).
Proof.
  intros Hs Hr Hedges.
  destruct (bipartite_relative_positions_outcome sphi stheta senders
              rphi rtheta receivers lat lon Hs Hr Hedges) as [Hok Hbad].
  split; [|exact Hbad].
  intros Hv. destruct (Hok Hv) as (s & r & rel & _ & _ & _ & _ & E & Hl & _).
  by exists rel.
Qed.

Lemma relative_position_index_error_witness :
  length [0%R] = length [0%R] ∧ length [0%R; 1%R] = length [1%R; 2%R]
  ∧ length [0; 0] = length [1; 0]
  ∧ (valid_indices (length [0%R]) [0; 0]
     ∧ valid_indices (length [0%R; 1%R]) [1; 0] →
     ∃ rel,
       (get_bipartite_relative_position_in_receiver_local_coordinates
          [0%R] [0%R] [0; 0] [0%R; 1%R] [1%R; 2%R] [1; 0] true true).2
       = Ok rel
       ∧ length rel = length [0; 0])
    ∧ (¬ (valid_indices (length [0%R]) [0; 0]
          ∧ valid_indices (length [0%R; 1%R]) [1; 0]) →
       (get_bipartite_relative_position_in_receiver_local_coordinates
          [0%R] [0%R] [0; 0] [0%R; 1%R] [1%R; 2%R] [1; 0] true true).2
       = Raise IndexError).
Proof.
  split; [reflexivity|]. split; [reflexivity|]. split; [reflexivity|].
  exact (relative_position_index_error
           [0%R] [0%R] [0; 0] [0%R; 1%R] [1%R; 2%R] [1; 0] true true
           eq_refl eq_refl eq_refl).
Defined.

(** ** The two encoders on one node set *)

(** X11: on a graph whose senders and receivers are the same node set,
    the bipartite encoder with the data-derived normalization computes what
    [get_graph_spatial_features] computes without sine/cosine encoding: the
    same invocations, the same error if any, the same node features (twice)
    and the same edge features. *)
Theorem bipartite_encoder_agrees_on_one_node_set {F : Type} `{FloatOps F}
    (node_lat node_lon : list F) (senders receivers : list Z)
    (add_node_positions add_node_latitude add_node_longitude : bool)
    (add_relative_positions : bool)
    (relative_longitude_local_coordinates : bool)
    (relative_latitude_local_coordinates : bool)
    (encoding_num_freqs : Z) (encoding_multiplicative_factor : F) :
  get_bipartite_graph_spatial_features
    node_lat node_lon senders node_lat node_lon receivers
    add_node_positions add_node_latitude add_node_longitude
    add_relative_positions None
    relative_longitude_local_coordinates relative_latitude_local_coordinates
  = '(node_features, edge_features) ←
      get_graph_spatial_features node_lat node_lon senders receivers
        add_node_positions add_node_latitude add_node_longitude
        add_relative_positions
        relative_longitude_local_coordinates
        relative_latitude_local_coordinates
        false encoding_num_freqs encoding_multiplicative_factor;
    mret (node_features, node_features, edge_features).
Proof.
  unfold get_bipartite_graph_spatial_features, get_graph_spatial_features.
  unfold lat_lon_deg_to_spherical.
  destruct (node_feature_columns _ _ _ _ _) as [cols|e]; [|done].
  rewrite !traced_bind_pure.
  assert (Hnodes :
    ∀ (k : list (list F) → traced (list (list F) * list (list F)))
      (k' : list (list F) * list (list F)
            → traced (list (list F) * list (list F) * list (list F))),
      (∀ nf, k' (nf, nf) = '(a, b) ← k nf; mret (a, a, b)) →
      (pure_step (match cols with
                  | [] => mret (np_zeros_width0 (length node_lat),
                                np_zeros_width0 (length node_lat))
                  | _ :: _ =>
                      s ← np_stack_last cols;
                      r ← np_stack_last cols;
                      mret (s, r)
                  end) ≫= k')
      = '(a, b) ← (pure_step (match cols with
                              | [] => mret (np_zeros_width0 (length node_lat))
                              | _ :: _ => np_stack_last cols
                              end) ≫= k);
        mret (a, a, b)).
  { intros k k' Hk. destruct cols as [|c cols].
    - cbn [mret result_ret]. rewrite !traced_bind_pure. apply Hk.
    - destruct (np_stack_last (c :: cols)) as [rows|e]; [|done].
      cbn [mbind result_bind mret result_ret].
      rewrite !traced_bind_pure. apply Hk. }
  etrans; [|apply Hnodes]; [reflexivity|]. clear Hnodes.
  intros nf. cbn beta iota.
  destruct add_relative_positions.
  - rewrite bipartite_relative_position_same_nodes.
    destruct (get_relative_position_in_receiver_local_coordinates _ _ _ _ _ _)
      as [t [rel|e]]; [|done].
    rewrite !traced_bind_ok.
    destruct (np_max (map vnorm rel)) as [m|e]; [|done].
    rewrite !traced_bind_pure. cbn. by rewrite ?app_nil_r.
  - reflexivity.
Qed.
